(** * The libSoX [trim] effect (src/trim.c): shallow embedding and properties

    The effect cuts portions out of an audio stream.  Its positions are
    resolved once by [start] into absolute offsets counted in wide
    samples (frames); [flow] then alternately discards and copies the
    spans between consecutive positions.

    Conventions of the embedding:
    - [uint64_t] and [size_t] values are integers of [Z] in the range
      [0 .. 2^64 - 1]; every operation of the source that can leave the
      range is written with its wrap-around ([add64], [sub64], [mul64]);
    - the position array [pos] is a list and [num_pos] is its length;
      indices ([current_pos], the loop counters [i]) are natural numbers,
      since the source only ever increments them below [num_pos];
    - sample buffers are lists of samples; a pointer into a buffer is the
      list of the samples from that pointer on;
    - [lsx_fail] and [lsx_warn] diagnostics are returned as values of
      [message]. *)

From Stdlib Require Import ZArith List String Ascii Bool Lia Arith Floats.
Import ListNotations.
Local Open Scope Z_scope.

(** ** Machine arithmetic *)

Definition wrap64 (x : Z) : Z := x mod 2 ^ 64.
Definition add64 (a b : Z) : Z := wrap64 (a + b).
Definition sub64 (a b : Z) : Z := wrap64 (a - b).
Definition mul64 (a b : Z) : Z := wrap64 (a * b).

Definition is_uint64 (x : Z) : Prop := 0 <= x < 2 ^ 64.

(** Modelled from the spec: the sentinel of sox.h for a total length that
    is not known ("a sentinel meaning unknown"); libSoX defines it as
    [(sox_uint64_t)(-1)]. *)
Definition SOX_UNKNOWN_LEN : Z := 2 ^ 64 - 1.

(** Modelled from the spec: the return codes of sox.h used by the effect:
    success, end of stream or failure ([SOX_EOF]), and the request to
    drop the effect from the chain ([SOX_EFF_NULL]). *)
Inductive sox_status : Type :=
| SOX_SUCCESS
| SOX_EOF
| SOX_EFF_NULL.

(** The diagnostics of trim.c, with the arguments of their format
    strings. *)
Inductive message : Type :=
| msg_usage                         (* lsx_usage *)
| msg_length_unknown                (* Can't use positions relative to end *)
| msg_before_start (n : nat)        (* Position %u is before start of audio. *)
| msg_behind (n : nat)              (* Position %u is behind the following position. *)
| msg_start_after_end               (* Start position after end of audio. *)
| msg_end_after_end                 (* End position after end of audio. *)
| msg_not_reached (n : nat).        (* last %u positions not reached. *)

(** ** Data model: [priv_t] *)

Inductive anchor_t : Type := a_start | a_latest | a_end.

Record pos_t : Type := mk_pos {
  sample : Z;          (* NB: wide samples *)
  argstr : string;
  anchor : anchor_t
}.

Record priv_t : Type := mk_priv {
  pos : list pos_t;
  current_pos : nat;
  samples_read : Z;    (* NB: wide samples *)
  copying : bool;
  uses_end : bool
}.

Definition num_pos (p : priv_t) : nat := List.length (pos p).

Definition sox_sample_t : Type := Z.

Definition with_sample (q : pos_t) (res : Z) : pos_t :=
  mk_pos res (argstr q) (anchor q).

Definition with_pos (p : priv_t) (ps : list pos_t) : priv_t :=
  mk_priv ps (current_pos p) (samples_read p) (copying p) (uses_end p).

Definition with_copying (p : priv_t) (c : bool) : priv_t :=
  mk_priv (pos p) (current_pos p) (samples_read p) c (uses_end p).

Definition with_samples_read (p : priv_t) (n : Z) : priv_t :=
  mk_priv (pos p) (current_pos p) n (copying p) (uses_end p).

(** An entry of the array as [lsx_Calloc] leaves it. *)
Definition pos_zero : pos_t := mk_pos 0 EmptyString a_start.

(** [p->pos[i].sample] *)
Definition pos_sample (p : priv_t) (i : nat) : Z := sample (nth i (pos p) pos_zero).

(** The resolved offsets, in marker order. *)
Definition offsets (p : priv_t) : list Z := map sample (pos p).

(** ** Configuration: [parse] and [start] *)

(** [sox_rate_t] is [double]; the effect only hands the rate to the
    position parser. *)
Definition sox_rate_t : Type := PrimFloat.float.

Record sox_signalinfo_t : Type := mk_signal {
  rate : sox_rate_t;
  channels : Z;
  length : Z           (* scalar samples, or SOX_UNKNOWN_LEN *)
}.

(** The part of [sox_effect_t] that the effect reads and writes. *)
Record sox_effect_t : Type := mk_effect {
  in_signal : sox_signalinfo_t;
  out_signal_length : Z;
  priv : priv_t
}.

Definition with_priv (effp : sox_effect_t) (p : priv_t) : sox_effect_t :=
  mk_effect (in_signal effp) (out_signal_length effp) p.

Definition with_out_length (effp : sox_effect_t) (n : Z) : sox_effect_t :=
  mk_effect (in_signal effp) n (priv effp).

Section Configuration.

(** [lsx_parsesamples rate str] (with the default unit ['t']) is the
    external parser of sample counts and times: [None] for the [NULL]
    result, otherwise the parsed value and the rest of the string. *)
Variable lsx_parsesamples : sox_rate_t -> string -> option (Z * string).

(** The anchor prefix of an argument and the rest of it. *)
Definition split_anchor (arg : string) : anchor_t * string :=
  match arg with
  | String "="%char rest => (a_start, rest)
  | String "-"%char rest => (a_end, rest)
  | _ => (a_latest, arg)
  end.

(** The loop of [parse] over the arguments; on a syntax error the entries
    that were not reached stay as allocated. *)
Fixpoint parse_loop (args : list string) (ue : bool)
  : sox_status * list pos_t * bool :=
  match args with
  | [] => (SOX_SUCCESS, [], ue)
  | arg :: rest =>
      let '(a, body) := split_anchor arg in
      let ue1 := match a with a_end => true | _ => ue end in
      let entry := mk_pos 0 body a in
      match lsx_parsesamples 0%float body with
      | Some (_, EmptyString) =>
          let '(st, ps, ue2) := parse_loop rest ue1 in
          (st, entry :: ps, ue2)
      | _ => (SOX_EOF, entry :: map (fun _ => pos_zero) rest, ue1)
      end
  end.

(** [parse]: [argv] still holds the effect name at its head. *)
Definition parse (effp : sox_effect_t) (argv : list string)
  : sox_status * sox_effect_t :=
  let p := priv effp in
  let '(st, ps, ue) := parse_loop (tl argv) false in
  (st, with_priv effp
         (mk_priv ps (current_pos p) (samples_read p) (copying p) ue)).

(** [in_length] of [start]: the total length in wide samples. *)
Definition in_length_of (si : sox_signalinfo_t) : Z :=
  if length si =? SOX_UNKNOWN_LEN then SOX_UNKNOWN_LEN
  else length si / channels si.

(** The [switch] on the anchor: [None] is the "before start of audio"
    failure. *)
Definition resolve_anchor (a : anchor_t) (in_length last_seen s : Z)
  : option Z :=
  match a with
  | a_start => Some s
  | a_latest => Some (add64 last_seen s)
  | a_end => if in_length <? s then None else Some (sub64 in_length s)
  end.

(** The first loop of [start] ("calculate absolute positions"), from
    index [i] on; the array is returned as the loop leaves it. *)
Fixpoint resolve_loop (r : sox_rate_t) (in_length : Z) (i : nat)
    (last_seen : Z) (ps : list pos_t) : list pos_t * option message :=
  match ps with
  | [] => ([], None)
  | q :: rest =>
      match lsx_parsesamples r (argstr q) with
      | None => (q :: rest, Some msg_usage)
      | Some (s, _) =>
          match resolve_anchor (anchor q) in_length last_seen s with
          | None => (q :: rest, Some (msg_before_start (S i)))
          | Some res =>
              let '(rest', m) := resolve_loop r in_length (S i) res rest in
              (with_sample q res :: rest', m)
          end
      end
  end.

(** The second loop of [start] ("sanity checks"), from index [i] on. *)
Fixpoint sanity_loop (i : nat) (last_seen : Z) (ps : list pos_t)
  : option message :=
  match ps with
  | [] => None
  | q :: rest =>
      if sample q <? last_seen then Some (msg_behind i)
      else sanity_loop (S i) (sample q) rest
  end.

(** The loop of the output length: [i] advances by two while
    [i+1 < num_pos]. *)
Fixpoint length_loop (acc : Z) (ps : list pos_t) : Z :=
  match ps with
  | a :: b :: rest =>
      length_loop (add64 acc (sub64 (sample b) (sample a))) rest
  | _ => acc
  end.

Definition start (effp : sox_effect_t)
  : sox_status * sox_effect_t * option message :=
  let si := in_signal effp in
  let in_length := in_length_of si in
  let p := with_copying (priv effp) false in
  if (in_length =? SOX_UNKNOWN_LEN) && uses_end p then
    (SOX_EOF, with_priv effp p, Some msg_length_unknown)
  else
    let '(ps, err) := resolve_loop (rate si) in_length 0 0 (pos p) in
    let p := with_pos p ps in
    let effp := with_priv effp p in
    match err with
    | Some m => (SOX_EOF, effp, Some m)
    | None =>
        match sanity_loop 0 0 ps with
        | Some m => (SOX_EOF, effp, Some m)
        | None =>
            if negb (num_pos p =? 0)%nat
               && negb (in_length =? SOX_UNKNOWN_LEN)
               && (in_length <? pos_sample p 0) then
              (SOX_EOF, effp, Some msg_start_after_end)
            else if negb (num_pos p =? 0)%nat
               && negb (in_length =? SOX_UNKNOWN_LEN)
               && (in_length <? pos_sample p (num_pos p - 1)) then
              (SOX_EOF, effp, Some msg_end_after_end)
            else if (num_pos p =? 1)%nat && (pos_sample p 0 =? 0) then
              (SOX_EFF_NULL, effp, None)
            else
              let open_end := Nat.odd (num_pos p) in
              if open_end && (in_length =? SOX_UNKNOWN_LEN) then
                (SOX_SUCCESS, with_out_length effp SOX_UNKNOWN_LEN, None)
              else
                let len := length_loop 0 ps in
                let len :=
                  if open_end
                  then add64 len (sub64 in_length
                                    (pos_sample p (num_pos p - 1)))
                  else len in
                (SOX_SUCCESS,
                 with_out_length effp (mul64 len (channels si)), None)
        end
    end.

End Configuration.

(** The parser returns values of [uint64_t]. *)
Definition parser_in_range
    (lsx_parsesamples : sox_rate_t -> string -> option (Z * string)) : Prop :=
  forall r str s rest, lsx_parsesamples r str = Some (s, rest) -> is_uint64 s.

(** ** Streaming: [flow] and [drain] *)

(** What one call of [flow] leaves behind: the return code, the state, the
    counts written to [*isamp] and [*osamp], and the samples written to
    [obuf]. *)
Record flow_out : Type := mk_out {
  f_status : sox_status;
  f_priv : priv_t;
  f_isamp : Z;
  f_osamp : Z;
  f_obuf : list sox_sample_t
}.

(** The condition of the first [if] of the loop body, and what its
    branch does: flip [copying] and step to the next position. *)
Definition at_position (p : priv_t) : bool :=
  (current_pos p <? num_pos p)%nat
  && (samples_read p =? pos_sample p (current_pos p)).

Definition toggle (p : priv_t) : priv_t :=
  mk_priv (pos p) (S (current_pos p)) (samples_read p)
          (negb (copying p)) (uses_end p).

(** The first [if] of the loop body. *)
Definition step_position (p : priv_t) : priv_t :=
  if at_position p then toggle p else p.

(** The condition of the second [if]: no position is left and nothing is
    being copied. *)
Definition exhausted (p : priv_t) : bool :=
  (num_pos p <=? current_pos p)%nat && negb (copying p).

(** [chunk] of the loop body. *)
Definition chunk_of (p : priv_t) (len : Z) : Z :=
  if (current_pos p <? num_pos p)%nat
  then Z.min len (sub64 (pos_sample p (current_pos p)) (samples_read p))
  else len.

(** The [while (len)] loop of [flow].  [ibuf] is the input from the
    current input pointer on; the result holds what the loop adds to
    [*isamp] and [*osamp] and appends at the output pointer.  The counts
    [chunk * channels] stay below the minimum of [*isamp] and [*osamp], so that they are
    written without wrap-around.  [None]: the iterations allowed by [fuel]
    do not finish the loop. *)
Fixpoint flow_loop (fuel : nat) (chans : Z) (p : priv_t) (len : Z)
    (ibuf : list sox_sample_t) : option flow_out :=
  if len =? 0 then Some (mk_out SOX_SUCCESS p 0 0 [])
  else
    match fuel with
    | O => None
    | S fuel' =>
        let p := step_position p in
        if exhausted p then Some (mk_out SOX_EOF p 0 0 [])
        else
          let chunk := chunk_of p len in
          let n := chunk * chans in
          let copied :=
            if copying p then firstn (Z.to_nat n) ibuf else [] in
          let written := if copying p then n else 0 in
          match flow_loop fuel' chans
                  (with_samples_read p (add64 (samples_read p) chunk))
                  (len - chunk) (skipn (Z.to_nat n) ibuf) with
          | None => None
          | Some r =>
              Some (mk_out (f_status r) (f_priv r) (n + f_isamp r)
                      (written + f_osamp r) (copied ++ f_obuf r))
          end
    end.

(** Every iteration steps over a position or consumes a frame. *)
Definition flow_fuel (p : priv_t) (len : Z) : nat :=
  S (num_pos p - current_pos p + Z.to_nat len).

(** [flow effp ibuf isamp osamp]: [isamp] samples are valid at [ibuf] and
    [osamp] samples fit at [obuf]. *)
Definition flow (effp : sox_effect_t) (ibuf : list sox_sample_t)
    (isamp osamp : Z) : option flow_out :=
  let p := priv effp in
  let chans := channels (in_signal effp) in
  let len := Z.min isamp osamp / chans in
  flow_loop (flow_fuel p len) chans p len ibuf.

Definition drain (effp : sox_effect_t) : sox_status * Z * option message :=
  let p := priv effp in
  (SOX_EOF, 0,
   if (current_pos p <? num_pos p)%nat
   then Some (msg_not_reached (num_pos p - current_pos p))
   else None).

(** ** The start-skip interface *)

Definition sox_trim_get_start (effp : sox_effect_t) : Z :=
  let p := priv effp in
  if negb (num_pos p =? 0)%nat
  then mul64 (pos_sample p 0) (channels (in_signal effp))
  else 0.

Definition sox_trim_clear_start (effp : sox_effect_t) : sox_effect_t :=
  let p := priv effp in
  with_priv effp
    (with_samples_read p
       (if negb (num_pos p =? 0)%nat then pos_sample p 0 else 0)).

(** ** The host side *)

(** What a run over a stream leaves behind: the last return code, the
    state, the input that was not consumed and all the output. *)
Record run_out : Type := mk_run {
  r_status : sox_status;
  r_effp : sox_effect_t;
  r_rest : list sox_sample_t;
  r_obuf : list sox_sample_t
}.

(** Modelled from the spec: the host (the effects chain, not part of
    trim.c) "drives the streaming phase with buffer pairs and receives
    consumed/produced counts plus a completion status each call".  [sched]
    lists, for each call, how many samples the host offers and how many
    the output buffer holds; the input that a call did not consume is
    offered again, and the host stops calling at the first [SOX_EOF]. *)
Fixpoint run_stream (effp : sox_effect_t) (sched : list (Z * Z))
    (ibuf : list sox_sample_t) : option run_out :=
  match sched with
  | [] => Some (mk_run SOX_SUCCESS effp ibuf [])
  | (n, cap) :: sched' =>
      match flow effp ibuf (Z.min n (Z.of_nat (List.length ibuf))) cap with
      | None => None
      | Some r =>
          let effp' := with_priv effp (f_priv r) in
          let rest := skipn (Z.to_nat (f_isamp r)) ibuf in
          match f_status r with
          | SOX_SUCCESS =>
              match run_stream effp' sched' rest with
              | None => None
              | Some t =>
                  Some (mk_run (r_status t) (r_effp t) (r_rest t)
                          (f_obuf r ++ r_obuf t))
              end
          | st => Some (mk_run st effp' rest (f_obuf r))
          end
      end
  end.

(** Any sequence of [flow] calls, each with its own buffers, whatever the
    calls return. *)
Fixpoint flow_calls (effp : sox_effect_t)
    (calls : list (list sox_sample_t * Z * Z)) : option sox_effect_t :=
  match calls with
  | [] => Some effp
  | (ibuf, isamp, osamp) :: calls' =>
      match flow effp ibuf isamp osamp with
      | None => None
      | Some r => flow_calls (with_priv effp (f_priv r)) calls'
      end
  end.

(** ** A stand-in for the position parser

    It reads a sample count in decimal digits, whatever the rate. *)

Definition digit_of (c : ascii) : option Z :=
  let n := Z.of_N (N_of_ascii c) in
  if (48 <=? n) && (n <=? 57) then Some (n - 48) else None.

Fixpoint demo_digits (acc : Z) (s : string) : Z * string :=
  match s with
  | EmptyString => (acc, s)
  | String c rest =>
      match digit_of c with
      | Some d => demo_digits (wrap64 (acc * 10 + d)) rest
      | None => (acc, s)
      end
  end.

Definition demo_parsesamples (_ : sox_rate_t) (s : string)
  : option (Z * string) :=
  match s with
  | EmptyString => None
  | String c _ =>
      match digit_of c with
      | Some _ => Some (demo_digits 0 s)
      | None => None
      end
  end.

(** An effect as the host creates it (state zeroed) for a stream of
    [len] samples in [chans] channels. *)
Definition demo_effect (chans len : Z) : sox_effect_t :=
  mk_effect (mk_signal 44100%float chans len) 0
            (mk_priv [] 0 0 false false).

(** ** Well-formed states *)

(** The 64-bit fields of the state hold 64-bit values. *)
Definition priv_ok (p : priv_t) : Prop :=
  is_uint64 (samples_read p)
  /\ Forall (fun q => is_uint64 (sample q)) (pos p).

(** The state holds 64-bit values and the stream has a channel. *)
Definition effect_ok (effp : sox_effect_t) : Prop :=
  priv_ok (priv effp) /\ 0 < channels (in_signal effp).

(** The buffer sizes of a schedule are sizes. *)
Definition sched_ok (sched : list (Z * Z)) : Prop :=
  Forall (fun c => 0 <= fst c /\ 0 <= snd c) sched.

(** A run went through the whole stream: the effect signalled the end, or
    less than one frame of input is left. *)
Definition stream_done (t : run_out) : Prop :=
  r_status t = SOX_EOF
  \/ Z.of_nat (List.length (r_rest t)) < channels (in_signal (r_effp t)).

(** The host's numbers: a 64-bit length and at least one channel. *)
Definition signal_ok (si : sox_signalinfo_t) : Prop :=
  is_uint64 (length si) /\ 0 < channels si.

(** The state of an effect that has not run yet (the host allocates it
    zeroed). *)
Definition fresh (effp : sox_effect_t) : Prop :=
  current_pos (priv effp) = 0%nat /\ samples_read (priv effp) = 0.

(** ** The specification's words *)

(** Position resolver, step 2: how a parsed value [s] becomes the offset
    of a marker, by its anchor, given [last_seen] and the total length
    (offsets are 64-bit values, so that the sum is a 64-bit sum). *)
Inductive resolved_as (total last_seen s : Z) : anchor_t -> Z -> Prop :=
| FromStart : resolved_as total last_seen s a_start s
| FromPrevious : resolved_as total last_seen s a_latest (add64 last_seen s)
| FromEnd : s <= total -> resolved_as total last_seen s a_end (total - s).

(** Output-length calculator: the sum over consecutive pairs of
    [markers[i+1] - markers[i]], plus [total - markers[last]] when the
    count is odd. *)
Fixpoint kept_frames (ms : list Z) (total : Z) : Z :=
  match ms with
  | [] => 0
  | [m] => total - m
  | m0 :: m1 :: rest => (m1 - m0) + kept_frames rest total
  end.

(** ** Auxiliary notions of the proofs *)

(** [a <= m0 <= m1 <= ... <= total] *)
Fixpoint ascending (a : Z) (ms : list Z) (total : Z) : Prop :=
  match ms with
  | [] => a <= total
  | m :: rest => a <= m /\ ascending m rest total
  end.

(** The frames kept from frame [a] to the end of a stream of [total]
    frames, when the markers [ms] are still ahead. *)
Fixpoint frames_from (ms : list Z) (cp : bool) (a total : Z) : Z :=
  match ms with
  | [] => if cp then total - a else 0
  | m :: rest => (if cp then m - a else 0) + frames_from rest (negb cp) m total
  end.

(** The markers still ahead of the state. *)
Definition ahead (p : priv_t) : list Z := skipn (current_pos p) (offsets p).

(** [l1] is [l2] with some elements left out. *)
Inductive subseq {A : Type} : list A -> list A -> Prop :=
| subseq_nil : subseq [] []
| subseq_skip (x : A) (l1 l2 : list A) : subseq l1 l2 -> subseq l1 (x :: l2)
| subseq_take (x : A) (l1 l2 : list A) :
    subseq l1 l2 -> subseq (x :: l1) (x :: l2).

(** The state between two calls of [flow], for markers that end at
    [bound]: [copying] follows the parity of the cursor, and the frames
    read so far have not passed a marker that is still ahead. *)
Definition on_track (p : priv_t) (bound : Z) : Prop :=
  copying p = Nat.odd (current_pos p)
  /\ (current_pos p <= num_pos p)%nat
  /\ 0 <= samples_read p
  /\ ascending (samples_read p) (ahead p) bound.

(** The buffer sizes of a sequence of calls are sizes. *)
Definition calls_ok (calls : list (list sox_sample_t * Z * Z)) : Prop :=
  Forall (fun c => 0 <= snd (fst c) /\ 0 <= snd c) calls.

(** A marker relative to the end of the audio. *)
Definition from_end (q : pos_t) : bool :=
  match anchor q with
  | a_end => true
  | _ => false
  end.

(** [last_seen] when the walk reaches marker [j]: zero at first, then the
    offset of the marker before. *)
Definition last_seen_at (ps' : list pos_t) (j : nat) : Z :=
  match j with
  | O => 0
  | S j' => sample (nth j' ps' pos_zero)
  end.

(** ** Examples of effects *)

(** The effect after [parse] on the stand-in parser. *)
Definition demo_parsed (chans len : Z) (args : list string) : sox_effect_t :=
  snd (parse demo_parsesamples (demo_effect chans len)
         ("trim"%string :: args)).

(** The effect after [parse] and [start]. *)
Definition demo_started (chans len : Z) (args : list string) : sox_effect_t :=
  snd (fst (start demo_parsesamples (demo_parsed chans len args))).

(** A stream whose samples are their own indices. *)
Definition demo_stream (n : nat) : list sox_sample_t := map Z.of_nat (seq 0 n).

(** * Further notions: argument syntax, start exits, kept spans *)

(** The condition under which [parse] goes on after an argument: the
    parser, at rate 0, reads the whole text behind the anchor prefix. *)
Definition syntax_ok
    (lsx_parsesamples : sox_rate_t -> string -> option (Z * string))
    (arg : string) : bool :=
  match lsx_parsesamples 0%float (snd (split_anchor arg)) with
  | Some (_, EmptyString) => true
  | _ => false
  end.

(** The prefix that [parse] strips for an anchor. *)
Definition anchor_prefix (a : anchor_t) : string :=
  match a with
  | a_start => "="%string
  | a_end => "-"%string
  | a_latest => EmptyString
  end.

(** The argument that a parsed position stands for. *)
Definition argument_of (q : pos_t) : string :=
  append (anchor_prefix (anchor q)) (argstr q).

(** An argument relative to the end of the audio. *)
Definition minus_argument (arg : string) : bool :=
  match arg with
  | String "-"%char _ => true
  | _ => false
  end.

(** The whole frames of a buffer. *)
Definition whole_frames (chans : Z) (ib : list sox_sample_t)
  : list sox_sample_t :=
  firstn (Z.to_nat (Z.of_nat (List.length ib) / chans * chans)) ib.

(** The samples that trimming keeps of the input [ib], which starts at
    frame [a], when the markers [ms] are still ahead: the spans between the
    markers are dropped and kept in turn, [cp] telling whether the span up
    to the next marker is kept. *)
Fixpoint kept_spans (chans : Z) (ms : list Z) (cp : bool) (a : Z)
    (ib : list sox_sample_t) : list sox_sample_t :=
  match ms with
  | [] => if cp then ib else []
  | m :: rest =>
      let n := Z.to_nat ((m - a) * chans) in
      (if cp then firstn n ib else [])
      ++ kept_spans chans rest (negb cp) m (skipn n ib)
  end.

Section StartExits.

Variable lsx_parsesamples : sox_rate_t -> string -> option (Z * string).

(** The ways out of [start], in the order of the source. *)
Inductive start_exit (effp : sox_effect_t)
  : sox_status -> sox_effect_t -> option message -> Prop :=
| exit_length_unknown :
    in_length_of (in_signal effp) = SOX_UNKNOWN_LEN ->
    uses_end (priv effp) = true ->
    start_exit effp SOX_EOF
      (with_priv effp (with_copying (priv effp) false))
      (Some msg_length_unknown)
| exit_resolve (ps : list pos_t) (e : message) :
    (in_length_of (in_signal effp) = SOX_UNKNOWN_LEN ->
     uses_end (priv effp) = false) ->
    resolve_loop lsx_parsesamples (rate (in_signal effp))
      (in_length_of (in_signal effp)) 0 0 (pos (priv effp)) = (ps, Some e) ->
    start_exit effp SOX_EOF
      (with_priv effp (with_pos (with_copying (priv effp) false) ps))
      (Some e)
| exit_sanity (ps : list pos_t) (e : message) :
    (in_length_of (in_signal effp) = SOX_UNKNOWN_LEN ->
     uses_end (priv effp) = false) ->
    resolve_loop lsx_parsesamples (rate (in_signal effp))
      (in_length_of (in_signal effp)) 0 0 (pos (priv effp)) = (ps, None) ->
    sanity_loop 0 0 ps = Some e ->
    start_exit effp SOX_EOF
      (with_priv effp (with_pos (with_copying (priv effp) false) ps))
      (Some e)
| exit_start_after_end (ps : list pos_t) :
    (in_length_of (in_signal effp) = SOX_UNKNOWN_LEN ->
     uses_end (priv effp) = false) ->
    resolve_loop lsx_parsesamples (rate (in_signal effp))
      (in_length_of (in_signal effp)) 0 0 (pos (priv effp)) = (ps, None) ->
    sanity_loop 0 0 ps = None ->
    ps <> [] ->
    in_length_of (in_signal effp) <> SOX_UNKNOWN_LEN ->
    in_length_of (in_signal effp) < sample (nth 0 ps pos_zero) ->
    start_exit effp SOX_EOF
      (with_priv effp (with_pos (with_copying (priv effp) false) ps))
      (Some msg_start_after_end)
| exit_end_after_end (ps : list pos_t) :
    (in_length_of (in_signal effp) = SOX_UNKNOWN_LEN ->
     uses_end (priv effp) = false) ->
    resolve_loop lsx_parsesamples (rate (in_signal effp))
      (in_length_of (in_signal effp)) 0 0 (pos (priv effp)) = (ps, None) ->
    sanity_loop 0 0 ps = None ->
    ps <> [] ->
    in_length_of (in_signal effp) <> SOX_UNKNOWN_LEN ->
    sample (nth 0 ps pos_zero) <= in_length_of (in_signal effp) ->
    in_length_of (in_signal effp)
      < sample (nth (List.length ps - 1) ps pos_zero) ->
    start_exit effp SOX_EOF
      (with_priv effp (with_pos (with_copying (priv effp) false) ps))
      (Some msg_end_after_end)
| exit_null (ps : list pos_t) :
    (in_length_of (in_signal effp) = SOX_UNKNOWN_LEN ->
     uses_end (priv effp) = false) ->
    resolve_loop lsx_parsesamples (rate (in_signal effp))
      (in_length_of (in_signal effp)) 0 0 (pos (priv effp)) = (ps, None) ->
    sanity_loop 0 0 ps = None ->
    (ps <> [] -> in_length_of (in_signal effp) <> SOX_UNKNOWN_LEN ->
     sample (nth 0 ps pos_zero) <= in_length_of (in_signal effp)
     /\ sample (nth (List.length ps - 1) ps pos_zero)
        <= in_length_of (in_signal effp)) ->
    map sample ps = [0] ->
    start_exit effp SOX_EFF_NULL
      (with_priv effp (with_pos (with_copying (priv effp) false) ps)) None
| exit_success (ps : list pos_t) :
    (in_length_of (in_signal effp) = SOX_UNKNOWN_LEN ->
     uses_end (priv effp) = false) ->
    resolve_loop lsx_parsesamples (rate (in_signal effp))
      (in_length_of (in_signal effp)) 0 0 (pos (priv effp)) = (ps, None) ->
    sanity_loop 0 0 ps = None ->
    (ps <> [] -> in_length_of (in_signal effp) <> SOX_UNKNOWN_LEN ->
     sample (nth 0 ps pos_zero) <= in_length_of (in_signal effp)
     /\ sample (nth (List.length ps - 1) ps pos_zero)
        <= in_length_of (in_signal effp)) ->
    map sample ps <> [0] ->
    start_exit effp SOX_SUCCESS
      (with_out_length
         (with_priv effp (with_pos (with_copying (priv effp) false) ps))
         (if Nat.odd (List.length ps)
             && (in_length_of (in_signal effp) =? SOX_UNKNOWN_LEN)
          then SOX_UNKNOWN_LEN
          else mul64
                 (if Nat.odd (List.length ps)
                  then add64 (length_loop 0 ps)
                         (sub64 (in_length_of (in_signal effp))
                            (sample (nth (List.length ps - 1) ps pos_zero)))
                  else length_loop 0 ps)
                 (channels (in_signal effp))))
      None.

End StartExits.

(** * Properties *)

(** ** Machine arithmetic *)

Lemma two64 : 2 ^ 64 = 18446744073709551616.
Proof. reflexivity. Qed.

Lemma wrap64_range (x : Z) : is_uint64 (wrap64 x).
Proof. unfold is_uint64, wrap64. apply Z.mod_pos_bound. rewrite two64. lia. Qed.

Lemma wrap64_small (x : Z) : is_uint64 x -> wrap64 x = x.
Proof. unfold is_uint64, wrap64. intros H. apply Z.mod_small. exact H. Qed.

Lemma add64_assoc (a b c : Z) : add64 (add64 a b) c = add64 a (b + c).
Proof.
  unfold add64, wrap64. rewrite Z.add_mod_idemp_l by (rewrite two64; lia).
  f_equal. lia.
Qed.

Lemma sub64_add64 (m a b : Z) : sub64 m (add64 a b) = wrap64 (sub64 m a - b).
Proof.
  unfold sub64, add64, wrap64.
  rewrite Zminus_mod_idemp_r, Zminus_mod_idemp_l. f_equal. lia.
Qed.

Lemma sub64_self (a : Z) : sub64 a a = 0.
Proof. unfold sub64, wrap64. rewrite Z.sub_diag. reflexivity. Qed.

Lemma sub64_zero_eq (a b : Z) :
  is_uint64 a -> is_uint64 b -> sub64 a b = 0 -> a = b.
Proof.
  unfold is_uint64, sub64, wrap64. rewrite two64. intros Ha Hb H.
  pose proof (Z.div_mod (a - b) 18446744073709551616). lia.
Qed.

Lemma sub64_exact (a b : Z) : 0 <= b <= a -> is_uint64 a -> sub64 a b = a - b.
Proof.
  intros H Ha. unfold sub64. apply wrap64_small. unfold is_uint64 in *. lia.
Qed.

(** ** Lists *)

Lemma firstn_add {A : Type} (x y : nat) (l : list A) :
  firstn (x + y) l = firstn x l ++ firstn y (skipn x l).
Proof.
  revert l. induction x as [|x IH]; intros l; [reflexivity|].
  destruct l as [|h t]; cbn.
  - rewrite firstn_nil. reflexivity.
  - rewrite IH. reflexivity.
Qed.

Lemma skipn_add {A : Type} (x y : nat) (l : list A) :
  skipn (x + y) l = skipn y (skipn x l).
Proof.
  revert l. induction x as [|x IH]; intros l; [reflexivity|].
  destruct l as [|h t]; cbn.
  - rewrite skipn_nil. reflexivity.
  - apply IH.
Qed.

Lemma skipn_nth {A : Type} (l : list A) (d : A) :
  forall i, (i < List.length l)%nat -> skipn i l = nth i l d :: skipn (S i) l.
Proof.
  induction l as [|x l IH]; intros i Hi; cbn in Hi; [lia|].
  destruct i as [|i]; [reflexivity|]. cbn [skipn nth]. apply IH. lia.
Qed.

Lemma last_cons {A : Type} (x : A) (l : list A) (d : A) :
  last (x :: l) d = last l x.
Proof.
  revert x d. induction l as [|y l IH]; intros x d; [reflexivity|].
  change (last (x :: y :: l) d) with (last (y :: l) d).
  rewrite (IH y d), (IH y x). reflexivity.
Qed.

Lemma last_nth {A : Type} (l : list A) (d : A) :
  last l d = nth (List.length l - 1) l d.
Proof.
  induction l as [|x l IH]; [reflexivity|].
  destruct l as [|y l]; [reflexivity|].
  change (last (x :: y :: l) d) with (last (y :: l) d). rewrite IH.
  cbn [List.length]. replace (S (S (List.length l)) - 1)%nat
    with (S (S (List.length l) - 1)) by lia. reflexivity.
Qed.

(** ** The loop of [flow] *)

Lemma flow_loop_zero (f : nat) (ch : Z) (p : priv_t) (ib : list sox_sample_t) :
  flow_loop f ch p 0 ib = Some (mk_out SOX_SUCCESS p 0 0 []).
Proof. destruct f; reflexivity. Qed.

Lemma flow_loop_step (f : nat) (ch : Z) (p : priv_t) (len : Z)
    (ib : list sox_sample_t) :
  len <> 0 ->
  flow_loop (S f) ch p len ib =
    let q := step_position p in
    if exhausted q then Some (mk_out SOX_EOF q 0 0 [])
    else
      let chunk := chunk_of q len in
      match flow_loop f ch
              (with_samples_read q (add64 (samples_read q) chunk))
              (len - chunk) (skipn (Z.to_nat (chunk * ch)) ib) with
      | None => None
      | Some r =>
          Some (mk_out (f_status r) (f_priv r) (chunk * ch + f_isamp r)
                  ((if copying q then chunk * ch else 0) + f_osamp r)
                  ((if copying q then firstn (Z.to_nat (chunk * ch)) ib
                    else []) ++ f_obuf r))
      end.
Proof.
  intros H. cbn [flow_loop]. apply Z.eqb_neq in H. rewrite H. reflexivity.
Qed.

Lemma flow_loop_fuel_mono (f : nat) :
  forall ch p len ib r,
    flow_loop f ch p len ib = Some r ->
    forall f', (f <= f')%nat -> flow_loop f' ch p len ib = Some r.
Proof.
  induction f as [|f IH]; intros ch p len ib r H f' Hle.
  - destruct (Z.eq_dec len 0) as [->|Hn].
    + rewrite flow_loop_zero in *. exact H.
    + cbn in H. apply Z.eqb_neq in Hn. rewrite Hn in H. discriminate.
  - destruct (Z.eq_dec len 0) as [->|Hn].
    + rewrite flow_loop_zero in *. exact H.
    + destruct f' as [|f']; [lia|].
      rewrite flow_loop_step in * by assumption. cbv zeta in *.
      destruct (exhausted (step_position p)); [exact H|].
      destruct (flow_loop f ch _ _ _) as [r0|] eqn:E; [|discriminate].
      rewrite (IH _ _ _ _ _ E f') by lia. exact H.
Qed.

Lemma flow_loop_det (f1 f2 : nat) (ch : Z) (p : priv_t) (len : Z)
    (ib : list sox_sample_t) (r1 r2 : flow_out) :
  flow_loop f1 ch p len ib = Some r1 ->
  flow_loop f2 ch p len ib = Some r2 -> r1 = r2.
Proof.
  intros H1 H2.
  apply flow_loop_fuel_mono with (f' := Nat.max f1 f2) in H1; [|lia].
  apply flow_loop_fuel_mono with (f' := Nat.max f1 f2) in H2; [|lia].
  congruence.
Qed.

(** Induction on the iterations of the loop: a property of the results
    holds when it holds for an empty request, when the loop returns
    [SOX_EOF], and when it passes from the rest of the loop to the loop
    with one more iteration in front. *)
Lemma flow_loop_result_ind (ch : Z)
    (P : priv_t -> Z -> list sox_sample_t -> flow_out -> Prop) :
  (forall p ib, P p 0 ib (mk_out SOX_SUCCESS p 0 0 [])) ->
  (forall p len ib,
      len <> 0 -> exhausted (step_position p) = true ->
      P p len ib (mk_out SOX_EOF (step_position p) 0 0 [])) ->
  (forall p len ib r,
      len <> 0 ->
      let q := step_position p in
      let chunk := chunk_of q len in
      exhausted q = false ->
      P (with_samples_read q (add64 (samples_read q) chunk))
        (len - chunk) (skipn (Z.to_nat (chunk * ch)) ib) r ->
      P p len ib
        (mk_out (f_status r) (f_priv r) (chunk * ch + f_isamp r)
           ((if copying q then chunk * ch else 0) + f_osamp r)
           ((if copying q then firstn (Z.to_nat (chunk * ch)) ib else [])
            ++ f_obuf r))) ->
  forall f p len ib r, flow_loop f ch p len ib = Some r -> P p len ib r.
Proof.
  intros Hzero Heof Hstep.
  induction f as [|f IH]; intros p len ib r H;
    (destruct (Z.eq_dec len 0) as [->|Hn];
     [rewrite flow_loop_zero in H; inversion H; apply Hzero|]).
  - cbn in H. apply Z.eqb_neq in Hn. rewrite Hn in H. discriminate.
  - rewrite flow_loop_step in H by assumption. cbv zeta in H.
    destruct (exhausted (step_position p)) eqn:Ex.
    + inversion H. apply Heof; assumption.
    + destruct (flow_loop f ch _ _ _) as [r0|] eqn:E; [|discriminate].
      inversion H. apply Hstep; [assumption|assumption|]. apply IH, E.
Qed.

(** ** Well-formed states and termination *)

Lemma pos_sample_range (p : priv_t) (i : nat) :
  priv_ok p -> is_uint64 (pos_sample p i).
Proof.
  intros [_ H]. unfold pos_sample.
  destruct (Nat.lt_ge_cases i (List.length (pos p))) as [Hi|Hi].
  - rewrite Forall_forall in H. apply H. apply nth_In. exact Hi.
  - rewrite nth_overflow by exact Hi. cbn. unfold is_uint64. rewrite two64. lia.
Qed.

Lemma chunk_of_bounds (p : priv_t) (len : Z) :
  0 <= len -> 0 <= chunk_of p len <= len.
Proof.
  intros H. unfold chunk_of.
  destruct (current_pos p <? num_pos p)%nat; [|lia].
  pose proof (wrap64_range (pos_sample p (current_pos p) - samples_read p)) as R.
  unfold sub64, is_uint64 in *. lia.
Qed.

Lemma step_position_ok (p : priv_t) : priv_ok p -> priv_ok (step_position p).
Proof.
  unfold step_position. destruct (at_position p); [|auto].
  intros [H1 H2]. split; assumption.
Qed.

Lemma step_position_pos (p : priv_t) : pos (step_position p) = pos p.
Proof. unfold step_position. destruct (at_position p); reflexivity. Qed.

Lemma step_position_uses_end (p : priv_t) :
  uses_end (step_position p) = uses_end p.
Proof. unfold step_position. destruct (at_position p); reflexivity. Qed.

Lemma advance_ok (p : priv_t) (c : Z) :
  priv_ok p -> priv_ok (with_samples_read p (add64 (samples_read p) c)).
Proof. intros [H1 H2]. split; [apply wrap64_range | exact H2]. Qed.

(** Without stepping over a position, a non-empty request consumes at
    least one frame. *)
Lemma chunk_of_positive (p : priv_t) (len : Z) :
  priv_ok p -> 0 < len -> at_position p = false -> 0 < chunk_of p len.
Proof.
  intros Hok Hlen Hat. unfold chunk_of. unfold at_position in Hat.
  destruct (current_pos p <? num_pos p)%nat; [|lia].
  cbn in Hat. apply Z.eqb_neq in Hat.
  pose proof (wrap64_range (pos_sample p (current_pos p) - samples_read p)) as R.
  assert (sub64 (pos_sample p (current_pos p)) (samples_read p) <> 0) as Hn.
  { intros E. apply sub64_zero_eq in E; [congruence| |apply Hok].
    apply pos_sample_range, Hok. }
  unfold sub64, is_uint64 in *. lia.
Qed.

(** The loop ends within [flow_fuel] iterations. *)
Lemma flow_loop_total (f : nat) :
  forall ch p len ib,
    priv_ok p -> 0 <= len ->
    (num_pos p - current_pos p + Z.to_nat len < f)%nat ->
    exists r, flow_loop f ch p len ib = Some r.
Proof.
  induction f as [|f IH]; intros ch p len ib Hok Hlen Hf; [lia|].
  destruct (Z.eq_dec len 0) as [->|Hn].
  - rewrite flow_loop_zero. eauto.
  - rewrite flow_loop_step by assumption. cbv zeta.
    destruct (exhausted (step_position p)) eqn:Ex; [eauto|].
    pose proof (chunk_of_bounds (step_position p) len Hlen) as Hc.
    destruct (IH ch (with_samples_read (step_position p)
                       (add64 (samples_read (step_position p))
                          (chunk_of (step_position p) len)))
                (len - chunk_of (step_position p) len)
                (skipn (Z.to_nat (chunk_of (step_position p) len * ch)) ib))
      as [r Hr].
    + apply advance_ok, step_position_ok, Hok.
    + lia.
    + unfold num_pos in *. cbn [pos current_pos with_samples_read].
      rewrite step_position_pos.
      unfold step_position in *. destruct (at_position p) eqn:Hat.
      * unfold at_position in Hat. apply andb_true_iff in Hat.
        destruct Hat as [Hlt _]. apply Nat.ltb_lt in Hlt.
        unfold num_pos in Hlt. cbn [current_pos toggle]. lia.
      * pose proof (chunk_of_positive p len Hok ltac:(lia) Hat). lia.
    + rewrite Hr. eauto.
Qed.

Lemma flow_loop_ok (f : nat) (ch : Z) (p : priv_t) (len : Z)
    (ib : list sox_sample_t) (r : flow_out) :
  priv_ok p -> flow_loop f ch p len ib = Some r -> priv_ok (f_priv r).
Proof.
  intros Hok H. revert Hok. pattern p, len, ib, r.
  apply (flow_loop_result_ind ch) with (4 := H); clear;
    cbv beta iota delta [f_status f_priv f_isamp f_osamp f_obuf].
  - auto.
  - intros p len ib _ _. apply step_position_ok.
  - intros p len ib r _ q chunk _ IH Hok.
    apply IH, advance_ok, step_position_ok, Hok.
Qed.

(** What a call of the loop reports. *)
Lemma flow_loop_facts (f : nat) (ch : Z) (p : priv_t) (len : Z)
    (ib : list sox_sample_t) (r : flow_out) :
  0 <= ch -> 0 <= len ->
  flow_loop f ch p len ib = Some r ->
  pos (f_priv r) = pos p
  /\ uses_end (f_priv r) = uses_end p
  /\ 0 <= f_osamp r <= f_isamp r
  /\ f_isamp r <= len * ch
  /\ (f_status r = SOX_SUCCESS -> f_isamp r = len * ch)
  /\ (f_status r = SOX_SUCCESS \/ f_status r = SOX_EOF).
Proof.
  intros Hch Hlen H. revert Hlen. pattern p, len, ib, r.
  apply (flow_loop_result_ind ch) with (4 := H); clear - Hch;
    cbv beta iota delta [f_status f_priv f_isamp f_osamp f_obuf].
  - intros p ib _. repeat split; auto; lia.
  - intros p len ib _ _ Hlen.
    rewrite step_position_pos, step_position_uses_end.
    repeat split; auto; try lia. discriminate.
  - intros p len ib r _ q chunk _ IH Hlen.
    pose proof (chunk_of_bounds q len Hlen) as Hc. fold chunk in Hc.
    destruct IH as (E1 & E2 & E3 & E4 & E5 & E6); [lia|].
    cbn [pos uses_end with_samples_read] in E1, E2. subst q.
    rewrite step_position_pos in E1. rewrite step_position_uses_end in E2.
    repeat split; try assumption;
      try (destruct (copying (step_position p)); nia).
    intros Hs. rewrite (E5 Hs). lia.
Qed.

Lemma flow_loop_obuf_length (f : nat) (ch : Z) (p : priv_t) (len : Z)
    (ib : list sox_sample_t) (r : flow_out) :
  0 <= ch -> 0 <= len ->
  len * ch <= Z.of_nat (List.length ib) ->
  flow_loop f ch p len ib = Some r ->
  Z.of_nat (List.length (f_obuf r)) = f_osamp r.
Proof.
  intros Hch Hlen Hib H. revert Hlen Hib. pattern p, len, ib, r.
  apply (flow_loop_result_ind ch) with (4 := H); clear - Hch;
    cbv beta iota delta [f_status f_priv f_isamp f_osamp f_obuf]; try reflexivity.
  intros p len ib r _ q chunk _ IH Hlen Hib.
  pose proof (chunk_of_bounds q len Hlen) as Hc. fold chunk in Hc.
  rewrite length_app, Nat2Z.inj_add, IH.
  - destruct (copying q); [|reflexivity].
    rewrite length_firstn. f_equal. nia.
  - lia.
  - rewrite length_skipn. nia.
Qed.

(** ** A request of [a + b] frames is a request of [a] frames followed by
    a request of [b] frames *)

Lemma chunk_of_resume (q : priv_t) (a b : Z) :
  0 < a -> 0 <= b ->
  chunk_of q (a + b) <> chunk_of q a ->
  let q' := with_samples_read q (add64 (samples_read q) a) in
  chunk_of q a = a
  /\ at_position q' = false
  /\ chunk_of q (a + b) = a + chunk_of q' b.
Proof.
  intros Ha Hb Hne q'. unfold chunk_of, at_position in *. subst q'.
  cbn [current_pos samples_read pos num_pos with_samples_read pos_sample] in *.
  unfold num_pos, pos_sample in *.
  cbn [current_pos samples_read pos with_samples_read] in *.
  destruct (current_pos q <? List.length (pos q))%nat; cbn [andb].
  - set (m := sample (nth (current_pos q) (pos q) pos_zero)) in *.
    pose proof (wrap64_range (m - samples_read q)) as R.
    assert (sub64 m (add64 (samples_read q) a)
            = sub64 m (samples_read q) - a) as E.
    { rewrite sub64_add64. apply wrap64_small.
      unfold sub64, is_uint64 in *. lia. }
    rewrite E. repeat split; try lia.
    apply Z.eqb_neq. intros Heq. rewrite Heq, sub64_self in E.
    unfold sub64 in *. lia.
  - repeat split; lia.
Qed.

Lemma exhausted_advance (q : priv_t) (n : Z) :
  exhausted (with_samples_read q n) = exhausted q.
Proof. reflexivity. Qed.

Lemma flow_loop_split (f1 : nat) :
  forall ch p a ib r1,
    0 <= ch -> 0 <= a ->
    flow_loop f1 ch p a ib = Some r1 ->
    forall b, 0 <= b ->
    match f_status r1 with
    | SOX_SUCCESS =>
        forall f2 r2,
          flow_loop f2 ch (f_priv r1) b
            (skipn (Z.to_nat (f_isamp r1)) ib) = Some r2 ->
          exists f,
            flow_loop f ch p (a + b) ib =
              Some (mk_out (f_status r2) (f_priv r2)
                      (f_isamp r1 + f_isamp r2) (f_osamp r1 + f_osamp r2)
                      (f_obuf r1 ++ f_obuf r2))
    | _ => exists f, flow_loop f ch p (a + b) ib = Some r1
    end.
Proof.
  assert (Hzero : forall ch p ib r1 f,
    flow_loop f ch p 0 ib = Some r1 ->
    forall b, 0 <= b ->
    match f_status r1 with
    | SOX_SUCCESS =>
        forall f2 r2,
          flow_loop f2 ch (f_priv r1) b
            (skipn (Z.to_nat (f_isamp r1)) ib) = Some r2 ->
          exists f,
            flow_loop f ch p (0 + b) ib =
              Some (mk_out (f_status r2) (f_priv r2)
                      (f_isamp r1 + f_isamp r2) (f_osamp r1 + f_osamp r2)
                      (f_obuf r1 ++ f_obuf r2))
    | _ => exists f, flow_loop f ch p (0 + b) ib = Some r1
    end).
  { intros ch p ib r1 f H b Hb. rewrite flow_loop_zero in H.
    inversion H; subst; cbn. intros f2 r2 H2. exists f2.
    rewrite H2. destruct r2; reflexivity. }
  induction f1 as [|f1 IH]; intros ch p a ib r1 Hch Ha H b Hb.
  - destruct (Z.eq_dec a 0) as [->|Hn]; [eapply Hzero; eauto|].
    cbn in H. apply Z.eqb_neq in Hn. rewrite Hn in H. discriminate.
  - destruct (Z.eq_dec a 0) as [->|Hn]; [eapply Hzero; eauto|].
    rewrite flow_loop_step in H by assumption. cbv zeta in H.
    set (q := step_position p) in *.
    destruct (exhausted q) eqn:Ex.
    + inversion H; subst; cbn. exists 1%nat.
      rewrite flow_loop_step by lia. cbv zeta. fold q. rewrite Ex. reflexivity.
    + pose proof (chunk_of_bounds q a Ha) as Hc.
      destruct (flow_loop f1 ch _ _ _) as [r0|] eqn:E; [|discriminate].
      assert (0 <= a - chunk_of q a) as Hrem by lia.
      pose proof (flow_loop_facts _ _ _ _ _ _ Hch Hrem E) as F0.
      destruct F0 as (_ & _ & F3 & _).
      destruct (Z.eq_dec (chunk_of q (a + b)) (chunk_of q a)) as [Hsame|Hdiff].
      * (* the first chunk is the same *)
        pose proof (IH _ _ _ _ _ Hch Hrem E b Hb) as IHE.
        inversion H; subst r1; cbn [f_status f_priv f_isamp f_osamp f_obuf].
        destruct (f_status r0) eqn:Est.
        -- intros f2 r2 H2.
           replace (Z.to_nat (chunk_of q a * ch + f_isamp r0))
             with (Z.to_nat (chunk_of q a * ch) + Z.to_nat (f_isamp r0))%nat
             in H2 by (rewrite <- Z2Nat.inj_add; [reflexivity|nia|lia]).
           rewrite skipn_add in H2.
           destruct (IHE f2 r2 H2) as [f Hf]. exists (S f).
           rewrite flow_loop_step by lia. cbv zeta. fold q. rewrite Ex, Hsame.
           replace (a + b - chunk_of q a) with (a - chunk_of q a + b) by lia.
           rewrite Hf. cbn [f_status f_priv f_isamp f_osamp f_obuf].
           rewrite app_assoc. f_equal. f_equal; lia.
        -- destruct IHE as [f Hf]. exists (S f).
           rewrite flow_loop_step by lia. cbv zeta. fold q. rewrite Ex, Hsame.
           replace (a + b - chunk_of q a) with (a - chunk_of q a + b) by lia.
           rewrite Hf. rewrite Est. reflexivity.
        -- destruct IHE as [f Hf]. exists (S f).
           rewrite flow_loop_step by lia. cbv zeta. fold q. rewrite Ex, Hsame.
           replace (a + b - chunk_of q a) with (a - chunk_of q a + b) by lia.
           rewrite Hf. rewrite Est. reflexivity.
      * (* the first request ends inside the chunk *)
        destruct (chunk_of_resume q a b ltac:(lia) Hb Hdiff) as (Hca & Hat & Hcb).
        rewrite Hca in *. replace (a - a) with 0 in E by lia.
        rewrite flow_loop_zero in E. inversion E; subst r0.
        inversion H; subst r1; cbn [f_status f_priv f_isamp f_osamp f_obuf].
        set (q' := with_samples_read q (add64 (samples_read q) a)) in *.
        intros f2 r2 H2.
        destruct (Z.eq_dec b 0) as [->|Hbn].
        -- rewrite flow_loop_zero in H2. inversion H2; subst r2.
           cbn [f_status f_priv f_isamp f_osamp f_obuf]. exists 1%nat.
           rewrite Z.add_0_r in Hdiff. congruence.
        -- destruct f2 as [|f2].
           { cbn in H2. apply Z.eqb_neq in Hbn. rewrite Hbn in H2. discriminate. }
           rewrite flow_loop_step in H2 by assumption. cbv zeta in H2.
           assert (step_position q' = q') as Hq'
             by (unfold step_position; rewrite Hat; reflexivity).
           rewrite Hq' in H2. unfold q' in H2 at 1.
           rewrite exhausted_advance, Ex in H2.
           fold q' in H2.
           destruct (flow_loop f2 ch _ _ _) as [r3|] eqn:E3; [|discriminate].
           inversion H2; subst r2.
           cbn [f_status f_priv f_isamp f_osamp f_obuf].
           pose proof (chunk_of_bounds q' b Hb) as Hc'.
           exists (S f2). rewrite flow_loop_step by lia. cbv zeta. fold q.
           rewrite Ex, Hcb.
           replace (with_samples_read q
                      (add64 (samples_read q) (a + chunk_of q' b)))
             with (with_samples_read q'
                     (add64 (samples_read q') (chunk_of q' b)))
             by (unfold q'; cbn; unfold with_samples_read; cbn;
                 rewrite add64_assoc; reflexivity).
           replace (a + b - (a + chunk_of q' b)) with (b - chunk_of q' b) by lia.
           replace (Z.to_nat ((a + chunk_of q' b) * ch))
             with (Z.to_nat (a * ch + 0) + Z.to_nat (chunk_of q' b * ch))%nat
             by (rewrite <- Z2Nat.inj_add; [f_equal; lia|nia|nia]).
           rewrite skipn_add, E3.
           cbn [f_status f_priv f_isamp f_osamp f_obuf].
           f_equal. f_equal.
           ++ lia.
           ++ change (copying q') with (copying q).
              destruct (copying q); lia.
           ++ change (copying q') with (copying q).
              destruct (copying q); [|reflexivity].
              rewrite firstn_add, Z.add_0_r, app_nil_r, app_assoc. reflexivity.
Qed.

(** ** Calls of [flow] and runs over a stream *)

Lemma flow_len_nonneg (ch isamp osamp : Z) :
  0 < ch -> 0 <= isamp -> 0 <= osamp -> 0 <= Z.min isamp osamp / ch.
Proof. intros. apply Z.div_pos; lia. Qed.

(** [flow] returns. *)
Lemma flow_total (effp : sox_effect_t) (ib : list sox_sample_t)
    (isamp osamp : Z) :
  effect_ok effp -> 0 <= isamp -> 0 <= osamp ->
  exists r, flow effp ib isamp osamp = Some r.
Proof.
  intros [Hok Hch] Hi Ho. unfold flow. apply flow_loop_total.
  - exact Hok.
  - apply flow_len_nonneg; assumption.
  - unfold flow_fuel. lia.
Qed.

Lemma flow_of_loop (effp : sox_effect_t) (ib : list sox_sample_t)
    (isamp osamp : Z) (f : nat) (r : flow_out) :
  effect_ok effp -> 0 <= isamp -> 0 <= osamp ->
  flow_loop f (channels (in_signal effp)) (priv effp)
    (Z.min isamp osamp / channels (in_signal effp)) ib = Some r ->
  flow effp ib isamp osamp = Some r.
Proof.
  intros Hok Hi Ho H.
  destruct (flow_total effp ib isamp osamp Hok Hi Ho) as [r' Hr'].
  rewrite Hr'. f_equal. unfold flow in Hr'.
  eapply flow_loop_det; eassumption.
Qed.

Lemma flow_ok (effp : sox_effect_t) (ib : list sox_sample_t)
    (isamp osamp : Z) (r : flow_out) :
  effect_ok effp -> flow effp ib isamp osamp = Some r ->
  effect_ok (with_priv effp (f_priv r)).
Proof.
  intros [Hok Hch] H. split; [|exact Hch]. cbn.
  unfold flow in H. eapply flow_loop_ok; eassumption.
Qed.

Lemma with_priv_same (effp : sox_effect_t) : with_priv effp (priv effp) = effp.
Proof. destruct effp; reflexivity. Qed.

Lemma div_sub_mul (x a ch : Z) : 0 < ch -> (x - a * ch) / ch = x / ch - a.
Proof.
  intros H. replace (x - a * ch) with (x + (- a) * ch) by lia.
  rewrite Z.div_add by lia. lia.
Qed.

(** A run that goes through the whole stream is one request for all of
    its frames. *)
Lemma run_stream_as_loop (sched : list (Z * Z)) :
  forall effp ib t,
    effect_ok effp -> sched_ok sched ->
    run_stream effp sched ib = Some t ->
    stream_done t ->
    exists f r,
      flow_loop f (channels (in_signal effp)) (priv effp)
        (Z.of_nat (List.length ib) / channels (in_signal effp)) ib = Some r
      /\ f_status r = r_status t
      /\ with_priv effp (f_priv r) = r_effp t
      /\ f_obuf r = r_obuf t
      /\ skipn (Z.to_nat (f_isamp r)) ib = r_rest t.
Proof.
  induction sched as [|[n cap] sched IH]; intros effp ib t Hok Hs H Hdone.
  - cbn in H. inversion H; subst t. unfold stream_done in Hdone.
    cbn [r_status r_rest r_effp r_obuf] in *.
    destruct Hdone as [Hd|Hd]; [discriminate|].
    exists 0%nat, (mk_out SOX_SUCCESS (priv effp) 0 0 []).
    rewrite Z.div_small by lia. rewrite flow_loop_zero. cbn.
    rewrite with_priv_same. repeat split; reflexivity.
  - cbn [run_stream] in H. inversion Hs as [|c l [Hn Hcap] Hs']; subst.
    cbn [fst snd] in *.
    set (ch := channels (in_signal effp)) in *.
    set (L := Z.of_nat (List.length ib)) in *.
    destruct (flow effp ib (Z.min n L) cap) as [r1|] eqn:E1; [|discriminate].
    pose proof (flow_ok _ _ _ _ _ Hok E1) as Hok1.
    destruct Hok as [Hp Hch]. fold ch in Hch.
    unfold flow in E1. fold ch in E1.
    set (a := Z.min (Z.min n L) cap / ch) in *.
    assert (0 <= a) as Ha by (apply flow_len_nonneg; lia).
    assert (a <= L / ch) as HaL by (apply Z.div_le_mono; lia).
    assert (a * ch <= L) as HaL'.
    { pose proof (Z.mul_div_le (Z.min (Z.min n L) cap) ch Hch). fold a in H0. lia. }
    assert (0 <= ch) as Hch0 by lia.
    assert (0 <= L / ch - a) as Hb by lia.
    destruct (flow_loop_facts _ _ _ _ _ _ Hch0 Ha E1)
      as (_ & _ & F3 & F4 & F5 & F6).
    pose proof (flow_loop_split _ _ _ _ _ _ Hch0 Ha E1 (L / ch - a) Hb)
      as Hsplit.
    replace (a + (L / ch - a)) with (L / ch) in Hsplit by lia.
    destruct (f_status r1) eqn:Est.
    + destruct (run_stream _ sched _) as [t'|] eqn:E2; [|discriminate].
      inversion H; subst t. cbn in Hdone |- *.
      destruct (IH _ _ _ Hok1 Hs' E2 Hdone) as (f2 & r2 & G1 & G2 & G3 & G4 & G5).
      cbn [in_signal priv with_priv] in G1. fold ch in G1.
      rewrite length_skipn in G1.
      rewrite (F5 eq_refl) in G1.
      replace (Z.of_nat (List.length ib - Z.to_nat (a * ch)))
        with (L - a * ch) in G1 by (unfold L; lia).
      rewrite div_sub_mul in G1 by assumption.
      rewrite <- (F5 eq_refl) in G1.
      destruct (Hsplit f2 r2 G1) as [f Hf].
      exists f. eexists. split; [exact Hf|]. cbn.
      assert (0 <= f_isamp r2) as Hi2.
      { pose proof (flow_loop_facts _ _ _ _ _ _ Hch0 Hb G1) as F. lia. }
      repeat split; try assumption.
      * congruence.
      * rewrite Z2Nat.inj_add by lia. rewrite skipn_add. exact G5.
    + inversion H; subst t. cbn in *.
      destruct Hsplit as [f Hf]. exists f, r1. repeat split; assumption.
    + destruct F6; discriminate.
Qed.

Lemma run_stream_total (sched : list (Z * Z)) :
  forall effp ib,
    effect_ok effp -> sched_ok sched ->
    exists t, run_stream effp sched ib = Some t.
Proof.
  induction sched as [|[n cap] sched IH]; intros effp ib Hok Hs.
  - cbn. eauto.
  - inversion Hs as [|c l [Hn Hcap] Hs']; subst. cbn [fst snd] in *.
    cbn [run_stream].
    destruct (flow_total effp ib (Z.min n (Z.of_nat (List.length ib))) cap Hok
                ltac:(lia) Hcap) as [r Hr].
    rewrite Hr. destruct (f_status r); eauto.
    destruct (IH (with_priv effp (f_priv r))
                (skipn (Z.to_nat (f_isamp r)) ib)) as [t Ht]; auto.
    + eapply flow_ok; eassumption.
    + rewrite Ht. eauto.
Qed.

(** One call that is offered the whole stream and has room for it. *)
Lemma run_one_call (effp : sox_effect_t) (ib : list sox_sample_t)
    (cap : Z) (f : nat) (r : flow_out) :
  effect_ok effp -> Z.of_nat (List.length ib) <= cap ->
  flow_loop f (channels (in_signal effp)) (priv effp)
    (Z.of_nat (List.length ib) / channels (in_signal effp)) ib = Some r ->
  run_stream effp [(Z.of_nat (List.length ib), cap)] ib =
    Some (mk_run (f_status r) (with_priv effp (f_priv r))
            (skipn (Z.to_nat (f_isamp r)) ib) (f_obuf r)).
Proof.
  intros Hok Hcap H. cbn [run_stream]. rewrite Z.min_id.
  rewrite (flow_of_loop effp ib _ cap f r Hok); try lia.
  - destruct (f_status r); try reflexivity. rewrite app_nil_r. reflexivity.
  - rewrite Z.min_l by lia. exact H.
Qed.

Lemma run_stream_chunking (effp : sox_effect_t) (sched : list (Z * Z))
    (ib : list sox_sample_t) (cap : Z) (t : run_out) :
  effect_ok effp -> sched_ok sched ->
  Z.of_nat (List.length ib) <= cap ->
  run_stream effp sched ib = Some t -> stream_done t ->
  run_stream effp [(Z.of_nat (List.length ib), cap)] ib = Some t.
Proof.
  intros Hok Hs Hcap H Hdone.
  destruct (run_stream_as_loop sched effp ib t Hok Hs H Hdone)
    as (f & r & G1 & G2 & G3 & G4 & G5).
  rewrite (run_one_call effp ib cap f r Hok Hcap G1).
  rewrite G2, G3, G4, G5. destruct t; reflexivity.
Qed.

(** ** [flow] reads no more than it is offered *)

Lemma flow_loop_firstn (f : nat) :
  forall ch p len ib k,
    0 <= ch -> 0 <= len -> len * ch <= Z.of_nat k ->
    flow_loop f ch p len (firstn k ib) = flow_loop f ch p len ib.
Proof.
  induction f as [|f IH]; intros ch p len ib k Hch Hlen Hk.
  - destruct (Z.eq_dec len 0) as [->|Hn].
    + rewrite !flow_loop_zero. reflexivity.
    + cbn. apply Z.eqb_neq in Hn. rewrite Hn. reflexivity.
  - destruct (Z.eq_dec len 0) as [->|Hn].
    + rewrite !flow_loop_zero. reflexivity.
    + rewrite !flow_loop_step by assumption. cbv zeta.
      pose proof (chunk_of_bounds (step_position p) len Hlen) as Hc.
      set (c := chunk_of (step_position p) len) in *.
      destruct (exhausted (step_position p)); [reflexivity|].
      rewrite skipn_firstn_comm, firstn_firstn.
      rewrite Nat.min_l by nia.
      rewrite IH by nia. reflexivity.
Qed.

Lemma flow_reads_offered (effp : sox_effect_t) (ib : list sox_sample_t)
    (isamp osamp : Z) :
  0 < channels (in_signal effp) -> 0 <= isamp -> 0 <= osamp ->
  flow effp (firstn (Z.to_nat isamp) ib) isamp osamp
  = flow effp ib isamp osamp.
Proof.
  intros Hch Hi Ho. unfold flow. apply flow_loop_firstn.
  - lia.
  - apply flow_len_nonneg; assumption.
  - pose proof (Z.mul_div_le (Z.min isamp osamp) _ Hch). lia.
Qed.

(** ** Invariants of the streaming state *)

Lemma step_position_parity (p : priv_t) :
  copying p = Nat.odd (current_pos p) ->
  copying (step_position p) = Nat.odd (current_pos (step_position p)).
Proof.
  intros H. unfold step_position. destruct (at_position p); [|exact H].
  cbn [copying current_pos toggle]. rewrite H, Nat.odd_succ.
  apply Nat.negb_odd.
Qed.

Lemma flow_loop_parity (f : nat) (ch : Z) (p : priv_t) (len : Z)
    (ib : list sox_sample_t) (r : flow_out) :
  copying p = Nat.odd (current_pos p) ->
  flow_loop f ch p len ib = Some r ->
  copying (f_priv r) = Nat.odd (current_pos (f_priv r)).
Proof.
  intros Hp H. revert Hp. pattern p, len, ib, r.
  apply (flow_loop_result_ind ch) with (4 := H); clear;
    cbv beta iota delta [f_status f_priv f_isamp f_osamp f_obuf].
  - auto.
  - intros p len ib _ _. apply step_position_parity.
  - intros p len ib r _ q chunk _ IH Hp.
    apply IH. apply (step_position_parity p Hp).
Qed.

Lemma flow_calls_parity (calls : list (list sox_sample_t * Z * Z)) :
  forall effp,
    effect_ok effp ->
    Forall (fun c => 0 <= snd (fst c) /\ 0 <= snd c) calls ->
    copying (priv effp) = Nat.odd (current_pos (priv effp)) ->
    exists effp',
      flow_calls effp calls = Some effp'
      /\ copying (priv effp') = Nat.odd (current_pos (priv effp')).
Proof.
  induction calls as [|[[ib isamp] osamp] calls IH]; intros effp Hok Hc Hp.
  - cbn. eauto.
  - inversion Hc as [|c l [Hi Ho] Hc']; subst. cbn [fst snd] in *.
    cbn [flow_calls].
    destruct (flow_total effp ib isamp osamp Hok Hi Ho) as [r Hr].
    rewrite Hr. apply IH.
    + eapply flow_ok; eassumption.
    + exact Hc'.
    + cbn. unfold flow in Hr. eapply flow_loop_parity; eassumption.
Qed.

(** A call that had a frame to process and returns [SOX_SUCCESS] leaves a
    state that still has something to copy or a position ahead. *)
Lemma flow_loop_success (f : nat) (ch : Z) (p : priv_t) (len : Z)
    (ib : list sox_sample_t) (r : flow_out) :
  len <> 0 ->
  flow_loop f ch p len ib = Some r ->
  f_status r = SOX_SUCCESS -> exhausted (f_priv r) = false.
Proof.
  intros Hn H Hs.
  assert ((len = 0 /\ f_priv r = p) \/ exhausted (f_priv r) = false) as G.
  { revert Hs. pattern p, len, ib, r.
    apply (flow_loop_result_ind ch) with (4 := H); clear;
    cbv beta iota delta [f_status f_priv f_isamp f_osamp f_obuf].
    - auto.
    - discriminate.
    - intros p len ib r _ q chunk Ex IH Hs. right.
      destruct (IH Hs) as [[_ ->]|G]; [exact Ex|exact G]. }
  destruct G as [[G _]|G]; [contradiction|exact G].
Qed.

Lemma exhausted_at_position (p : priv_t) :
  exhausted p = true -> step_position p = p.
Proof.
  unfold exhausted, step_position, at_position. intros H.
  apply andb_true_iff in H. destruct H as [H _]. apply Nat.leb_le in H.
  destruct (current_pos p <? num_pos p)%nat eqn:E; [|reflexivity].
  apply Nat.ltb_lt in E. lia.
Qed.

Lemma flow_frames_positive (ch isamp osamp : Z) :
  0 < ch -> ch <= Z.min isamp osamp -> 0 < Z.min isamp osamp / ch.
Proof. intros. apply Z.div_str_pos. lia. Qed.

(** ** The output is drawn from the input that was consumed *)

Lemma subseq_refl {A : Type} (l : list A) : subseq l l.
Proof. induction l; constructor; assumption. Qed.

Lemma subseq_nil_l {A : Type} (l : list A) : subseq [] l.
Proof. induction l; constructor; assumption. Qed.

Lemma subseq_app {A : Type} (l1 l2 k1 k2 : list A) :
  subseq l1 l2 -> subseq k1 k2 -> subseq (l1 ++ k1) (l2 ++ k2).
Proof.
  intros H1 H2. induction H1; cbn; try constructor; assumption.
Qed.

Lemma subseq_app_r {A : Type} (l1 l2 k : list A) :
  subseq l1 l2 -> subseq l1 (l2 ++ k).
Proof.
  intros H. rewrite <- (app_nil_r l1). apply subseq_app; [exact H|].
  apply subseq_nil_l.
Qed.

Lemma subseq_firstn_le {A : Type} (l : list A) (ib : list A) (x y : nat) :
  (x <= y)%nat -> subseq l (firstn x ib) -> subseq l (firstn y ib).
Proof.
  intros Hle H. replace y with (x + (y - x))%nat by lia.
  rewrite firstn_add. apply subseq_app_r, H.
Qed.

Lemma flow_loop_subseq (f : nat) (ch : Z) (p : priv_t) (len : Z)
    (ib : list sox_sample_t) (r : flow_out) :
  0 <= ch -> 0 <= len ->
  flow_loop f ch p len ib = Some r ->
  subseq (f_obuf r) (firstn (Z.to_nat (f_isamp r)) ib).
Proof.
  intros Hch Hlen H.
  pose proof (flow_loop_facts f ch p len ib r Hch Hlen H) as F.
  assert (0 <= len ->
          0 <= f_isamp r
          /\ subseq (f_obuf r) (firstn (Z.to_nat (f_isamp r)) ib)) as G.
  { clear F. pattern p, len, ib, r.
    apply (flow_loop_result_ind ch) with (4 := H); clear - Hch;
    cbv beta iota delta [f_status f_priv f_isamp f_osamp f_obuf].
    - intros p ib _. split; [lia|constructor].
    - intros p len ib _ _ _. split; [lia|constructor].
    - intros p len ib r _ q chunk _ IH Hlen.
      pose proof (chunk_of_bounds q len Hlen) as Hc. fold chunk in Hc.
      destruct IH as [I1 I2]; [lia|]. split; [nia|].
      rewrite Z2Nat.inj_add by nia. rewrite firstn_add.
      apply subseq_app; [|exact I2].
      destruct (copying q); [apply subseq_refl|apply subseq_nil_l]. }
  apply G, Hlen.
Qed.

(** ** The markers ahead of a state and the frames kept *)

Lemma ascending_le (ms : list Z) :
  forall a total, ascending a ms total -> a <= total.
Proof.
  induction ms as [|m rest IH]; intros a total H; cbn in H; [exact H|].
  destruct H as [H1 H2]. apply IH in H2. lia.
Qed.

Lemma ascending_last (ms : list Z) :
  forall a total, ascending a ms total -> ascending a ms (last ms a).
Proof.
  induction ms as [|m rest IH]; intros a total H; cbn [ascending] in *.
  - cbn. lia.
  - destruct H as [H1 H2]. split; [exact H1|]. rewrite last_cons.
    eapply IH, H2.
Qed.

Lemma ascending_last_le (ms : list Z) :
  forall a total, ascending a ms total -> last ms a <= total.
Proof.
  induction ms as [|m rest IH]; intros a total H; cbn [ascending] in *.
  - cbn. lia.
  - destruct H as [H1 H2]. rewrite last_cons. eapply IH, H2.
Qed.

Lemma frames_from_kept (n : nat) :
  forall ms, (List.length ms <= n)%nat ->
  forall a total, frames_from ms false a total = kept_frames ms total.
Proof.
  induction n as [|n IH]; intros ms Hn a total.
  - destruct ms; [reflexivity|cbn in Hn; lia].
  - destruct ms as [|m0 [|m1 r]]; cbn; try lia.
    rewrite (IH r) by (cbn in Hn; lia). lia.
Qed.

Lemma frames_from_end (ms : list Z) :
  forall cp total, ascending total ms total -> frames_from ms cp total total = 0.
Proof.
  induction ms as [|m rest IH]; intros cp total H; cbn in *.
  - destruct cp; lia.
  - destruct H as [H1 H2]. pose proof (ascending_le _ _ _ H2) as Hle.
    assert (m = total) as -> by lia. rewrite IH by exact H2.
    destruct cp; lia.
Qed.

Lemma ahead_cons (p : priv_t) :
  (current_pos p <? num_pos p)%nat = true ->
  ahead p = pos_sample p (current_pos p) :: ahead (toggle p).
Proof.
  intros H. apply Nat.ltb_lt in H. unfold ahead, offsets, num_pos in *.
  cbn [current_pos pos toggle].
  rewrite (skipn_nth _ 0) by (rewrite length_map; exact H).
  f_equal. unfold pos_sample. change 0 with (sample pos_zero) at 1.
  apply map_nth.
Qed.

Lemma ahead_nil (p : priv_t) :
  (current_pos p <? num_pos p)%nat = false -> ahead p = [].
Proof.
  intros H. apply Nat.ltb_ge in H. unfold ahead, offsets, num_pos in *.
  apply skipn_all2. rewrite length_map. exact H.
Qed.

Lemma step_position_kept (p : priv_t) (total : Z) :
  ascending (samples_read p) (ahead p) total ->
  let q := step_position p in
  samples_read q = samples_read p
  /\ ascending (samples_read q) (ahead q) total
  /\ frames_from (ahead q) (copying q) (samples_read q) total
     = frames_from (ahead p) (copying p) (samples_read p) total.
Proof.
  intros H q. subst q. unfold step_position.
  destruct (at_position p) eqn:Hat; [|auto].
  unfold at_position in Hat. apply andb_true_iff in Hat.
  destruct Hat as [Hlt Heq]. apply Z.eqb_eq in Heq.
  rewrite (ahead_cons p Hlt) in *. rewrite <- Heq in *.
  cbn [ascending frames_from] in *. cbn [samples_read copying toggle].
  destruct H as [_ H]. repeat split; [exact H|].
  destruct (copying p); lia.
Qed.

(** One request for the rest of the stream writes the kept frames. *)
Lemma flow_loop_kept (f : nat) (ch : Z) (p : priv_t) (len : Z)
    (ib : list sox_sample_t) (r : flow_out) (total : Z) :
  0 <= ch -> total < 2 ^ 64 -> 0 <= samples_read p ->
  ascending (samples_read p) (ahead p) total ->
  samples_read p + len = total ->
  flow_loop f ch p len ib = Some r ->
  f_osamp r
  = frames_from (ahead p) (copying p) (samples_read p) total * ch.
Proof.
  intros Hch Htot Hsr Hasc Hlen H. revert Hsr Hasc Hlen.
  pattern p, len, ib, r.
  apply (flow_loop_result_ind ch) with (4 := H); clear - Hch Htot;
    cbv beta iota delta [f_status f_priv f_isamp f_osamp f_obuf].
  - intros p ib _ Hasc Hlen. rewrite Z.add_0_r in Hlen. rewrite Hlen in *.
    rewrite frames_from_end; [reflexivity|exact Hasc].
  - intros p len ib _ Ex _ Hasc _.
    destruct (step_position_kept p total Hasc) as (_ & _ & S3).
    rewrite <- S3. unfold exhausted in Ex.
    apply andb_true_iff in Ex. destruct Ex as [E1 E2].
    rewrite ahead_nil by (apply Nat.ltb_ge, Nat.leb_le, E1).
    apply negb_true_iff in E2. rewrite E2. reflexivity.
  - intros p len ib r _ q chunk Ex IH Hsr Hasc Hlen.
    destruct (step_position_kept p total Hasc) as (S1 & S2 & S3).
    fold q in S1, S2, S3. rewrite <- S3. rewrite <- S1 in Hsr, Hlen.
    clear S1 S3 Hasc.
    pose proof (ascending_le _ _ _ S2) as Hle.
    change (ahead (with_samples_read q _)) with (ahead q) in IH.
    cbn [samples_read copying with_samples_read] in IH.
    unfold chunk_of in chunk.
    destruct (current_pos q <? num_pos q)%nat eqn:Hlt.
    + rewrite (ahead_cons q Hlt) in *.
      set (m := pos_sample q (current_pos q)) in *.
      cbn [ascending] in S2. destruct S2 as [A1 A2].
      pose proof (ascending_le _ _ _ A2) as Hm.
      assert (chunk = Z.min len (m - samples_read q)) as Hc
        by (unfold chunk; rewrite sub64_exact by (unfold is_uint64; lia);
            reflexivity).
      clearbody chunk. subst chunk.
      set (c := Z.min len (m - samples_read q)) in *.
      assert (add64 (samples_read q) c = samples_read q + c) as Eadd
        by (apply wrap64_small; unfold is_uint64; lia).
      rewrite Eadd in IH. rewrite IH.
      * cbn [frames_from]. destruct (copying q); ring.
      * lia.
      * cbn [ascending]. split; [lia|exact A2].
      * lia.
    + rewrite (ahead_nil q Hlt) in *. unfold exhausted in Ex.
      apply Nat.ltb_ge, Nat.leb_le in Hlt. rewrite Hlt in Ex.
      cbn [andb] in Ex. apply negb_false_iff in Ex. rewrite Ex in *.
      subst chunk.
      assert (add64 (samples_read q) len = total) as Eadd
        by (rewrite <- Hlen; apply wrap64_small; unfold is_uint64; lia).
      rewrite Eadd in IH. rewrite IH.
      * cbn [frames_from]. lia.
      * lia.
      * cbn [ascending]. lia.
      * lia.
Qed.

(** ** An even number of markers: nothing is read past the last one *)

Lemma step_position_on_track (p : priv_t) (bound : Z) :
  on_track p bound -> on_track (step_position p) bound.
Proof.
  intros (H1 & H2 & H3 & H4).
  destruct (step_position_kept p bound H4) as (S1 & S2 & _).
  repeat split.
  - apply step_position_parity, H1.
  - unfold step_position. destruct (at_position p) eqn:Hat; [|exact H2].
    unfold at_position in Hat. apply andb_true_iff in Hat.
    destruct Hat as [Hlt _]. apply Nat.ltb_lt in Hlt.
    unfold num_pos in *. cbn [pos current_pos toggle]. lia.
  - rewrite S1. exact H3.
  - exact S2.
Qed.

Lemma flow_loop_on_track (f : nat) (ch : Z) (p : priv_t) (len : Z)
    (ib : list sox_sample_t) (r : flow_out) (bound : Z) :
  0 <= ch -> 0 <= len -> bound < 2 ^ 64 ->
  Nat.even (num_pos p) = true ->
  on_track p bound ->
  flow_loop f ch p len ib = Some r ->
  on_track (f_priv r) bound
  /\ samples_read (f_priv r) * ch = samples_read p * ch + f_isamp r.
Proof.
  intros Hch Hlen Hb Hev Ht H. revert Hlen Hev Ht. pattern p, len, ib, r.
  apply (flow_loop_result_ind ch) with (4 := H); clear - Hch Hb;
    cbv beta iota delta [f_status f_priv f_isamp f_osamp f_obuf].
  - intros p ib _ _ Ht. split; [exact Ht|lia].
  - intros p len ib _ _ _ _ Ht. split.
    + apply step_position_on_track, Ht.
    + unfold step_position. destruct (at_position p); cbn; lia.
  - intros p len ib r _ q chunk Ex IH Hlen Hev Ht.
    assert (samples_read q = samples_read p) as Hsr
      by (unfold q, step_position; destruct (at_position p); reflexivity).
    assert (num_pos q = num_pos p) as Hnp
      by (unfold num_pos, q; rewrite step_position_pos; reflexivity).
    apply step_position_on_track in Ht. fold q in Ht.
    rewrite <- Hsr, <- Hnp in *. clear Hsr Hnp.
    destruct Ht as (T1 & T2 & T3 & T4).
    pose proof (chunk_of_bounds q len Hlen) as Hc. fold chunk in Hc.
    unfold chunk_of in chunk.
    destruct (current_pos q <? num_pos q)%nat eqn:Hlt.
    + rewrite (ahead_cons q Hlt) in T4.
      set (m := pos_sample q (current_pos q)) in *.
      cbn [ascending] in T4. destruct T4 as [A1 A2].
      pose proof (ascending_le _ _ _ A2) as Hm.
      assert (chunk = Z.min len (m - samples_read q)) as Hck
        by (unfold chunk; rewrite sub64_exact by (unfold is_uint64; lia);
            reflexivity).
      clearbody chunk. subst chunk.
      set (c := Z.min len (m - samples_read q)) in *.
      assert (add64 (samples_read q) c = samples_read q + c) as Eadd
        by (apply wrap64_small; unfold is_uint64; lia).
      rewrite Eadd in IH. destruct IH as [E1 E2].
      * lia.
      * exact Hev.
      * repeat split; try assumption.
        -- cbn [samples_read with_samples_read]. lia.
        -- change (ahead (with_samples_read q _)) with (ahead q).
           rewrite (ahead_cons q Hlt). fold m.
           cbn [ascending samples_read with_samples_read].
           split; [lia|exact A2].
      * split; [exact E1|].
        cbn [samples_read with_samples_read] in E2. lia.
    + exfalso. unfold exhausted in Ex. apply Nat.ltb_ge in Hlt.
      assert (current_pos q = num_pos q) as Heq by lia.
      rewrite T1, Heq in Ex. rewrite Nat.leb_refl in Ex.
      rewrite <- Nat.negb_even, Hev in Ex. discriminate.
Qed.

Lemma run_stream_on_track (sched : list (Z * Z)) :
  forall effp ib t bound,
    0 < channels (in_signal effp) -> sched_ok sched -> bound < 2 ^ 64 ->
    Nat.even (num_pos (priv effp)) = true ->
    on_track (priv effp) bound ->
    run_stream effp sched ib = Some t ->
    exists k,
      0 <= k
      /\ samples_read (priv (r_effp t)) * channels (in_signal effp)
         = samples_read (priv effp) * channels (in_signal effp) + k
      /\ on_track (priv (r_effp t)) bound
      /\ subseq (r_obuf t) (firstn (Z.to_nat k) ib).
Proof.
  induction sched as [|[n cap] sched IH]; intros effp ib t bound Hch Hs Hb Hev Ht H.
  - cbn in H. inversion H; subst; cbn. exists 0. repeat split; try apply Ht; try lia.
    cbn. constructor.
  - cbn [run_stream] in H. inversion Hs as [|c l [Hn Hcap] Hs']; subst.
    cbn [fst snd] in *.
    destruct (flow effp ib _ cap) as [r1|] eqn:E1; [|discriminate].
    unfold flow in E1.
    set (ch := channels (in_signal effp)) in *.
    set (a := Z.min (Z.min n (Z.of_nat (List.length ib))) cap / ch) in *.
    assert (0 <= a) as Ha by (apply flow_len_nonneg; lia).
    assert (0 <= ch) as Hch0 by lia.
    destruct (flow_loop_on_track _ _ _ _ _ _ bound Hch0 Ha Hb Hev Ht E1)
      as [T1 K1].
    pose proof (flow_loop_facts _ _ _ _ _ _ Hch0 Ha E1) as (P1 & _ & F3 & _).
    pose proof (flow_loop_subseq _ _ _ _ _ _ Hch0 Ha E1) as S1.
    destruct (f_status r1) eqn:Est.
    + destruct (run_stream _ sched _) as [t'|] eqn:E2; [|discriminate].
      inversion H; subst t; cbn [r_effp r_obuf]. clear H.
      assert (Nat.even (num_pos (priv (with_priv effp (f_priv r1)))) = true)
        as Hev1.
      { unfold num_pos in *. cbn [priv with_priv]. rewrite P1. exact Hev. }
      destruct (IH (with_priv effp (f_priv r1)) _ _ bound Hch Hs' Hb Hev1 T1 E2)
        as (k & G0 & G1 & G2 & G3).
      cbn [in_signal priv with_priv] in G1. fold ch in G1.
      exists (f_isamp r1 + k). split; [lia|]. split; [fold ch; lia|].
      split; [exact G2|].
      rewrite Z2Nat.inj_add by lia. rewrite firstn_add.
      apply subseq_app; assumption.
    + inversion H; subst t; cbn [r_effp r_obuf priv with_priv]. clear H.
      exists (f_isamp r1). split; [lia|]. split; [fold ch; lia|].
      split; assumption.
    + inversion H; subst t; cbn [r_effp r_obuf priv with_priv]. clear H.
      exists (f_isamp r1). split; [lia|]. split; [fold ch; lia|].
      split; assumption.
Qed.

(** ** Skipping the leading frames *)

Lemma first_offset (p : priv_t) : hd 0 (offsets p) = pos_sample p 0.
Proof. unfold offsets, pos_sample. destruct (pos p); reflexivity. Qed.

(** Pushing the frames before the first position through [flow] drops
    them all and only moves [samples_read]. *)
Lemma flow_leading_frames (effp : sox_effect_t) (ib : list sox_sample_t) :
  effect_ok effp ->
  current_pos (priv effp) = 0%nat ->
  samples_read (priv effp) = 0 ->
  copying (priv effp) = false ->
  let first := hd 0 (offsets (priv effp)) in
  let n := first * channels (in_signal effp) in
  flow effp ib n n =
    Some (mk_out SOX_SUCCESS (with_samples_read (priv effp) first) n 0 []).
Proof.
  intros [Hok Hch] Hcur Hsr Hcp first n. subst n. unfold flow.
  rewrite Z.min_id, Z.div_mul by lia.
  pose proof (pos_sample_range (priv effp) 0 Hok) as Hr.
  subst first. rewrite first_offset in *.
  set (first := pos_sample (priv effp) 0) in *.
  destruct (Z.eq_dec first 0) as [Hz|Hz].
  - rewrite Hz, flow_loop_zero. cbn. do 2 f_equal.
    destruct (priv effp); cbn in *. subst. reflexivity.
  - unfold flow_fuel. rewrite flow_loop_step by exact Hz. cbv zeta.
    assert (at_position (priv effp) = false) as Hat.
    { unfold at_position. rewrite Hcur, Hsr. fold first.
      apply andb_false_iff. right. apply Z.eqb_neq. lia. }
    assert ((current_pos (priv effp) <? num_pos (priv effp))%nat = true) as Hlt.
    { rewrite Hcur. apply Nat.ltb_lt. unfold num_pos.
      destruct (pos (priv effp)) eqn:E; [|cbn; lia].
      exfalso. apply Hz. unfold first, pos_sample. rewrite E. reflexivity. }
    unfold step_position. rewrite Hat.
    unfold exhausted. apply Nat.ltb_lt in Hlt.
    destruct (num_pos (priv effp) <=? current_pos (priv effp))%nat eqn:Ele;
      [apply Nat.leb_le in Ele; lia|].
    cbn [andb]. unfold chunk_of. apply Nat.ltb_lt in Hlt. rewrite Hlt.
    rewrite Hcur, Hsr, Hcp. fold first.
    rewrite sub64_exact by (unfold is_uint64 in *; lia).
    rewrite Z.sub_0_r, Z.min_id, Z.sub_diag, flow_loop_zero.
    unfold add64. rewrite Z.add_0_l, wrap64_small by exact Hr.
    cbn. do 2 f_equal. lia.
Qed.

(** ** The loops of [start] *)

Lemma in_length_range (si : sox_signalinfo_t) :
  signal_ok si -> is_uint64 (in_length_of si).
Proof.
  intros [Hl Hc]. unfold in_length_of, is_uint64 in *.
  destruct (length si =? SOX_UNKNOWN_LEN).
  - unfold SOX_UNKNOWN_LEN. rewrite two64. lia.
  - pose proof (Z.mul_div_le (length si) (channels si) Hc).
    pose proof (Z.div_pos (length si) (channels si) ltac:(lia) Hc). nia.
Qed.

Lemma in_length_known (si : sox_signalinfo_t) :
  signal_ok si -> length si <> SOX_UNKNOWN_LEN ->
  in_length_of si = length si / channels si
  /\ in_length_of si <> SOX_UNKNOWN_LEN
  /\ in_length_of si * channels si <= length si.
Proof.
  intros [Hl Hc] Hk. unfold in_length_of, is_uint64 in *.
  apply Z.eqb_neq in Hk. rewrite Hk. apply Z.eqb_neq in Hk.
  pose proof (Z.mul_div_le (length si) (channels si) Hc).
  pose proof (Z.div_pos (length si) (channels si) ltac:(lia) Hc).
  unfold SOX_UNKNOWN_LEN in *. rewrite two64 in *.
  repeat split; nia.
Qed.

(** The second loop passes exactly the non-decreasing sequences. *)
Lemma sanity_loop_sorted (ps : list pos_t) :
  forall i a,
    sanity_loop i a ps = None ->
    forall j, (j < List.length ps)%nat ->
      match j with
      | O => a
      | S j' => sample (nth j' ps pos_zero)
      end <= sample (nth j ps pos_zero).
Proof.
  induction ps as [|q rest IH]; intros i a H j Hj; cbn in H, Hj; [lia|].
  destruct (sample q <? a) eqn:E; [discriminate|]. apply Z.ltb_ge in E.
  destruct j as [|j]; [exact E|].
  specialize (IH _ _ H j ltac:(lia)). cbn [nth]. destruct j; exact IH.
Qed.

Lemma sanity_loop_ascending (ps : list pos_t) :
  forall i a total,
    sanity_loop i a ps = None ->
    last (map sample ps) a <= total ->
    ascending a (map sample ps) total.
Proof.
  induction ps as [|q rest IH]; intros i a total H Hl; cbn in *; [exact Hl|].
  destruct (sample q <? a) eqn:E; [discriminate|]. apply Z.ltb_ge in E.
  split; [exact E|]. eapply IH; [exact H|].
  destruct (map sample rest) as [|m ms] eqn:Em; [exact Hl|].
  rewrite last_cons. rewrite last_cons in Hl. exact Hl.
Qed.

Lemma sanity_loop_descent (ps : list pos_t) :
  forall i a j,
    (j < List.length ps)%nat ->
    (forall k, (k < j)%nat ->
       match k with
       | O => a
       | S k' => sample (nth k' ps pos_zero)
       end <= sample (nth k ps pos_zero)) ->
    sample (nth j ps pos_zero)
      < match j with
        | O => a
        | S j' => sample (nth j' ps pos_zero)
        end ->
    sanity_loop i a ps = Some (msg_behind (i + j)).
Proof.
  induction ps as [|q rest IH]; intros i a j Hj Hbefore Hdesc; cbn in Hj; [lia|].
  cbn [sanity_loop]. destruct j as [|j].
  - cbn in Hdesc. apply Z.ltb_lt in Hdesc. rewrite Hdesc.
    rewrite Nat.add_0_r. reflexivity.
  - pose proof (Hbefore 0%nat ltac:(lia)) as H0. cbn in H0.
    apply Z.ltb_ge in H0. rewrite H0.
    replace (i + S j)%nat with (S i + j)%nat by lia.
    apply IH.
    + lia.
    + intros k Hk. specialize (Hbefore (S k) ltac:(lia)). cbn [nth] in Hbefore.
      destruct k; exact Hbefore.
    + cbn [nth] in Hdesc. destruct j; exact Hdesc.
Qed.

(** The loop of the output length computes the specification's sum,
    without wrap-around. *)
Lemma length_loop_kept (n : nat) :
  forall ps, (List.length ps <= n)%nat ->
  forall acc a total,
    ascending a (map sample ps) total ->
    0 <= a -> 0 <= acc -> total < 2 ^ 64 -> acc + (total - a) < 2 ^ 64 ->
    (if Nat.odd (List.length ps)
     then add64 (length_loop acc ps)
            (sub64 total (sample (nth (List.length ps - 1) ps pos_zero)))
     else length_loop acc ps) = acc + kept_frames (map sample ps) total
    /\ 0 <= kept_frames (map sample ps) total <= total - a.
Proof.
  induction n as [|n IH]; intros ps Hn acc a total Hasc Ha Hacc Htot Hsum.
  - destruct ps; [|cbn in Hn; lia]. cbn in *. lia.
  - destruct ps as [|q0 [|q1 r]].
    + cbn in *. lia.
    + cbn in Hasc |- *. destruct Hasc as [H0 H1].
      unfold add64. rewrite sub64_exact by (unfold is_uint64; lia).
      rewrite wrap64_small by (unfold is_uint64; lia). lia.
    + cbn [map ascending] in Hasc. destruct Hasc as (H0 & H1 & H2).
      pose proof (ascending_le _ _ _ H2) as Hle.
      cbn [length_loop map kept_frames List.length].
      assert (add64 acc (sub64 (sample q1) (sample q0))
              = acc + (sample q1 - sample q0)) as Eacc.
      { unfold add64. rewrite sub64_exact by (unfold is_uint64; lia).
        apply wrap64_small. unfold is_uint64. lia. }
      rewrite Eacc.
      destruct (IH r ltac:(cbn in Hn; lia) (acc + (sample q1 - sample q0))
                  (sample q1) total H2 ltac:(lia) ltac:(lia) Htot ltac:(lia))
        as [I1 I2].
      split; [|lia].
      change (Nat.odd (S (S (List.length r)))) with (Nat.odd (List.length r)).
      destruct r as [|q2 r']; [cbn in *; lia|].
      replace (nth (S (S (List.length (q2 :: r'))) - 1) (q0 :: q1 :: q2 :: r')
                 pos_zero)
        with (nth (List.length (q2 :: r') - 1) (q2 :: r') pos_zero).
      * rewrite I1. lia.
      * cbn [List.length]. replace (S (S (S (List.length r'))) - 1)%nat
          with (S (S (List.length r'))) by lia.
        replace (S (List.length r') - 1)%nat with (List.length r') by lia.
        reflexivity.
Qed.

(** ** Configuration *)

Section ConfigurationProperties.

Variable lsx_parsesamples : sox_rate_t -> string -> option (Z * string).
Hypothesis parser_ok : parser_in_range lsx_parsesamples.

(** After [parse], [uses_end] tells whether a marker is relative to the
    end. *)
Lemma parse_loop_uses_end (args : list string) :
  forall ue ps ue',
    parse_loop lsx_parsesamples args ue = (SOX_SUCCESS, ps, ue') ->
    ue' = ue || existsb from_end ps.
Proof.
  induction args as [|arg rest IH]; intros ue ps ue' H; cbn in H.
  - inversion H; subst. cbn. rewrite orb_false_r. reflexivity.
  - destruct (split_anchor arg) as [a body].
    destruct (lsx_parsesamples 0%float body) as [[s tl]|]; [|discriminate].
    destruct tl; [|discriminate].
    destruct (parse_loop _ rest _) as [[st ps0] ue0] eqn:E.
    inversion H; subst. apply IH in E. subst ue'.
    cbn [existsb]. unfold from_end at 1. cbn [anchor].
    destruct a, ue; reflexivity.
Qed.

Lemma parse_uses_end (effp effp' : sox_effect_t) (argv : list string) :
  parse lsx_parsesamples effp argv = (SOX_SUCCESS, effp') ->
  uses_end (priv effp') = existsb from_end (pos (priv effp')).
Proof.
  unfold parse. destruct (parse_loop _ _ _) as [[st ps] ue] eqn:E.
  intros H. inversion H; subst. cbn.
  apply parse_loop_uses_end in E. exact E.
Qed.

Lemma resolve_anchor_spec (a : anchor_t) (total last_seen s : Z) :
  is_uint64 total ->
  is_uint64 s ->
  match resolve_anchor a total last_seen s with
  | Some res => resolved_as total last_seen s a res /\ is_uint64 res
  | None => a = a_end /\ total < s
  end.
Proof.
  intros Ht Hs. destruct a; cbn.
  - split; [constructor|exact Hs].
  - split; [constructor|apply wrap64_range].
  - destruct (total <? s) eqn:E.
    + apply Z.ltb_lt in E. auto.
    + apply Z.ltb_ge in E. rewrite sub64_exact by (unfold is_uint64 in *; lia).
      split; [constructor; exact E|]. unfold is_uint64 in *. lia.
Qed.

Lemma resolved_as_anchor (total last_seen s res : Z) (a : anchor_t) :
  is_uint64 total -> is_uint64 s ->
  resolved_as total last_seen s a res ->
  resolve_anchor a total last_seen s = Some res.
Proof.
  intros Ht Hs H. destruct H; cbn; try reflexivity.
  replace (total <? s) with false by (symmetry; apply Z.ltb_ge; assumption).
  rewrite sub64_exact by (unfold is_uint64 in *; lia). reflexivity.
Qed.

Lemma resolve_loop_length (r : sox_rate_t) (total : Z) (ps : list pos_t) :
  forall i last_seen ps' m,
    resolve_loop lsx_parsesamples r total i last_seen ps = (ps', m) ->
    List.length ps' = List.length ps.
Proof.
  induction ps as [|q rest IH]; intros i last_seen ps' m H; cbn in H.
  - inversion H; reflexivity.
  - destruct (lsx_parsesamples r (argstr q)) as [[s tl]|]; [|inversion H; reflexivity].
    destruct (resolve_anchor _ _ _ _) as [res|]; [|inversion H; reflexivity].
    destruct (resolve_loop _ _ _ _ _ rest) as [rest' m'] eqn:E.
    inversion H; subst. cbn. f_equal. eapply IH; eassumption.
Qed.

(** The walk of the first loop, marker by marker. *)
Lemma resolve_loop_walk (r : sox_rate_t) (total : Z) (ps : list pos_t) :
  is_uint64 total ->
  forall i last_seen ps',
    resolve_loop lsx_parsesamples r total i last_seen ps = (ps', None) ->
    forall j, (j < List.length ps)%nat ->
      let q := nth j ps pos_zero in
      let q' := nth j ps' pos_zero in
      argstr q' = argstr q /\ anchor q' = anchor q /\ is_uint64 (sample q')
      /\ exists s tl,
           lsx_parsesamples r (argstr q) = Some (s, tl)
           /\ resolved_as total
                (match j with
                 | O => last_seen
                 | S j' => sample (nth j' ps' pos_zero)
                 end) s (anchor q) (sample q').
Proof.
  intros Ht. induction ps as [|q rest IH]; intros i last_seen ps' H j Hj;
    cbn in H, Hj; [lia|].
  destruct (lsx_parsesamples r (argstr q)) as [[s tl]|] eqn:Ep; [|inversion H].
  pose proof (resolve_anchor_spec (anchor q) total last_seen s Ht
                (parser_ok _ _ _ _ Ep)) as Hres.
  destruct (resolve_anchor _ _ _ _) as [res|]; [|inversion H].
  destruct Hres as [Hres Hrange].
  destruct (resolve_loop _ _ _ _ _ rest) as [rest' m'] eqn:E.
  inversion H; subst. destruct j as [|j]; cbn.
  - repeat split; try apply Hrange. exists s, tl. split; [exact Ep|exact Hres].
  - specialize (IH _ _ _ E j ltac:(lia)). cbv zeta in IH.
    destruct IH as (I1 & I2 & I3 & s' & tl' & I4 & I5).
    repeat split; try assumption; try apply I3. exists s', tl'. split; [exact I4|].
    destruct j; exact I5.
Qed.

(** The failures of the first loop. *)
Lemma resolve_loop_failure (r : sox_rate_t) (total : Z) (ps : list pos_t) :
  is_uint64 total ->
  forall i last_seen ps' e,
    resolve_loop lsx_parsesamples r total i last_seen ps = (ps', Some e) ->
    exists j, (j < List.length ps)%nat
      /\ ((e = msg_usage
           /\ lsx_parsesamples r (argstr (nth j ps pos_zero)) = None)
          \/ (e = msg_before_start (i + j + 1)
              /\ anchor (nth j ps pos_zero) = a_end
              /\ exists s tl,
                   lsx_parsesamples r (argstr (nth j ps pos_zero)) = Some (s, tl)
                   /\ total < s)).
Proof.
  intros Ht. induction ps as [|q rest IH]; intros i last_seen ps' e H;
    cbn in H; [inversion H|].
  destruct (lsx_parsesamples r (argstr q)) as [[s tl]|] eqn:Ep.
  - pose proof (resolve_anchor_spec (anchor q) total last_seen s Ht
                  (parser_ok _ _ _ _ Ep)) as Hres.
    destruct (resolve_anchor _ _ _ _) as [res|].
    + destruct (resolve_loop _ _ _ _ _ rest) as [rest' m'] eqn:E.
      inversion H; subst.
      destruct (IH _ _ _ _ E) as (j & Hj & Hcase).
      exists (S j). split; [cbn; lia|]. cbn [nth].
      replace (i + S j + 1)%nat with (S i + j + 1)%nat by lia. exact Hcase.
    + inversion H; subst. exists 0%nat. split; [cbn; lia|]. right. cbn [nth].
      destruct Hres as [Ha Hlt].
      replace (i + 0 + 1)%nat with (S i) by lia. eauto 6.
  - inversion H; subst. exists 0%nat. split; [cbn; lia|]. left. auto.
Qed.

(** [start] once the first loop is through. *)
Lemma start_resolved (effp : sox_effect_t) (ps : list pos_t) :
  (in_length_of (in_signal effp) =? SOX_UNKNOWN_LEN)
    && uses_end (priv effp) = false ->
  resolve_loop lsx_parsesamples (rate (in_signal effp))
    (in_length_of (in_signal effp)) 0 0 (pos (priv effp)) = (ps, None) ->
  let total := in_length_of (in_signal effp) in
  let p := with_pos (with_copying (priv effp) false) ps in
  let effp1 := with_priv effp p in
  start lsx_parsesamples effp =
    match sanity_loop 0 0 ps with
    | Some m => (SOX_EOF, effp1, Some m)
    | None =>
        if negb (num_pos p =? 0)%nat
           && negb (total =? SOX_UNKNOWN_LEN)
           && (total <? pos_sample p 0) then
          (SOX_EOF, effp1, Some msg_start_after_end)
        else if negb (num_pos p =? 0)%nat
           && negb (total =? SOX_UNKNOWN_LEN)
           && (total <? pos_sample p (num_pos p - 1)) then
          (SOX_EOF, effp1, Some msg_end_after_end)
        else if (num_pos p =? 1)%nat && (pos_sample p 0 =? 0) then
          (SOX_EFF_NULL, effp1, None)
        else if Nat.odd (num_pos p) && (total =? SOX_UNKNOWN_LEN) then
          (SOX_SUCCESS, with_out_length effp1 SOX_UNKNOWN_LEN, None)
        else
          (SOX_SUCCESS,
           with_out_length effp1
             (mul64
                (if Nat.odd (num_pos p)
                 then add64 (length_loop 0 ps)
                        (sub64 total (pos_sample p (num_pos p - 1)))
                 else length_loop 0 ps)
                (channels (in_signal effp))), None)
    end.
Proof.
  intros Hg Hr. unfold start. cbn [uses_end with_copying pos].
  rewrite Hg, Hr. reflexivity.
Qed.

(** What holds when [start] does not fail. *)
Lemma start_passed (effp effp' : sox_effect_t) (st : sox_status)
    (m : option message) :
  signal_ok (in_signal effp) ->
  start lsx_parsesamples effp = (st, effp', m) ->
  st <> SOX_EOF ->
  let total := in_length_of (in_signal effp) in
  exists ps,
    resolve_loop lsx_parsesamples (rate (in_signal effp)) total 0 0
      (pos (priv effp)) = (ps, None)
    /\ (total =? SOX_UNKNOWN_LEN) && uses_end (priv effp) = false
    /\ sanity_loop 0 0 ps = None
    /\ (total <> SOX_UNKNOWN_LEN -> last (map sample ps) 0 <= total)
    /\ priv effp' = with_pos (with_copying (priv effp) false) ps
    /\ in_signal effp' = in_signal effp
    /\ m = None
    /\ (st = SOX_SUCCESS -> total <> SOX_UNKNOWN_LEN ->
        out_signal_length effp' =
          mul64
            (if Nat.odd (List.length ps)
             then add64 (length_loop 0 ps)
                    (sub64 total
                       (sample (nth (List.length ps - 1) ps pos_zero)))
             else length_loop 0 ps)
            (channels (in_signal effp))).
Proof.
  intros Hsig H Hst total.
  pose proof (in_length_range _ Hsig) as Htot. fold total in Htot.
  destruct ((total =? SOX_UNKNOWN_LEN) && uses_end (priv effp)) eqn:Hg.
  { unfold start in H. cbn [uses_end with_copying pos] in H. fold total in H.
    rewrite Hg in H. inversion H; subst. congruence. }
  destruct (resolve_loop lsx_parsesamples (rate (in_signal effp)) total 0 0
              (pos (priv effp))) as [ps err] eqn:Hr.
  destruct err as [e|].
  { unfold start in H. cbn [uses_end with_copying pos] in H. fold total in H.
    rewrite Hg, Hr in H. inversion H; subst. congruence. }
  rewrite (start_resolved effp ps Hg Hr) in H. cbv zeta in H. fold total in H.
  exists ps. split; [reflexivity|]. split; [reflexivity|].
  destruct (sanity_loop 0 0 ps); [inversion H; subst; congruence|].
  split; [reflexivity|].
  set (p := with_pos (with_copying (priv effp) false) ps) in *.
  assert (num_pos p = List.length ps) as Hnp by reflexivity.
  assert (forall i, pos_sample p i = sample (nth i ps pos_zero)) as Hps
    by reflexivity.
  destruct (negb (num_pos p =? 0)%nat && negb (total =? SOX_UNKNOWN_LEN)
            && (total <? pos_sample p 0)) eqn:C1;
    [inversion H; subst; congruence|].
  destruct (negb (num_pos p =? 0)%nat && negb (total =? SOX_UNKNOWN_LEN)
            && (total <? pos_sample p (num_pos p - 1))) eqn:C2;
    [inversion H; subst; congruence|].
  assert (total <> SOX_UNKNOWN_LEN -> last (map sample ps) 0 <= total) as Hlast.
  { intros Hk. apply Z.eqb_neq in Hk. rewrite Hk in C2. cbn [negb] in C2.
    rewrite andb_true_r in C2. rewrite Hnp, Hps in C2.
    destruct ps as [|q ps0]; [cbn; apply Htot|].
    cbn [List.length Nat.eqb negb andb] in C2. apply Z.ltb_ge in C2.
    rewrite last_nth, length_map.
    change 0 with (sample pos_zero). rewrite map_nth. exact C2. }
  split; [exact Hlast|].
  destruct ((num_pos p =? 1)%nat && (pos_sample p 0 =? 0)).
  { inversion H; subst. repeat split; auto. discriminate. }
  destruct (Nat.odd (num_pos p) && (total =? SOX_UNKNOWN_LEN)) eqn:C4.
  - inversion H; subst. repeat split; auto. intros _ Hk.
    apply Z.eqb_neq in Hk. rewrite Hk, andb_false_r in C4. discriminate.
  - inversion H; subst. repeat split; auto.
Qed.

(** The state that a successful [start] hands to [flow]. *)
Lemma start_configured (effp effp' : sox_effect_t) (m : option message) :
  signal_ok (in_signal effp) -> fresh effp ->
  start lsx_parsesamples effp = (SOX_SUCCESS, effp', m) ->
  let total := in_length_of (in_signal effp) in
  in_signal effp' = in_signal effp
  /\ effect_ok effp'
  /\ current_pos (priv effp') = 0%nat
  /\ samples_read (priv effp') = 0
  /\ copying (priv effp') = false
  /\ ascending 0 (offsets (priv effp')) total
  /\ (length (in_signal effp) <> SOX_UNKNOWN_LEN ->
      out_signal_length effp'
      = kept_frames (offsets (priv effp')) total * channels (in_signal effp)).
Proof.
  intros Hsig [Hcur Hsr] H total.
  pose proof (in_length_range _ Hsig) as Htot. fold total in Htot.
  destruct (start_passed _ _ _ _ Hsig H ltac:(discriminate))
    as (ps & Hr & Hg & Hsan & Hlast & Hp & Hsi & _ & Hout).
  fold total in Hr, Hg, Hlast, Hout.
  assert (Forall (fun q => is_uint64 (sample q)) ps) as Hrange.
  { apply Forall_forall. intros q Hq.
    destruct (In_nth _ _ pos_zero Hq) as (j & Hj & <-).
    rewrite (resolve_loop_length _ _ _ _ _ _ _ Hr) in Hj.
    apply (resolve_loop_walk _ _ _ Htot _ _ _ Hr j Hj). }
  assert (last (map sample ps) 0 <= total) as Hl.
  { destruct (Z.eq_dec total SOX_UNKNOWN_LEN) as [Hu|Hk]; [|auto].
    rewrite Hu. rewrite last_nth, length_map.
    change 0 with (sample pos_zero). rewrite map_nth.
    destruct (Nat.lt_ge_cases (List.length ps - 1) (List.length ps)) as [Hi|Hi].
    - rewrite Forall_forall in Hrange.
      specialize (Hrange _ (nth_In ps pos_zero Hi)).
      unfold is_uint64, SOX_UNKNOWN_LEN in *. lia.
    - rewrite nth_overflow by exact Hi. change (sample pos_zero) with 0.
      unfold SOX_UNKNOWN_LEN. rewrite two64. lia. }
  pose proof (sanity_loop_ascending _ _ _ _ Hsan Hl) as Hasc.
  rewrite Hp. cbn [current_pos samples_read copying with_pos with_copying].
  unfold offsets. cbn [pos with_pos].
  split; [exact Hsi|]. split.
  { split; [|rewrite Hsi; apply Hsig]. rewrite Hp. split; cbn.
    - rewrite Hsr. unfold is_uint64. rewrite two64. lia.
    - exact Hrange. }
  repeat split; try assumption.
  intros Hk. destruct (in_length_known _ Hsig Hk) as (_ & Hk' & Hmul).
  fold total in Hk', Hmul. rewrite (Hout eq_refl Hk').
  destruct (length_loop_kept (List.length ps) ps (Nat.le_refl _) 0 0 total Hasc)
    as [L1 L2]; try (unfold is_uint64 in *; lia).
  rewrite L1. rewrite Z.add_0_l. apply wrap64_small.
  destruct Hsig as [Hlen Hch]. unfold is_uint64 in *. nia.
Qed.

End ConfigurationProperties.

(** ** The stand-in parser *)

Lemma demo_digits_range (s : string) :
  forall acc, is_uint64 acc -> is_uint64 (fst (demo_digits acc s)).
Proof.
  induction s as [|c s IH]; intros acc H; cbn; [exact H|].
  destruct (digit_of c); [|exact H]. apply IH, wrap64_range.
Qed.

Lemma demo_parser_in_range : parser_in_range demo_parsesamples.
Proof.
  intros r str s rest H. unfold demo_parsesamples in H.
  destruct str as [|c str]; [discriminate|].
  destruct (digit_of c); [|discriminate].
  assert (demo_digits 0 (String c str) = (s, rest)) as E by congruence.
  change s with (fst (s, rest)). rewrite <- E.
  apply demo_digits_range. unfold is_uint64. rewrite two64. lia.
Qed.

(** * The claims *)

Section Claims.

Variable lsx_parsesamples : sox_rate_t -> string -> option (Z * string).
Hypothesis parser_ok : parser_in_range lsx_parsesamples.

(** C1. After a successful [start] on a stream of known length, the
    declared output length is the specification's frame sum (the spans
    between the markers of each pair, plus the span from the last marker
    to the end when the count is odd) times the channel count, and every
    run of [flow] over the whole stream, whatever the buffer sizes, emits
    exactly that many samples, that is, as many frames as the sum. *)
Theorem declared_length_is_emitted
    (effp0 effp1 : sox_effect_t) (m : option message)
    (sched : list (Z * Z)) (ib : list sox_sample_t) :
  signal_ok (in_signal effp0) ->
  fresh effp0 ->
  length (in_signal effp0) <> SOX_UNKNOWN_LEN ->
  start lsx_parsesamples effp0 = (SOX_SUCCESS, effp1, m) ->
  Z.of_nat (List.length ib) = length (in_signal effp0) ->
  sched_ok sched ->
  let frames :=
    kept_frames (offsets (priv effp1)) (in_length_of (in_signal effp0)) in
  out_signal_length effp1 = frames * channels (in_signal effp0)
  /\ exists t,
       run_stream effp1 sched ib = Some t
       /\ (stream_done t ->
           Z.of_nat (List.length (r_obuf t))
           = frames * channels (in_signal effp0)).
Proof.
  intros Hsig Hfresh Hk Hstart Hib Hs frames.
  destruct (start_configured lsx_parsesamples parser_ok _ _ _ Hsig Hfresh Hstart)
    as (Hsi & Hok & Hcur & Hsr & Hcp & Hasc & Hout).
  split; [exact (Hout Hk)|].
  destruct (run_stream_total sched effp1 ib Hok Hs) as [t Ht].
  exists t. split; [exact Ht|]. intros Hdone.
  destruct (run_stream_as_loop sched effp1 ib t Hok Hs Ht Hdone)
    as (f & r & G1 & _ & _ & G4 & _).
  rewrite Hsi in G1. rewrite <- G4.
  destruct (in_length_known _ Hsig Hk) as (Hlen & _ & Hmul).
  pose proof (in_length_range _ Hsig) as Htot.
  rewrite Hib, <- Hlen in G1.
  destruct Hsig as [_ Hch].
  assert (0 <= channels (in_signal effp0)) as Hch0 by lia.
  assert (ahead (priv effp1) = offsets (priv effp1)) as Hahead
    by (unfold ahead; rewrite Hcur; reflexivity).
  assert (in_length_of (in_signal effp0) * channels (in_signal effp0)
          <= Z.of_nat (List.length ib)) as Hroom by (rewrite Hib; exact Hmul).
  rewrite (flow_loop_obuf_length _ _ _ _ _ _ Hch0 (proj1 Htot) Hroom G1).
  assert (0 <= samples_read (priv effp1)) as Hsr0 by (rewrite Hsr; lia).
  assert (ascending (samples_read (priv effp1)) (ahead (priv effp1))
            (in_length_of (in_signal effp0))) as Hasc'
    by (rewrite Hsr, Hahead; exact Hasc).
  assert (samples_read (priv effp1) + in_length_of (in_signal effp0)
          = in_length_of (in_signal effp0)) as Hend by (rewrite Hsr; lia).
  rewrite (flow_loop_kept _ _ _ _ _ _ _ Hch0 (proj2 Htot) Hsr0 Hasc' Hend G1).
  rewrite Hahead, Hcp, Hsr.
  rewrite (frames_from_kept _ _ (Nat.le_refl _)). reflexivity.
Qed.

(** C2. The first loop of [start] walks the markers in order from
    [last_seen = 0].  When it goes through, every marker [j] was parsed
    to a value [s] and its offset is [s] for [FromStart], [last_seen + s]
    for [FromPrevious], and [total - s] with [s <= total] for [FromEnd],
    where [last_seen] is the offset of marker [j - 1].  The sum is the
    64-bit sum of the source; it is the plain sum whenever that fits in 64
    bits, and in particular whenever the offsets then pass the order check
    of [start].  When the loop stops with the "before start of audio"
    failure, it names a [FromEnd] marker whose value exceeds the total
    length. *)
Theorem position_resolution_walk
    (r : sox_rate_t) (total : Z) (ps ps' : list pos_t) (e : option message) :
  is_uint64 total ->
  resolve_loop lsx_parsesamples r total 0 0 ps = (ps', e) ->
  match e with
  | None =>
      List.length ps' = List.length ps
      /\ forall j, (j < List.length ps)%nat ->
           let q := nth j ps pos_zero in
           let q' := nth j ps' pos_zero in
           exists s tl,
             lsx_parsesamples r (argstr q) = Some (s, tl)
             /\ resolved_as total (last_seen_at ps' j) s (anchor q) (sample q')
             /\ (anchor q = a_latest ->
                 last_seen_at ps' j + s < 2 ^ 64
                 \/ sanity_loop 0 0 ps' = None ->
                 sample q' = last_seen_at ps' j + s)
  | Some msg =>
      exists j, (j < List.length ps)%nat
        /\ ((msg = msg_usage
             /\ lsx_parsesamples r (argstr (nth j ps pos_zero)) = None)
            \/ (msg = msg_before_start (j + 1)
                /\ anchor (nth j ps pos_zero) = a_end
                /\ exists s tl,
                     lsx_parsesamples r (argstr (nth j ps pos_zero))
                     = Some (s, tl)
                     /\ total < s))
  end.
Proof.
  intros Ht H. destruct e as [msg|].
  - apply (resolve_loop_failure lsx_parsesamples parser_ok _ _ _ Ht _ _ _ _ H).
  - split; [eapply resolve_loop_length; exact H|].
    intros j Hj q q'.
    destruct (resolve_loop_walk lsx_parsesamples parser_ok _ _ _ Ht _ _ _ H j Hj)
      as (_ & _ & _ & s & tl & Hp & Hres).
    exists s, tl. split; [exact Hp|]. split; [destruct j; exact Hres|].
    intros Ha Hfit. fold q q' in Hres.
    assert (is_uint64 (last_seen_at ps' j)) as Hprev.
    { destruct j as [|j]; [cbn; unfold is_uint64; rewrite two64; lia|]. cbn.
      apply (resolve_loop_walk lsx_parsesamples parser_ok _ _ _ Ht _ _ _ H j).
      lia. }
    pose proof (parser_ok _ _ _ _ Hp) as Hs.
    assert (sample q' = add64 (last_seen_at ps' j) s) as Eq'.
    { destruct j; destruct Hres; try discriminate; reflexivity. }
    assert (last_seen_at ps' j + s < 2 ^ 64) as Hsum.
    { destruct Hfit as [Hfit|Hsan]; [exact Hfit|].
      pose proof (resolve_loop_length _ _ _ _ _ _ _ _ H) as Hlen.
      pose proof (sanity_loop_sorted ps' 0 0 Hsan j ltac:(lia)) as Hle.
      change (match j with
              | O => 0
              | S j' => sample (nth j' ps' pos_zero)
              end) with (last_seen_at ps' j) in Hle.
      fold q' in Hle. rewrite Eq' in Hle. unfold add64, wrap64 in Hle.
      unfold is_uint64 in *. rewrite two64 in *.
      pose proof (Z.div_mod (last_seen_at ps' j + s) 18446744073709551616
                    ltac:(lia)).
      pose proof (Z.mod_pos_bound (last_seen_at ps' j + s)
                    18446744073709551616 ltac:(lia)).
      lia. }
    rewrite Eq'. apply wrap64_small. unfold is_uint64 in *. lia.
Qed.

(** C3. From any state, a run that goes through the whole stream in
    buffers of any sizes leaves exactly what one call that is handed the
    whole stream leaves: the same return code, the same state, the same
    unconsumed input and the same output samples. *)
Theorem chunking_is_immaterial
    (effp : sox_effect_t) (sched : list (Z * Z)) (ib : list sox_sample_t)
    (cap : Z) :
  effect_ok effp -> sched_ok sched ->
  Z.of_nat (List.length ib) <= cap ->
  exists whole,
    run_stream effp [(Z.of_nat (List.length ib), cap)] ib = Some whole
    /\ exists t,
         run_stream effp sched ib = Some t
         /\ (stream_done t -> t = whole).
Proof.
  intros Hok Hs Hcap.
  assert (sched_ok [(Z.of_nat (List.length ib), cap)]) as Hs1.
  { constructor; [cbn; lia|constructor]. }
  destruct (run_stream_total _ effp ib Hok Hs1) as [whole Hw].
  destruct (run_stream_total _ effp ib Hok Hs) as [t Ht].
  exists whole. split; [exact Hw|]. exists t. split; [exact Ht|].
  intros Hdone.
  pose proof (run_stream_chunking effp sched ib cap t Hok Hs Hcap Ht Hdone).
  congruence.
Qed.

(** C4, as amended.  A call of [flow] that has at least one whole frame
    to process and finds the cursor past all markers with [copying] false
    returns [SOX_EOF] at once, whatever input is offered; more generally
    such a call never returns [SOX_SUCCESS] leaving that state.  (A call
    without a whole frame does not enter the loop and returns
    [SOX_SUCCESS] in every state.)  And after a successful [start] with
    an even number of markers, the output of any run is drawn, in order,
    from the frames before the last marker: no frame past it is emitted
    (and none at all without markers). *)
Theorem exhausted_signals_end :
  (forall effp ib isamp osamp,
      0 < channels (in_signal effp) ->
      channels (in_signal effp) <= Z.min isamp osamp ->
      exhausted (priv effp) = true ->
      flow effp ib isamp osamp = Some (mk_out SOX_EOF (priv effp) 0 0 []))
  /\ (forall effp ib isamp osamp,
      effect_ok effp ->
      channels (in_signal effp) <= Z.min isamp osamp ->
      exists r,
        flow effp ib isamp osamp = Some r
        /\ (exhausted (f_priv r) = true -> f_status r = SOX_EOF))
  /\ (forall effp0 effp1 m sched ib,
      signal_ok (in_signal effp0) ->
      fresh effp0 ->
      start lsx_parsesamples effp0 = (SOX_SUCCESS, effp1, m) ->
      Nat.even (num_pos (priv effp1)) = true ->
      sched_ok sched ->
      exists t,
        run_stream effp1 sched ib = Some t
        /\ subseq (r_obuf t)
             (firstn (Z.to_nat (last (offsets (priv effp1)) 0
                                * channels (in_signal effp1))) ib)).
Proof.
  split; [|split].
  - intros effp ib isamp osamp Hch Hlen Hex. unfold flow, flow_fuel.
    pose proof (flow_frames_positive _ _ _ Hch Hlen) as Hpos.
    rewrite flow_loop_step by lia. cbv zeta.
    rewrite (exhausted_at_position _ Hex), Hex. reflexivity.
  - intros effp ib isamp osamp Hok Hlen.
    pose proof Hok as [_ Hch].
    destruct (flow_total effp ib isamp osamp Hok ltac:(lia) ltac:(lia))
      as [r Hr].
    exists r. split; [exact Hr|]. intros Hex.
    pose proof (flow_frames_positive _ _ _ Hch Hlen) as Hpos.
    unfold flow in Hr.
    assert (Z.min isamp osamp / channels (in_signal effp) <> 0) as Hn by lia.
    pose proof (flow_loop_success _ _ _ _ _ _ Hn Hr) as Hs.
    assert (0 <= channels (in_signal effp)) as Hch0 by lia.
    assert (0 <= Z.min isamp osamp / channels (in_signal effp)) as Hl0 by lia.
    destruct (flow_loop_facts _ _ _ _ _ _ Hch0 Hl0 Hr) as (_ & _ & _ & _ & _ & [F|F]).
    + rewrite (Hs F) in Hex. discriminate.
    + exact F.
  - intros effp0 effp1 m sched ib Hsig Hfresh Hstart Hev Hs.
    destruct (start_configured lsx_parsesamples parser_ok _ _ _ Hsig Hfresh Hstart)
      as (Hsi & Hok & Hcur & Hsr & Hcp & Hasc & _).
    destruct (run_stream_total sched effp1 ib Hok Hs) as [t Ht].
    exists t. split; [exact Ht|].
    pose proof (in_length_range _ Hsig) as Htot.
    set (bound := last (offsets (priv effp1)) 0).
    assert (on_track (priv effp1) bound) as Htrack.
    { unfold on_track, ahead. rewrite Hcur, Hsr, Hcp. cbn [skipn].
      repeat split; try lia. eapply ascending_last, Hasc. }
    assert (bound < 2 ^ 64) as Hb.
    { pose proof (ascending_last_le _ _ _ Hasc). fold bound in H.
      unfold is_uint64 in Htot. lia. }
    destruct Hok as [_ Hch].
    destruct (run_stream_on_track sched effp1 ib t bound Hch Hs Hb Hev Htrack Ht)
      as (k & K0 & K1 & (_ & _ & _ & K2) & K3).
    apply ascending_le in K2. rewrite Hsr in K1.
    eapply subseq_firstn_le; [|exact K3].
    apply Z2Nat.inj_le; nia.
Qed.

(** C5. [start] leaves [copying] false, and after any sequence of [flow]
    calls on the started effect [copying] is true exactly when the cursor
    [current_pos], the number of markers stepped over, is odd: the flag
    flips once for each marker. *)
Theorem copying_follows_cursor
    (effp0 effp1 : sox_effect_t) (m : option message)
    (calls : list (list sox_sample_t * Z * Z)) :
  signal_ok (in_signal effp0) ->
  fresh effp0 ->
  start lsx_parsesamples effp0 = (SOX_SUCCESS, effp1, m) ->
  calls_ok calls ->
  copying (priv effp1) = false
  /\ exists effp2,
       flow_calls effp1 calls = Some effp2
       /\ (copying (priv effp2) = true
           <-> Nat.odd (current_pos (priv effp2)) = true).
Proof.
  intros Hsig Hfresh Hstart Hcalls.
  destruct (start_configured lsx_parsesamples parser_ok _ _ _ Hsig Hfresh Hstart)
    as (_ & Hok & Hcur & _ & Hcp & _).
  split; [exact Hcp|].
  destruct (flow_calls_parity calls effp1 Hok Hcalls) as (effp2 & H1 & H2).
  - rewrite Hcp, Hcur. reflexivity.
  - exists effp2. split; [exact H1|]. rewrite H2. reflexivity.
Qed.

(** C6. Whenever [start] does not fail, the resolved offsets are
    non-decreasing in marker order.  And when the walk has resolved the
    offsets and [j] is the first index whose offset is smaller than the
    one before, [start] fails with the "behind the following position"
    diagnostic, which names [j]. *)
Theorem markers_out_of_order (effp : sox_effect_t) :
  signal_ok (in_signal effp) ->
  (forall st effp' m,
      start lsx_parsesamples effp = (st, effp', m) ->
      st <> SOX_EOF ->
      forall j, (S j < num_pos (priv effp'))%nat ->
        pos_sample (priv effp') j <= pos_sample (priv effp') (S j))
  /\ (forall ps j,
      (in_length_of (in_signal effp) =? SOX_UNKNOWN_LEN)
        && uses_end (priv effp) = false ->
      resolve_loop lsx_parsesamples (rate (in_signal effp))
        (in_length_of (in_signal effp)) 0 0 (pos (priv effp)) = (ps, None) ->
      (0 < j < List.length ps)%nat ->
      sample (nth j ps pos_zero) < sample (nth (j - 1) ps pos_zero) ->
      (forall k, (0 < k < j)%nat ->
         sample (nth (k - 1) ps pos_zero) <= sample (nth k ps pos_zero)) ->
      exists effp',
        start lsx_parsesamples effp = (SOX_EOF, effp', Some (msg_behind j))
        /\ offsets (priv effp') = map sample ps).
Proof.
  intros Hsig. split.
  - intros st effp' m Hstart Hst j Hj.
    destruct (start_passed lsx_parsesamples _ _ _ _ Hsig Hstart Hst)
      as (ps & _ & _ & Hsan & _ & Hp & _).
    rewrite Hp in *. unfold num_pos, pos_sample in *. cbn [pos with_pos] in *.
    apply (sanity_loop_sorted _ _ _ Hsan (S j) Hj).
  - intros ps j Hg Hr Hj Hdesc Hfirst.
    rewrite (start_resolved lsx_parsesamples effp ps Hg Hr). cbv zeta.
    pose proof (in_length_range _ Hsig) as Htot.
    rewrite (sanity_loop_descent ps 0 0 j).
    + eexists. split; [reflexivity|]. reflexivity.
    + lia.
    + intros k Hk. destruct k as [|k].
      * pose proof (resolve_loop_length _ _ _ _ _ _ _ _ Hr) as Hlen.
        assert (0 < List.length (pos (priv effp)))%nat as H0 by lia.
        destruct (resolve_loop_walk lsx_parsesamples parser_ok _ _ _ Htot
                    _ _ _ Hr 0%nat H0) as (_ & _ & Hrange & _).
        apply Hrange.
      * specialize (Hfirst (S k) ltac:(lia)).
        replace (S k - 1)%nat with k in Hfirst by lia. exact Hfirst.
    + destruct j as [|j]; [lia|].
      replace (S j - 1)%nat with j in Hdesc by lia. exact Hdesc.
Qed.

(** C7. [drain] always returns [SOX_EOF] with no output sample; it warns
    exactly when the cursor has not reached the end of the markers, and
    the warning names the number of markers that were not reached.  The
    return code is the same with and without the warning. *)
Theorem drain_signals_end (effp : sox_effect_t) :
  let p := priv effp in
  fst (fst (drain effp)) = SOX_EOF
  /\ snd (fst (drain effp)) = 0
  /\ ((current_pos p < num_pos p)%nat ->
      snd (drain effp)
      = Some (msg_not_reached (num_pos p - current_pos p)))
  /\ ((num_pos p <= current_pos p)%nat -> snd (drain effp) = None)
  /\ (forall k, snd (drain effp) = Some (msg_not_reached k) ->
      (0 < k)%nat /\ (current_pos p + k = num_pos p)%nat).
Proof.
  intros p. unfold drain. fold p. cbn [fst snd].
  destruct (current_pos p <? num_pos p)%nat eqn:E.
  - apply Nat.ltb_lt in E. repeat split; try reflexivity; try lia.
    + inversion H; lia.
    + inversion H; lia.
  - apply Nat.ltb_ge in E. repeat split; try reflexivity; try lia;
      discriminate.
Qed.

(** C8. [sox_trim_get_start] returns the offset of the first marker times
    the channel count, and 0 without markers; the product is the 64-bit
    product of the source, which is the plain product whenever that fits
    in 64 bits, and always when the length of the stream is known.  [sox_trim_clear_start] sets
    [samples_read] to the offset of the first marker (0 without markers)
    and changes nothing else.  Right after a successful [start], this is
    the state that [flow] reaches by processing that many leading frames,
    all of which it discards. *)
Theorem start_skip
    (effp0 effp : sox_effect_t) (m : option message) (ib : list sox_sample_t) :
  signal_ok (in_signal effp0) ->
  fresh effp0 ->
  start lsx_parsesamples effp0 = (SOX_SUCCESS, effp, m) ->
  let first := hd 0 (offsets (priv effp)) in
  let ch := channels (in_signal effp) in
  sox_trim_get_start effp = mul64 first ch
  /\ (first * ch < 2 ^ 64 \/ length (in_signal effp0) <> SOX_UNKNOWN_LEN ->
      sox_trim_get_start effp = first * ch)
  /\ (num_pos (priv effp) = 0%nat ->
      first = 0 /\ sox_trim_get_start effp = 0)
  /\ sox_trim_clear_start effp
     = with_priv effp (with_samples_read (priv effp) first)
  /\ flow effp ib (first * ch) (first * ch)
     = Some (mk_out SOX_SUCCESS (priv (sox_trim_clear_start effp))
               (first * ch) 0 []).
Proof.
  intros Hsig Hfresh Hstart first ch.
  destruct (start_configured lsx_parsesamples parser_ok _ _ _ Hsig Hfresh Hstart)
    as (Hsi & Hok & Hcur & Hsr & Hcp & Hasc & _).
  pose proof (pos_sample_range (priv effp) 0 (proj1 Hok)) as Hr.
  assert (sox_trim_get_start effp = mul64 first ch) as Hget.
  { unfold sox_trim_get_start, first, ch. rewrite first_offset.
    unfold num_pos, pos_sample.
    destruct (pos (priv effp)); reflexivity. }
  assert (sox_trim_clear_start effp
          = with_priv effp (with_samples_read (priv effp) first)) as Hclear.
  { unfold sox_trim_clear_start, first. rewrite first_offset.
    unfold num_pos, pos_sample.
    destruct (pos (priv effp)); reflexivity. }
  split; [exact Hget|]. split; [|split; [|split; [exact Hclear|]]].
  - intros Hfit. rewrite Hget. apply wrap64_small.
    assert (first * ch < 2 ^ 64) as Hlt.
    { destruct Hfit as [Hfit|Hk]; [exact Hfit|].
      destruct (in_length_known _ Hsig Hk) as (_ & _ & Hmul).
      assert (first <= in_length_of (in_signal effp0)) as Hle.
      { unfold first. destruct (offsets (priv effp)) as [|m0 ms]; cbn in *.
        - exact Hasc.
        - destruct Hasc as [_ Hasc]. apply (ascending_le _ _ _ Hasc). }
      destruct Hsig as [Hlen Hc]. unfold ch. rewrite Hsi.
      unfold is_uint64 in Hlen. nia. }
    unfold first in *. rewrite first_offset in *.
    destruct Hok as [_ Hch]. fold ch in Hch. unfold is_uint64 in *. nia.
  - intros Hn. unfold sox_trim_get_start, first, offsets, num_pos in *.
    destruct (pos (priv effp)); [split; reflexivity|discriminate].
  - rewrite Hclear. cbn [priv with_priv].
    apply (flow_leading_frames effp ib Hok Hcur Hsr Hcp).
Qed.

(** C9. When there is exactly one marker and it resolves to offset zero,
    [start] does not fail: it returns [SOX_EFF_NULL], the request to
    bypass the effect. *)
Theorem single_zero_marker_is_noop
    (effp : sox_effect_t) (q : pos_t) (s : Z) (tl : string) :
  signal_ok (in_signal effp) ->
  pos (priv effp) = [q] ->
  (uses_end (priv effp) = true ->
   length (in_signal effp) <> SOX_UNKNOWN_LEN) ->
  lsx_parsesamples (rate (in_signal effp)) (argstr q) = Some (s, tl) ->
  resolved_as (in_length_of (in_signal effp)) 0 s (anchor q) 0 ->
  exists effp',
    start lsx_parsesamples effp = (SOX_EFF_NULL, effp', None)
    /\ offsets (priv effp') = [0].
Proof.
  intros Hsig Hpos Hue Hp Hres.
  pose proof (in_length_range _ Hsig) as Htot.
  set (total := in_length_of (in_signal effp)) in *.
  assert ((total =? SOX_UNKNOWN_LEN) && uses_end (priv effp) = false) as Hg.
  { destruct (uses_end (priv effp)); [|apply andb_false_r].
    destruct (in_length_known _ Hsig (Hue eq_refl)) as (_ & Hk & _).
    fold total in Hk. apply Z.eqb_neq in Hk. rewrite Hk. reflexivity. }
  assert (resolve_anchor (anchor q) total 0 s = Some 0) as Ha.
  { apply resolved_as_anchor; [exact Htot| |exact Hres].
    apply (parser_ok _ _ _ _ Hp). }
  assert (resolve_loop lsx_parsesamples (rate (in_signal effp)) total 0 0
            (pos (priv effp)) = ([with_sample q 0], None)) as Hr.
  { rewrite Hpos. cbn. rewrite Hp, Ha. reflexivity. }
  rewrite (start_resolved lsx_parsesamples effp _ Hg Hr). cbv zeta.
  fold total. cbn [sanity_loop sample with_sample].
  rewrite Z.ltb_irrefl.
  unfold num_pos, pos_sample. cbn [pos with_pos List.length nth sample with_sample].
  cbn [Nat.eqb negb andb Nat.sub].
  cbn [sample with_sample].
  replace (total <? 0) with false
    by (symmetry; apply Z.ltb_ge; unfold is_uint64 in Htot; lia).
  rewrite !andb_false_r. cbn [Z.eqb andb].
  eexists. split; reflexivity.
Qed.

(** C10. A call of [flow] in which the smaller of the two sample counts
    is below the channel count, so that no whole frame is available,
    returns [SOX_SUCCESS], reports zero samples consumed and produced,
    writes nothing and leaves the state as it is, also when the cursor is
    past all markers and [copying] is false. *)
Theorem empty_call_is_noop
    (effp : sox_effect_t) (ib : list sox_sample_t) (isamp osamp : Z) :
  0 <= isamp -> 0 <= osamp ->
  Z.min isamp osamp < channels (in_signal effp) ->
  flow effp ib isamp osamp = Some (mk_out SOX_SUCCESS (priv effp) 0 0 []).
Proof.
  intros Hi Ho Hlt. unfold flow.
  rewrite Z.div_small by lia. apply flow_loop_zero.
Qed.

End Claims.

(** * The scenarios of the specification, on the stand-in parser *)

Local Open Scope string_scope.

(** Markers [=0 10] on 100 frames in 4 channels: frames 0 to 9 are kept
    (40 samples), and [copying] ends false. *)
Example scenario_keep_head :
  let effp := demo_started 4 400 ["=0"; "10"] in
  out_signal_length effp = 40
  /\ exists t,
       run_stream effp [(256, 256); (256, 256)] (demo_stream 400) = Some t
       /\ r_status t = SOX_EOF
       /\ r_obuf t = demo_stream 40
       /\ copying (priv (r_effp t)) = false
       /\ snd (drain (r_effp t)) = None.
Proof. vm_compute. split; [reflexivity|]. eexists. repeat split. Qed.

(** Marker [-10] on 100 frames: the frames from 90 on are kept. *)
Example scenario_keep_tail :
  let effp := demo_started 1 100 ["-10"] in
  offsets (priv effp) = [90]
  /\ exists t,
       run_stream effp [(64, 64); (64, 64)] (demo_stream 100) = Some t
       /\ r_obuf t = map Z.of_nat (seq 90 10).
Proof. vm_compute. split; [reflexivity|]. eexists. repeat split. Qed.

(** Markers [10 5] on a stream of only 12 frames of unknown length:
    frames 10 and 11 are kept and [drain] reports one marker that was not
    reached. *)
Example scenario_short_audio :
  let effp := demo_started 1 SOX_UNKNOWN_LEN ["10"; "5"] in
  offsets (priv effp) = [10; 15]
  /\ exists t,
       run_stream effp [(64, 64)] (demo_stream 12) = Some t
       /\ r_obuf t = [10; 11]
       /\ drain (r_effp t) = (SOX_EOF, 0, Some (msg_not_reached 1)).
Proof. vm_compute. split; [reflexivity|]. eexists. repeat split. Qed.

(** A marker relative to the end with an unknown length is refused. *)
Example scenario_length_required :
  let '(st, _, m) := start demo_parsesamples
                       (demo_parsed 1 SOX_UNKNOWN_LEN ["-5"]) in
  st = SOX_EOF /\ m = Some msg_length_unknown.
Proof. vm_compute. split; reflexivity. Qed.

(** * Instances of the claims *)

Lemma demo_signal_ok (chans len : Z) (args : list string) :
  is_uint64 len -> 0 < chans ->
  signal_ok (in_signal (demo_parsed chans len args)).
Proof.
  intros Hl Hc. unfold demo_parsed, parse.
  destruct (parse_loop _ _ _) as [[st ps] ue]. split; assumption.
Defined.

Lemma demo_fresh (chans len : Z) (args : list string) :
  fresh (demo_parsed chans len args).
Proof.
  unfold demo_parsed, parse.
  destruct (parse_loop _ _ _) as [[st ps] ue]. split; reflexivity.
Defined.

Lemma uint64_200 : is_uint64 200.
Proof. unfold is_uint64. rewrite two64. lia. Defined.

Lemma sched_64 : sched_ok [(64, 64); (64, 64); (64, 64); (64, 64)].
Proof. repeat constructor; cbn; lia. Defined.

Lemma demo_started_ok : effect_ok (demo_started 2 200 ["=10"; "20"]).
Proof.
  set (effp := demo_started 2 200 ["=10"; "20"]). vm_compute in effp.
  subst effp. unfold effect_ok, priv_ok, is_uint64. rewrite two64.
  cbn [priv in_signal samples_read pos channels].
  split; [split|]; [lia| |lia].
  repeat constructor; cbn [sample]; lia.
Defined.

Lemma declared_length_is_emitted_witness :
  let effp1 := demo_started 2 200 ["10"; "20"; "-30"] in
  offsets (priv effp1) = [10; 30; 70]
  /\ out_signal_length effp1 = 50 * 2
  /\ exists t,
       run_stream effp1 [(64, 64); (64, 64); (64, 64); (64, 64)]
         (demo_stream 200) = Some t
       /\ stream_done t
       /\ Z.of_nat (List.length (r_obuf t)) = 50 * 2.
Proof.
  split; [reflexivity|].
  destruct (declared_length_is_emitted demo_parsesamples demo_parser_in_range
              (demo_parsed 2 200 ["10"; "20"; "-30"])
              (demo_started 2 200 ["10"; "20"; "-30"]) None
              [(64, 64); (64, 64); (64, 64); (64, 64)] (demo_stream 200))
    as (Hout & t & Ht & Hlen).
  - apply demo_signal_ok; [exact uint64_200|lia].
  - apply demo_fresh.
  - vm_compute. discriminate.
  - vm_compute. reflexivity.
  - vm_compute. reflexivity.
  - exact sched_64.
  - split; [exact Hout|]. exists t. split; [exact Ht|].
    assert (stream_done t) as Hdone.
    { vm_compute in Ht. injection Ht as <-. right. cbn. lia. }
    split; [exact Hdone|exact (Hlen Hdone)].
Defined.

Lemma position_resolution_walk_witness :
  let ps := pos (priv (demo_parsed 1 100 ["=10"; "5"; "-20"])) in
  let ps' := pos (priv (demo_started 1 100 ["=10"; "5"; "-20"])) in
  map sample ps' = [10; 15; 80]
  /\ List.length ps' = List.length ps
  /\ forall j, (j < List.length ps)%nat ->
       exists s tl,
         demo_parsesamples 44100%float (argstr (nth j ps pos_zero))
         = Some (s, tl)
         /\ resolved_as 100 (last_seen_at ps' j) s
              (anchor (nth j ps pos_zero)) (sample (nth j ps' pos_zero))
         /\ (anchor (nth j ps pos_zero) = a_latest ->
             last_seen_at ps' j + s < 2 ^ 64
             \/ sanity_loop 0 0 ps' = None ->
             sample (nth j ps' pos_zero) = last_seen_at ps' j + s).
Proof.
  split; [reflexivity|].
  apply (position_resolution_walk demo_parsesamples demo_parser_in_range
           44100%float 100
           (pos (priv (demo_parsed 1 100 ["=10"; "5"; "-20"])))
           (pos (priv (demo_started 1 100 ["=10"; "5"; "-20"]))) None).
  - unfold is_uint64. rewrite two64. lia.
  - vm_compute. reflexivity.
Defined.

Lemma chunking_is_immaterial_witness :
  exists t,
    run_stream (demo_started 2 200 ["=10"; "20"])
      [(64, 64); (64, 64); (64, 64); (64, 64)] (demo_stream 200) = Some t
    /\ stream_done t
    /\ run_stream (demo_started 2 200 ["=10"; "20"])
         [(Z.of_nat (List.length (demo_stream 200)), 256)] (demo_stream 200)
       = Some t.
Proof.
  destruct (chunking_is_immaterial (demo_started 2 200 ["=10"; "20"])
              [(64, 64); (64, 64); (64, 64); (64, 64)] (demo_stream 200) 256)
    as (whole & Hw & t & Ht & Heq).
  - exact demo_started_ok.
  - exact sched_64.
  - vm_compute. discriminate.
  - exists t. split; [exact Ht|].
    assert (stream_done t) as Hdone.
    { vm_compute in Ht. injection Ht as <-. left. reflexivity. }
    split; [exact Hdone|]. rewrite (Heq Hdone). exact Hw.
Defined.

Lemma exhausted_signals_end_witness :
  flow (demo_started 2 200 []) (demo_stream 8) 8 8
  = Some (mk_out SOX_EOF (priv (demo_started 2 200 [])) 0 0 [])
  /\ (exists r,
        flow (demo_started 2 200 ["=10"; "20"]) (demo_stream 200) 200 200
        = Some r
        /\ (exhausted (f_priv r) = true -> f_status r = SOX_EOF))
  /\ (exists t,
        run_stream (demo_started 2 200 ["=10"; "20"])
          [(64, 64); (64, 64); (64, 64); (64, 64)] (demo_stream 200) = Some t
        /\ subseq (r_obuf t)
             (firstn (Z.to_nat (last (offsets (priv
                (demo_started 2 200 ["=10"; "20"]))) 0
                * channels (in_signal (demo_started 2 200 ["=10"; "20"]))))
                (demo_stream 200))).
Proof.
  destruct (exhausted_signals_end demo_parsesamples demo_parser_in_range)
    as (H1 & H2 & H3).
  split; [|split].
  - apply H1; [cbn; lia|cbn; lia|reflexivity].
  - apply H2; [exact demo_started_ok|cbn; lia].
  - apply (H3 (demo_parsed 2 200 ["=10"; "20"]) _ None).
    + apply demo_signal_ok; [exact uint64_200|lia].
    + apply demo_fresh.
    + vm_compute. reflexivity.
    + reflexivity.
    + exact sched_64.
Defined.

(** With no marker the cursor is past all markers from the start and
    [copying] is false; a call that is offered no sample returns
    [SOX_SUCCESS] all the same. *)
Lemma exhausted_without_frames_counterexample :
  exhausted (priv (demo_started 2 200 [])) = true
  /\ exists r,
       flow (demo_started 2 200 []) [] 0 64 = Some r
       /\ f_status r = SOX_SUCCESS
       /\ f_status r <> SOX_EOF.
Proof.
  split; [reflexivity|].
  exists (mk_out SOX_SUCCESS (priv (demo_started 2 200 [])) 0 0 []).
  split; [reflexivity|]. split; [reflexivity|discriminate].
Qed.

Lemma copying_follows_cursor_witness :
  copying (priv (demo_started 2 200 ["=10"; "20"])) = false
  /\ exists effp2,
       flow_calls (demo_started 2 200 ["=10"; "20"])
         [(demo_stream 64, 64, 64); (demo_stream 64, 64, 32);
          (demo_stream 1, 1, 64)] = Some effp2
       /\ (copying (priv effp2) = true
           <-> Nat.odd (current_pos (priv effp2)) = true).
Proof.
  apply (copying_follows_cursor demo_parsesamples demo_parser_in_range
           (demo_parsed 2 200 ["=10"; "20"]) _ None).
  - apply demo_signal_ok; [exact uint64_200|lia].
  - apply demo_fresh.
  - vm_compute. reflexivity.
  - repeat constructor; cbn; lia.
Defined.

Lemma markers_out_of_order_witness :
  (forall j,
      (S j < num_pos (priv (demo_started 2 200 ["=10"; "20"])))%nat ->
      pos_sample (priv (demo_started 2 200 ["=10"; "20"])) j
      <= pos_sample (priv (demo_started 2 200 ["=10"; "20"])) (S j))
  /\ exists effp',
       start demo_parsesamples (demo_parsed 1 100 ["=50"; "=20"])
       = (SOX_EOF, effp', Some (msg_behind 1))
       /\ offsets (priv effp') = [50; 20].
Proof.
  split.
  - apply (proj1 (markers_out_of_order demo_parsesamples demo_parser_in_range
                    (demo_parsed 2 200 ["=10"; "20"])
                    (demo_signal_ok 2 200 _ uint64_200 ltac:(lia)))
             SOX_SUCCESS _ None).
    + vm_compute. reflexivity.
    + discriminate.
  - apply (proj2 (markers_out_of_order demo_parsesamples demo_parser_in_range
                    (demo_parsed 1 100 ["=50"; "=20"])
                    (demo_signal_ok 1 100 _
                       ltac:(unfold is_uint64; rewrite two64; lia)
                       ltac:(lia)))
             [mk_pos 50 "50" a_start; mk_pos 20 "20" a_start] 1%nat).
    + reflexivity.
    + vm_compute. reflexivity.
    + cbn. lia.
    + cbn. lia.
    + intros k Hk. lia.
Defined.

Lemma drain_signals_end_witness :
  let effp := demo_started 2 200 ["=10"; "20"] in
  fst (fst (drain effp)) = SOX_EOF
  /\ snd (fst (drain effp)) = 0
  /\ snd (drain effp) = Some (msg_not_reached 2).
Proof.
  destruct (drain_signals_end (demo_started 2 200 ["=10"; "20"]))
    as (H1 & H2 & H3 & _).
  split; [exact H1|]. split; [exact H2|]. apply H3. cbn. lia.
Defined.

Lemma start_skip_witness :
  let effp := demo_started 2 200 ["=10"; "20"] in
  sox_trim_get_start effp = mul64 10 2
  /\ (10 * 2 < 2 ^ 64 \/ 200 <> SOX_UNKNOWN_LEN ->
      sox_trim_get_start effp = 10 * 2)
  /\ (num_pos (priv effp) = 0%nat -> 10 = 0 /\ sox_trim_get_start effp = 0)
  /\ sox_trim_clear_start effp
     = with_priv effp (with_samples_read (priv effp) 10)
  /\ flow effp (demo_stream 200) (10 * 2) (10 * 2)
     = Some (mk_out SOX_SUCCESS (priv (sox_trim_clear_start effp))
               (10 * 2) 0 []).
Proof.
  assert (start demo_parsesamples (demo_parsed 2 200 ["=10"; "20"])
          = (SOX_SUCCESS, demo_started 2 200 ["=10"; "20"], None)) as Hstart
    by (vm_compute; reflexivity).
  exact (start_skip demo_parsesamples demo_parser_in_range
           (demo_parsed 2 200 ["=10"; "20"])
           (demo_started 2 200 ["=10"; "20"]) None (demo_stream 200)
           (demo_signal_ok 2 200 _ uint64_200 eq_refl)
           (demo_fresh 2 200 _) Hstart).
Defined.

Lemma single_zero_marker_is_noop_witness :
  exists effp',
    start demo_parsesamples (demo_parsed 1 SOX_UNKNOWN_LEN ["=0"])
    = (SOX_EFF_NULL, effp', None)
    /\ offsets (priv effp') = [0].
Proof.
  apply (single_zero_marker_is_noop demo_parsesamples demo_parser_in_range
           (demo_parsed 1 SOX_UNKNOWN_LEN ["=0"])
           (mk_pos 0 "0" a_start) 0 EmptyString).
  - apply demo_signal_ok; [|lia].
    unfold is_uint64, SOX_UNKNOWN_LEN. rewrite two64. lia.
  - reflexivity.
  - intros H. vm_compute in H. discriminate.
  - reflexivity.
  - constructor.
Defined.

Lemma empty_call_is_noop_witness :
  exhausted (priv (demo_started 2 200 [])) = true
  /\ flow (demo_started 2 200 []) (demo_stream 1) 1 100
     = Some (mk_out SOX_SUCCESS (priv (demo_started 2 200 [])) 0 0 []).
Proof.
  split; [reflexivity|].
  apply (empty_call_is_noop (demo_started 2 200 []) (demo_stream 1) 1 100).
  - lia.
  - lia.
  - cbn. lia.
Defined.

(** * Further properties of the effect *)

Local Close Scope string_scope.

(** ** [parse] *)

Section ParseProperties.

Variable lsx_parsesamples : sox_rate_t -> string -> option (Z * string).

Lemma argument_of_split (arg : string) :
  append (anchor_prefix (fst (split_anchor arg))) (snd (split_anchor arg))
  = arg.
Proof.
  destruct arg as [|c rest]; [reflexivity|].
  unfold split_anchor.
  destruct (Ascii.eqb_spec c "="%char) as [->|H1]; [reflexivity|].
  destruct (Ascii.eqb_spec c "-"%char) as [->|H2]; [reflexivity|].
  destruct c as [[] [] [] [] [] [] [] []]; try reflexivity; congruence.
Qed.

Lemma split_anchor_minus (arg : string) :
  minus_argument arg
  = match fst (split_anchor arg) with a_end => true | _ => false end.
Proof.
  destruct arg as [|c rest]; [reflexivity|].
  destruct c as [[] [] [] [] [] [] [] []]; reflexivity.
Qed.

(** The loop of [parse], argument by argument. *)
Lemma parse_loop_spec (args : list string) :
  forall ue st ps ue',
    parse_loop lsx_parsesamples args ue = (st, ps, ue') ->
    List.length ps = List.length args
    /\ st = (if forallb (syntax_ok lsx_parsesamples) args
             then SOX_SUCCESS else SOX_EOF)
    /\ (st = SOX_SUCCESS ->
        map argument_of ps = args
        /\ Forall (fun q => sample q = 0) ps
        /\ ue' = ue || existsb minus_argument args).
Proof.
  induction args as [|arg rest IH]; intros ue st ps ue' H; cbn in H.
  - inversion H; subst. cbn. rewrite orb_false_r. auto.
  - pose proof (argument_of_split arg) as Hsplit.
    pose proof (split_anchor_minus arg) as Hminus.
    cbn [forallb existsb]. unfold syntax_ok at 1.
    destruct (split_anchor arg) as [a body]. cbn [fst snd] in *.
    destruct (lsx_parsesamples 0%float body) as [[s tl]|].
    + destruct tl.
      * destruct (parse_loop _ rest _) as [[st0 ps0] ue0] eqn:E.
        inversion H; subst. destruct (IH _ _ _ _ E) as (I1 & I2 & I3).
        cbn [andb List.length]. split; [congruence|]. split; [exact I2|].
        intros Hs. destruct (I3 Hs) as (J1 & J2 & J3).
        cbn [map]. unfold argument_of at 1. cbn [anchor argstr].
        rewrite J1. split; [reflexivity|]. split.
        -- constructor; [reflexivity|exact J2].
        -- rewrite J3, Hminus. destruct a, ue; reflexivity.
      * inversion H; subst. cbn [andb List.length].
        rewrite length_map. split; [reflexivity|].
        split; [reflexivity|discriminate].
    + inversion H; subst. cbn [andb List.length].
      rewrite length_map. split; [reflexivity|].
      split; [reflexivity|discriminate].
Qed.

(** X1. [parse] accepts the arguments exactly when the parser, at rate 0,
    reads the whole text behind the anchor prefix of every argument; it
    returns [SOX_EOF] otherwise.  In both cases it allocates one position
    for each argument and leaves the host's numbers and the streaming
    state alone. *)
Theorem parse_checks_syntax (effp : sox_effect_t) (argv : list string) :
  let '(st, effp') := parse lsx_parsesamples effp argv in
  st = (if forallb (syntax_ok lsx_parsesamples) (tl argv)
        then SOX_SUCCESS else SOX_EOF)
  /\ num_pos (priv effp') = List.length (tl argv)
  /\ in_signal effp' = in_signal effp
  /\ out_signal_length effp' = out_signal_length effp
  /\ current_pos (priv effp') = current_pos (priv effp)
  /\ samples_read (priv effp') = samples_read (priv effp)
  /\ copying (priv effp') = copying (priv effp).
Proof.
  unfold parse.
  destruct (parse_loop lsx_parsesamples (tl argv) false) as [[st ps] ue] eqn:E.
  destruct (parse_loop_spec _ _ _ _ _ E) as (H1 & H2 & _).
  unfold num_pos. cbn. repeat split; assumption.
Qed.

(** [uses_end] after a successful [parse]. *)
Lemma parse_success_uses_end
    (effp effp' : sox_effect_t) (argv : list string) :
  parse lsx_parsesamples effp argv = (SOX_SUCCESS, effp') ->
  uses_end (priv effp') = existsb minus_argument (tl argv).
Proof.
  unfold parse.
  destruct (parse_loop lsx_parsesamples (tl argv) false) as [[st ps] ue] eqn:E.
  intros H. inversion H; subst. cbn.
  destruct (parse_loop_spec _ _ _ _ _ E) as (_ & _ & H3).
  apply (H3 eq_refl).
Qed.

(** X2. After a successful [parse] the positions stand for the arguments:
    putting the anchor prefix back in front of each stored text gives the
    argument list again, in order; no offset is resolved yet (all are 0);
    and [uses_end] is set exactly when an argument begins with [-]. *)
Theorem parse_keeps_arguments
    (effp effp' : sox_effect_t) (argv : list string) :
  parse lsx_parsesamples effp argv = (SOX_SUCCESS, effp') ->
  map argument_of (pos (priv effp')) = tl argv
  /\ offsets (priv effp') = map (fun _ => 0) (tl argv)
  /\ uses_end (priv effp') = existsb minus_argument (tl argv).
Proof.
  unfold parse.
  destruct (parse_loop lsx_parsesamples (tl argv) false) as [[st ps] ue] eqn:E.
  intros H. inversion H; subst. cbn.
  destruct (parse_loop_spec _ _ _ _ _ E) as (H1 & _ & H3).
  destruct (H3 eq_refl) as (J1 & J2 & J3).
  split; [exact J1|]. split; [|exact J3].
  unfold offsets. cbn. rewrite <- J1, map_map.
  clear - J2. induction J2 as [|q l Hq _ IH]; cbn; [reflexivity|].
  rewrite Hq, IH. reflexivity.
Qed.

End ParseProperties.

(** ** [start]: every way out *)

Lemma beyond_end_test (n : nat) (total x : Z) :
  negb (n =? 0)%nat && negb (total =? SOX_UNKNOWN_LEN) && (total <? x) = true
  <-> n <> 0%nat /\ total <> SOX_UNKNOWN_LEN /\ total < x.
Proof.
  rewrite !andb_true_iff, !negb_true_iff, Nat.eqb_neq, Z.eqb_neq, Z.ltb_lt.
  tauto.
Qed.

Lemma sanity_loop_message (ps : list pos_t) :
  forall i a e, sanity_loop i a ps = Some e -> exists j, e = msg_behind j.
Proof.
  induction ps as [|q rest IH]; intros i a e H; cbn in H; [discriminate|].
  destruct (sample q <? a); [inversion H; eauto|eauto].
Qed.

Section StartProperties.

Variable lsx_parsesamples : sox_rate_t -> string -> option (Z * string).

(** The first loop does not look at the offsets it finds in the array:
    run on its own result it gives that result again. *)
Lemma resolve_loop_again (r : sox_rate_t) (total : Z) (ps : list pos_t) :
  forall i last_seen ps' e,
    resolve_loop lsx_parsesamples r total i last_seen ps = (ps', e) ->
    resolve_loop lsx_parsesamples r total i last_seen ps' = (ps', e).
Proof.
  induction ps as [|q rest IH]; intros i last_seen ps' e H; cbn in H.
  - inversion H; subst. reflexivity.
  - destruct (lsx_parsesamples r (argstr q)) as [[s tl]|] eqn:Ep.
    + destruct (resolve_anchor (anchor q) total last_seen s) as [res|] eqn:Ea.
      * destruct (resolve_loop _ _ _ _ _ rest) as [rest' m'] eqn:E.
        inversion H; subst. cbn. rewrite Ep, Ea, (IH _ _ _ _ E). reflexivity.
      * inversion H; subst. cbn. rewrite Ep, Ea. reflexivity.
    + inversion H; subst. cbn. rewrite Ep. reflexivity.
Qed.

Lemma single_zero_test (ps : list pos_t) :
  (List.length ps =? 1)%nat && (sample (nth 0 ps pos_zero) =? 0) = true
  <-> map sample ps = [0].
Proof.
  rewrite andb_true_iff, Nat.eqb_eq, Z.eqb_eq.
  destruct ps as [|q [|q' rest]]; cbn; split; intros H;
    try (destruct H; discriminate); try discriminate.
  - destruct H as [_ ->]. reflexivity.
  - inversion H. auto.
Qed.

Lemma length_guard (total : Z) (ue : bool) :
  (total =? SOX_UNKNOWN_LEN) && ue = false
  <-> (total = SOX_UNKNOWN_LEN -> ue = false).
Proof.
  rewrite andb_false_iff, Z.eqb_neq. destruct ue; split; intros H; auto.
  - destruct H as [H|H]; [contradiction|discriminate].
  - left. intros E. specialize (H E). discriminate.
Qed.

Lemma beyond_end_test_false (n : nat) (total x : Z) :
  (n <> 0%nat -> total <> SOX_UNKNOWN_LEN -> x <= total) ->
  negb (n =? 0)%nat && negb (total =? SOX_UNKNOWN_LEN) && (total <? x) = false.
Proof.
  intros H.
  destruct (negb (n =? 0)%nat && negb (total =? SOX_UNKNOWN_LEN) && (total <? x))
    eqn:C; [|reflexivity].
  apply beyond_end_test in C. destruct C as (N1 & N2 & N3).
  specialize (H N1 N2). lia.
Qed.

Lemma length_not_nil {A : Type} (l : list A) :
  List.length l <> 0%nat <-> l <> [].
Proof. destruct l; cbn; split; intros H; congruence. Qed.

(** Every return of [start] is one of its seven ways out. *)
Lemma start_exits (effp effp' : sox_effect_t) (st : sox_status)
    (m : option message) :
  start lsx_parsesamples effp = (st, effp', m) ->
  start_exit lsx_parsesamples effp st effp' m.
Proof.
  set (total := in_length_of (in_signal effp)).
  assert (Hdec : forall r, start lsx_parsesamples effp = r ->
                   start_exit lsx_parsesamples effp
                     (fst (fst r)) (snd (fst r)) (snd r)).
  { intros r <-.
    destruct ((total =? SOX_UNKNOWN_LEN) && uses_end (priv effp)) eqn:Hg.
    { unfold start. cbn [uses_end with_copying pos]. fold total. rewrite Hg.
      apply andb_true_iff in Hg. destruct Hg as [Hu Hue].
      apply Z.eqb_eq in Hu. cbn [fst snd]. constructor; assumption. }
    pose proof (proj1 (length_guard _ _) Hg) as Hg'.
    destruct (resolve_loop lsx_parsesamples (rate (in_signal effp)) total 0 0
                (pos (priv effp))) as [ps err] eqn:Hr.
    destruct err as [e|].
    { unfold start. cbn [uses_end with_copying pos]. fold total.
      rewrite Hg, Hr. cbn [fst snd]. apply exit_resolve; assumption. }
    rewrite (start_resolved lsx_parsesamples effp ps Hg Hr). cbv zeta.
    fold total. unfold num_pos, pos_sample. cbn [pos with_pos].
    destruct (sanity_loop 0 0 ps) as [e|] eqn:Hs.
    { cbn [fst snd]. apply exit_sanity; assumption. }
    destruct (negb (List.length ps =? 0)%nat && negb (total =? SOX_UNKNOWN_LEN)
              && (total <? sample (nth 0 ps pos_zero))) eqn:C1.
    { apply beyond_end_test in C1. destruct C1 as (N1 & N2 & N3).
      cbn [fst snd]. apply exit_start_after_end; try assumption.
      apply length_not_nil, N1. }
    assert (ps <> [] -> total <> SOX_UNKNOWN_LEN ->
            sample (nth 0 ps pos_zero) <= total) as Hfirst.
    { intros Hne Hk.
      destruct (Z.le_gt_cases (sample (nth 0 ps pos_zero)) total) as [L|G];
        [exact L|].
      assert (negb (List.length ps =? 0)%nat
              && negb (total =? SOX_UNKNOWN_LEN)
              && (total <? sample (nth 0 ps pos_zero)) = true) as C.
      { apply beyond_end_test. repeat split; try assumption.
        apply length_not_nil, Hne. }
      congruence. }
    destruct (negb (List.length ps =? 0)%nat && negb (total =? SOX_UNKNOWN_LEN)
              && (total <? sample (nth (List.length ps - 1) ps pos_zero)))
      eqn:C2.
    { apply beyond_end_test in C2. destruct C2 as (N1 & N2 & N3).
      apply length_not_nil in N1.
      cbn [fst snd]. apply exit_end_after_end; auto. }
    assert (ps <> [] -> total <> SOX_UNKNOWN_LEN ->
            sample (nth 0 ps pos_zero) <= total
            /\ sample (nth (List.length ps - 1) ps pos_zero) <= total) as Hin.
    { intros Hne Hk. split; [auto|].
      destruct (Z.le_gt_cases (sample (nth (List.length ps - 1) ps pos_zero))
                  total) as [L|G]; [exact L|].
      assert (negb (List.length ps =? 0)%nat
              && negb (total =? SOX_UNKNOWN_LEN)
              && (total <? sample (nth (List.length ps - 1) ps pos_zero))
              = true) as C.
      { apply beyond_end_test. repeat split; try assumption.
        apply length_not_nil, Hne. }
      congruence. }
    destruct ((List.length ps =? 1)%nat && (sample (nth 0 ps pos_zero) =? 0))
      eqn:C3.
    { apply single_zero_test in C3. cbn [fst snd].
      apply exit_null; assumption. }
    assert (map sample ps <> [0]) as Hnz.
    { intros E. apply single_zero_test in E. congruence. }
    pose proof (exit_success lsx_parsesamples effp ps Hg' Hr Hs Hin Hnz) as X.
    fold total in X.
    destruct (Nat.odd (List.length ps) && (total =? SOX_UNKNOWN_LEN));
      cbn [fst snd]; exact X. }
  intros H. apply (Hdec _ H).
Qed.

(** [start] on an effect whose array holds [ps], the result of the first
    loop. *)
Lemma start_resolved_again (effp : sox_effect_t) (ps : list pos_t) (x : Z) :
  (in_length_of (in_signal effp) = SOX_UNKNOWN_LEN ->
   uses_end (priv effp) = false) ->
  resolve_loop lsx_parsesamples (rate (in_signal effp))
    (in_length_of (in_signal effp)) 0 0 (pos (priv effp)) = (ps, None) ->
  start lsx_parsesamples
    (mk_effect (in_signal effp) x
       (with_pos (with_copying (priv effp) false) ps))
  = let '(st, e, m) := start lsx_parsesamples effp in
    (st, mk_effect (in_signal e)
           (match st with SOX_SUCCESS => out_signal_length e | _ => x end)
           (priv e), m).
Proof.
  intros Hg Hr. apply length_guard in Hg.
  rewrite (start_resolved lsx_parsesamples effp ps Hg Hr).
  rewrite (start_resolved lsx_parsesamples _ ps).
  - cbv zeta. cbn [in_signal priv pos with_pos with_copying].
    unfold num_pos, pos_sample. cbn [pos with_pos].
    destruct (sanity_loop 0 0 ps); [reflexivity|].
    repeat match goal with
           | |- context [if ?c then _ else _] => destruct c
           end; reflexivity.
  - exact Hg.
  - cbn [in_signal priv pos with_pos with_copying].
    apply (resolve_loop_again _ _ _ _ _ _ _ Hr).
Qed.

End StartProperties.

Section StartTheorems.

Variable lsx_parsesamples : sox_rate_t -> string -> option (Z * string).
Hypothesis parser_ok : parser_in_range lsx_parsesamples.

Lemma in_length_unknown (si : sox_signalinfo_t) :
  signal_ok si ->
  (in_length_of si = SOX_UNKNOWN_LEN <-> length si = SOX_UNKNOWN_LEN).
Proof.
  intros Hsig. split; intros H.
  - destruct (Z.eq_dec (length si) SOX_UNKNOWN_LEN) as [E|N]; [exact E|].
    destruct (in_length_known _ Hsig N) as (_ & Hk & _). contradiction.
  - unfold in_length_of. rewrite H, Z.eqb_refl. reflexivity.
Qed.

(** The offsets that a [start] which does not fail leaves behind. *)
Lemma start_offsets (effp effp' : sox_effect_t) (st : sox_status)
    (m : option message) :
  signal_ok (in_signal effp) ->
  start lsx_parsesamples effp = (st, effp', m) ->
  st <> SOX_EOF ->
  Forall is_uint64 (offsets (priv effp'))
  /\ ascending 0 (offsets (priv effp')) (in_length_of (in_signal effp)).
Proof.
  intros Hsig H Hst.
  pose proof (in_length_range _ Hsig) as Htot.
  set (total := in_length_of (in_signal effp)) in *.
  destruct (start_passed lsx_parsesamples _ _ _ _ Hsig H Hst)
    as (ps & Hr & Hg & Hsan & Hlast & Hp & _).
  fold total in Hr, Hg, Hlast.
  assert (Forall is_uint64 (map sample ps)) as Hrange.
  { apply Forall_forall. intros x Hx. apply in_map_iff in Hx.
    destruct Hx as (q & <- & Hq).
    destruct (In_nth _ _ pos_zero Hq) as (j & Hj & <-).
    rewrite (resolve_loop_length _ _ _ _ _ _ _ _ Hr) in Hj.
    apply (resolve_loop_walk lsx_parsesamples parser_ok _ _ _ Htot _ _ _ Hr j Hj). }
  rewrite Hp. unfold offsets. cbn [pos with_pos]. split; [exact Hrange|].
  eapply sanity_loop_ascending; [exact Hsan|].
  destruct (Z.eq_dec total SOX_UNKNOWN_LEN) as [Hu|Hk]; [|auto].
  rewrite Hu. destruct (map sample ps) as [|x l] eqn:E.
  - cbn [last]. unfold SOX_UNKNOWN_LEN. rewrite two64. lia.
  - assert (In (last (x :: l) 0) (x :: l)) as Hin.
    { destruct (exists_last (l := x :: l) ltac:(discriminate)) as (l' & y & E').
      rewrite E', last_last. apply in_or_app. right. left. reflexivity. }
    rewrite Forall_forall in Hrange. specialize (Hrange _ Hin).
    unfold is_uint64, SOX_UNKNOWN_LEN in *. lia.
Qed.

Lemma ascending_all (ms : list Z) :
  forall a total, ascending a ms total -> Forall (fun x => a <= x <= total) ms.
Proof.
  induction ms as [|m rest IH]; intros a total H; [constructor|].
  cbn in H. destruct H as [H1 H2]. constructor.
  - split; [exact H1|]. apply (ascending_le _ _ _ H2).
  - eapply Forall_impl; [|apply (IH _ _ H2)]. cbn. intros x Hx. lia.
Qed.

(** X3. [start] can be run again: it parses the stored texts anew and
    does not look at the offsets of an earlier run, so that on the effect
    it has left it returns the same code and diagnostic and leaves the
    effect as it is. *)
Theorem start_is_repeatable (effp effp' : sox_effect_t) (st : sox_status)
    (m : option message) :
  start lsx_parsesamples effp = (st, effp', m) ->
  start lsx_parsesamples effp' = (st, effp', m).
Proof.
  intros H. pose proof (start_exits lsx_parsesamples _ _ _ _ H) as X.
  assert (forall ps,
            (in_length_of (in_signal effp) = SOX_UNKNOWN_LEN ->
             uses_end (priv effp) = false) ->
            resolve_loop lsx_parsesamples (rate (in_signal effp))
              (in_length_of (in_signal effp)) 0 0 (pos (priv effp))
            = (ps, None) ->
            effp' = mk_effect (in_signal effp) (out_signal_length effp')
                      (with_pos (with_copying (priv effp) false) ps) ->
            (st = SOX_SUCCESS \/ out_signal_length effp' = out_signal_length effp) ->
            start lsx_parsesamples effp' = (st, effp', m)) as Hre.
  { intros ps Hg Hr He Hout. rewrite He at 1.
    rewrite (start_resolved_again lsx_parsesamples effp ps _ Hg Hr), H.
    f_equal. f_equal. rewrite He at 4. rewrite He. cbn.
    destruct Hout as [->|E]; [reflexivity|].
    destruct st; reflexivity. }
  destruct X as [Hu Hue|ps e Hg Hr|ps e Hg Hr Hs|ps Hg Hr Hs Hne Hk Hlt
                 |ps Hg Hr Hs Hne Hk Hle Hlt|ps Hg Hr Hs Hin Hz
                 |ps Hg Hr Hs Hin Hnz].
  - unfold start. cbn [in_signal priv uses_end with_priv with_copying].
    rewrite Hu, Z.eqb_refl, Hue. reflexivity.
  - apply length_guard in Hg. unfold start.
    cbn [in_signal priv uses_end pos with_priv with_pos with_copying].
    rewrite Hg, (resolve_loop_again _ _ _ _ _ _ _ _ Hr). reflexivity.
  - apply (Hre ps Hg Hr); [reflexivity|right; reflexivity].
  - apply (Hre ps Hg Hr); [reflexivity|right; reflexivity].
  - apply (Hre ps Hg Hr); [reflexivity|right; reflexivity].
  - apply (Hre ps Hg Hr); [reflexivity|right; reflexivity].
  - apply (Hre ps Hg Hr); [reflexivity|left; reflexivity].
Qed.

(** X4. An argument relative to the end needs the length of the audio:
    after a successful [parse], [start] gives the "audio length is
    unknown" diagnostic exactly when the length is unknown and some
    argument begins with [-]; it then fails before resolving any
    position. *)
Theorem end_relative_needs_length
    (effp0 effp1 effp2 : sox_effect_t) (argv : list string)
    (st : sox_status) (m : option message) :
  parse lsx_parsesamples effp0 argv = (SOX_SUCCESS, effp1) ->
  signal_ok (in_signal effp1) ->
  start lsx_parsesamples effp1 = (st, effp2, m) ->
  (m = Some msg_length_unknown
   <-> length (in_signal effp1) = SOX_UNKNOWN_LEN
       /\ existsb minus_argument (tl argv) = true)
  /\ (m = Some msg_length_unknown ->
      st = SOX_EOF /\ offsets (priv effp2) = offsets (priv effp1)).
Proof.
  intros Hparse Hsig H.
  pose proof (parse_success_uses_end lsx_parsesamples _ _ _ Hparse) as Hue.
  pose proof (in_length_range _ Hsig) as Htot.
  pose proof (in_length_unknown _ Hsig) as Hunk.
  pose proof (start_exits lsx_parsesamples _ _ _ _ H) as X.
  destruct X as [Hu Hue'|ps e Hg Hr|ps e Hg Hr Hs|ps Hg Hr Hs Hne Hk Hlt
                 |ps Hg Hr Hs Hne Hk Hle Hlt|ps Hg Hr Hs Hin Hz
                 |ps Hg Hr Hs Hin Hnz].
  - split; [|auto]. split; [|reflexivity].
    intros _. split; [apply Hunk, Hu|]. rewrite <- Hue. exact Hue'.
  - assert (e <> msg_length_unknown) as Hne.
    { destruct (resolve_loop_failure lsx_parsesamples parser_ok _ _ _ Htot
                  _ _ _ _ Hr) as (j & _ & [[-> _]|[-> _]]); discriminate. }
    split; [|intros E; congruence]. split; [congruence|].
    intros [Hl Hm]. apply Hunk in Hl. specialize (Hg Hl). congruence.
  - destruct (sanity_loop_message _ _ _ _ Hs) as [j ->].
    split; [|discriminate]. split; [discriminate|].
    intros [Hl Hm]. apply Hunk in Hl. specialize (Hg Hl). congruence.
  - split; [|discriminate]. split; [discriminate|].
    intros [Hl Hm]. apply Hunk in Hl. specialize (Hg Hl). congruence.
  - split; [|discriminate]. split; [discriminate|].
    intros [Hl Hm]. apply Hunk in Hl. specialize (Hg Hl). congruence.
  - split; [|discriminate]. split; [discriminate|].
    intros [Hl Hm]. apply Hunk in Hl. specialize (Hg Hl). congruence.
  - split; [|discriminate]. split; [discriminate|].
    intros [Hl Hm]. apply Hunk in Hl. specialize (Hg Hl). congruence.
Qed.

(** X5. [start] keeps the markers inside the audio.  When the length is
    known and [start] does not fail, every offset lies between 0 and the
    number of frames.  The "start position after end" diagnostic means
    that the first offset exceeds the number of frames, the "end position
    after end" diagnostic that the last one does while the first does
    not; and offsets that are resolved and in order but do not all fit
    always give one of the two.  [start] returns [SOX_EOF] exactly when it
    gives a diagnostic. *)
Theorem start_keeps_markers_in_audio
    (effp effp' : sox_effect_t) (st : sox_status) (m : option message) :
  signal_ok (in_signal effp) ->
  start lsx_parsesamples effp = (st, effp', m) ->
  let total := in_length_of (in_signal effp) in
  let known := length (in_signal effp) <> SOX_UNKNOWN_LEN in
  (st <> SOX_EOF -> known ->
   Forall (fun x => 0 <= x <= total) (offsets (priv effp')))
  /\ (m = Some msg_start_after_end ->
      known /\ total < hd 0 (offsets (priv effp')))
  /\ (m = Some msg_end_after_end ->
      known /\ hd 0 (offsets (priv effp')) <= total
      /\ total < last (offsets (priv effp')) 0)
  /\ (forall ps,
        resolve_loop lsx_parsesamples (rate (in_signal effp)) total 0 0
          (pos (priv effp)) = (ps, None) ->
        sanity_loop 0 0 ps = None ->
        known -> total < last (map sample ps) 0 ->
        m = Some msg_start_after_end \/ m = Some msg_end_after_end)
  /\ (st = SOX_EOF <-> m <> None).
Proof.
  intros Hsig H. cbv zeta.
  pose proof (in_length_range _ Hsig) as Htot.
  pose proof (in_length_unknown _ Hsig) as Hunk.
  assert (forall ps : list pos_t,
             hd 0 (map sample ps) = sample (nth 0 ps pos_zero)) as Hhd
    by (intros [|q l]; reflexivity).
  assert (forall ps : list pos_t,
             last (map sample ps) 0
             = sample (nth (List.length ps - 1) ps pos_zero)) as Hlast.
  { intros ps. rewrite last_nth, length_map.
    change 0 with (sample pos_zero) at 1. apply map_nth. }
  split.
  { intros Hst Hk.
    destruct (start_offsets _ _ _ _ Hsig H Hst) as [_ Hasc].
    apply ascending_all, Hasc. }
  pose proof (start_exits lsx_parsesamples _ _ _ _ H) as X.
  destruct X as [Hu Hue'|ps e Hg Hr|ps e Hg Hr Hs|ps Hg Hr Hs Hne Hk Hlt
                 |ps Hg Hr Hs Hne Hk Hle Hlt|ps Hg Hr Hs Hin Hz
                 |ps Hg Hr Hs Hin Hnz];
    unfold offsets; cbn [priv pos with_priv with_pos with_out_length].
  - repeat split; try discriminate.
    intros ps Hr _ Hk. apply Hunk in Hu. contradiction.
  - assert (e <> msg_start_after_end /\ e <> msg_end_after_end) as [N1 N2].
    { destruct (resolve_loop_failure lsx_parsesamples parser_ok _ _ _ Htot
                  _ _ _ _ Hr) as (j & _ & [[-> _]|[-> _]]);
        split; discriminate. }
    repeat split; try congruence; try discriminate.
  - destruct (sanity_loop_message _ _ _ _ Hs) as [j ->].
    repeat split; try discriminate. intros ps' Hr' Hs'.
    assert (ps' = ps) as -> by congruence. congruence.
  - rewrite Hhd. repeat split; try discriminate; auto.
    intros E. apply Hk, Hunk, E.
  - rewrite Hhd, Hlast. repeat split; try discriminate; auto.
    intros E. apply Hk, Hunk, E.
  - repeat split; try discriminate; try congruence.
    intros ps' Hr' _ Hk Hlt. assert (ps' = ps) as -> by congruence.
    rewrite Hlast in Hlt.
    assert (in_length_of (in_signal effp) <> SOX_UNKNOWN_LEN) as Hk' by (intros E; apply Hk, Hunk, E).
    destruct ps as [|q l]; [discriminate|].
    destruct (Hin ltac:(discriminate) Hk'). lia.
  - repeat split; try discriminate; try congruence.
    intros ps' Hr' _ Hk Hlt. assert (ps' = ps) as -> by congruence.
    rewrite Hlast in Hlt.
    assert (in_length_of (in_signal effp) <> SOX_UNKNOWN_LEN) as Hk' by (intros E; apply Hk, Hunk, E).
    destruct ps as [|q l].
    + cbn in Hlt. unfold is_uint64 in Htot. lia.
    + destruct (Hin ltac:(discriminate) Hk'). lia.
Qed.

End StartTheorems.

(** X6. The output length that a successful [start] declares.  For audio
    of known length it is the frame sum of the kept spans times the
    channel count and never exceeds the input length.  For audio of
    unknown length it is unknown when the number of markers is odd and,
    when that number is even, the sum of the spans between the markers of
    each pair times the channel count (a 64-bit product). *)
Theorem declared_length_by_cases
    (lsx_parsesamples : sox_rate_t -> string -> option (Z * string))
    (effp effp' : sox_effect_t) (m : option message) :
  parser_in_range lsx_parsesamples ->
  signal_ok (in_signal effp) ->
  start lsx_parsesamples effp = (SOX_SUCCESS, effp', m) ->
  let offs := offsets (priv effp') in
  let ch := channels (in_signal effp) in
  (length (in_signal effp) <> SOX_UNKNOWN_LEN ->
   out_signal_length effp'
   = kept_frames offs (in_length_of (in_signal effp)) * ch
   /\ 0 <= out_signal_length effp' <= length (in_signal effp))
  /\ (length (in_signal effp) = SOX_UNKNOWN_LEN ->
      Nat.odd (num_pos (priv effp')) = true ->
      out_signal_length effp' = SOX_UNKNOWN_LEN)
  /\ (length (in_signal effp) = SOX_UNKNOWN_LEN ->
      Nat.odd (num_pos (priv effp')) = false ->
      out_signal_length effp' = mul64 (kept_frames offs 0) ch).
Proof.
  intros parser_ok Hsig H. cbv zeta.
  pose proof (in_length_range _ Hsig) as Htot.
  pose proof (in_length_unknown _ Hsig) as Hunk.
  destruct (start_offsets lsx_parsesamples parser_ok _ _ _ _ Hsig H
              ltac:(discriminate)) as [Hrange Hasc].
  pose proof (start_exits lsx_parsesamples _ _ _ _ H) as X.
  inversion X as [| | | | | |ps Hg Hr Hs Hin Hnz E1 E2 E3]. subst effp'.
  unfold offsets, num_pos in *.
  cbn [priv pos with_priv with_pos with_out_length out_signal_length] in *.
  destruct (length_loop_kept (List.length ps) ps (Nat.le_refl _) 0 0
              (in_length_of (in_signal effp)) Hasc)
    as [L1 L2]; try (unfold is_uint64 in *; lia).
  rewrite Z.add_0_l in L1.
  split; [|split].
  - intros Hk. destruct (in_length_known _ Hsig Hk) as (_ & Hk' & Hmul).
    apply Z.eqb_neq in Hk'. rewrite Hk', andb_false_r, L1.
    destruct Hsig as [Hlen Hch]. unfold is_uint64 in *.
    unfold mul64. rewrite wrap64_small by (unfold is_uint64; nia).
    split; [reflexivity|nia].
  - intros Hu Hodd. apply Hunk in Hu. rewrite Hu, Hodd, Z.eqb_refl.
    reflexivity.
  - intros Hu Hodd. rewrite Hodd in *. cbn [andb]. rewrite L1. f_equal.
    clear - Hodd. revert Hodd. generalize (in_length_of (in_signal effp)).
    intros t. rewrite <- (length_map sample ps).
    generalize (map sample ps). clear. intros ms.
    assert (forall n ms, (List.length ms <= n)%nat ->
              Nat.odd (List.length ms) = false ->
              kept_frames ms t = kept_frames ms 0) as G.
    { induction n as [|n IH]; intros l Hn Hodd.
      - destruct l; [reflexivity|cbn in Hn; lia].
      - destruct l as [|m0 [|m1 r]]; [reflexivity|discriminate|].
        cbn [kept_frames]. rewrite (IH r); [reflexivity|cbn in Hn; lia|].
        exact Hodd. }
    apply (G _ _ (Nat.le_refl _)).
Qed.

(** ** [flow]: what a call does to the buffers and to the state *)

(** The counts of a call are whole frames, [samples_read] advances by the
    frames consumed, and the cursor moves forward only, within the
    markers. *)
Lemma flow_loop_frames (f : nat) (ch : Z) (p : priv_t) (len : Z)
    (ib : list sox_sample_t) (r : flow_out) :
  0 <= len -> is_uint64 (samples_read p) ->
  flow_loop f ch p len ib = Some r ->
  (exists k j,
      0 <= j <= k /\ k <= len
      /\ f_isamp r = k * ch /\ f_osamp r = j * ch
      /\ samples_read (f_priv r) = add64 (samples_read p) k)
  /\ (current_pos p <= current_pos (f_priv r))%nat
  /\ ((current_pos p <= num_pos p)%nat ->
      (current_pos (f_priv r) <= num_pos p)%nat).
Proof.
  intros Hlen Hsr H. revert Hlen Hsr. pattern p, len, ib, r.
  apply (flow_loop_result_ind ch) with (4 := H); clear;
    cbv beta iota delta [f_status f_priv f_isamp f_osamp f_obuf].
  - intros p ib _ Hsr. split; [|split; [lia|auto]].
    exists 0, 0. cbn [samples_read f_priv]. unfold add64. rewrite Z.add_0_r, wrap64_small by exact Hsr.
    repeat split; lia.
  - intros p len ib _ _ Hlen Hsr.
    assert (samples_read (step_position p) = samples_read p
            /\ (current_pos p <= current_pos (step_position p))%nat
            /\ ((current_pos p <= num_pos p)%nat ->
                (current_pos (step_position p) <= num_pos p)%nat))
      as (S1 & S2 & S3).
    { unfold step_position, at_position.
      destruct (current_pos p <? num_pos p)%nat eqn:Hlt; cbn [andb];
        [|repeat split; auto].
      apply Nat.ltb_lt in Hlt.
      destruct (samples_read p =? _); cbn [toggle samples_read current_pos];
        repeat split; auto; lia. }
    split; [|split; assumption].
    exists 0, 0. rewrite S1. unfold add64.
    rewrite Z.add_0_r, wrap64_small by exact Hsr. repeat split; lia.
  - intros p len ib r _ q chunk _ IH Hlen Hsr.
    assert (samples_read q = samples_read p
            /\ num_pos q = num_pos p
            /\ (current_pos p <= current_pos q)%nat
            /\ ((current_pos p <= num_pos p)%nat ->
                (current_pos q <= num_pos p)%nat))
      as (S1 & S0 & S2 & S3).
    { unfold q, step_position, at_position.
      destruct (current_pos p <? num_pos p)%nat eqn:Hlt; cbn [andb];
        [|repeat split; auto].
      apply Nat.ltb_lt in Hlt.
      destruct (samples_read p =? _);
        cbn [toggle samples_read current_pos num_pos];
        repeat split; auto; lia. }
    pose proof (chunk_of_bounds q len Hlen) as Hc. fold chunk in Hc.
    destruct IH as ((k & j & K1 & K2 & K3 & K4 & K5) & C1 & C2);
      [lia|apply wrap64_range|].
    cbn [samples_read current_pos with_samples_read] in K5, C1, C2.
    change (num_pos (with_samples_read q _)) with (num_pos q) in C2.
    rewrite S0 in C2.
    split; [|split; [lia|intros Hle; apply C2, S3, Hle]].
    exists (chunk + k), (if copying q then chunk + j else j).
    rewrite K3, K4, K5, S1, add64_assoc.
    destruct (copying q); repeat split; lia.
Qed.

(** A call that signals the end leaves a state in which nothing is left to
    do. *)
Lemma flow_loop_eof (f : nat) (ch : Z) (p : priv_t) (len : Z)
    (ib : list sox_sample_t) (r : flow_out) :
  flow_loop f ch p len ib = Some r ->
  f_status r = SOX_EOF -> exhausted (f_priv r) = true.
Proof.
  intros H. pattern p, len, ib, r.
  apply (flow_loop_result_ind ch) with (4 := H); clear;
    cbv beta iota delta [f_status f_priv f_isamp f_osamp f_obuf].
  - discriminate.
  - intros p len ib _ Ex _. exact Ex.
  - intros p len ib r _ q chunk _ IH. exact IH.
Qed.

(** In a state in which nothing is left to do, a call over at least one
    frame consumes nothing and changes nothing. *)
Lemma flow_loop_exhausted (f : nat) (ch : Z) (p : priv_t) (len : Z)
    (ib : list sox_sample_t) :
  len <> 0 -> exhausted p = true ->
  flow_loop (S f) ch p len ib = Some (mk_out SOX_EOF p 0 0 []).
Proof.
  intros Hlen Ex. rewrite flow_loop_step by exact Hlen. cbv zeta.
  rewrite (exhausted_at_position p Ex), Ex. reflexivity.
Qed.

Section FlowCalls.

Variable effp : sox_effect_t.
Hypothesis effp_ok : effect_ok effp.

Let ch := channels (in_signal effp).

(** X7. A call of [flow] stays inside its buffers.  It returns; it
    consumes whole frames, at most as many samples as are offered and as
    the output buffer holds, and exactly the whole frames of that many
    samples unless it signals the end; it writes whole frames, never more
    than it consumes, the output is as long as the count it reports, and
    it consists of consumed samples in their order. *)
Theorem flow_respects_buffers (ib : list sox_sample_t) (isamp osamp : Z) :
  0 <= isamp -> 0 <= osamp ->
  exists r,
    flow effp ib isamp osamp = Some r
    /\ 0 <= f_osamp r <= f_isamp r
    /\ f_isamp r <= Z.min isamp osamp
    /\ (ch | f_isamp r) /\ (ch | f_osamp r)
    /\ (f_status r = SOX_SUCCESS \/ f_status r = SOX_EOF)
    /\ (f_status r = SOX_SUCCESS -> f_isamp r = Z.min isamp osamp / ch * ch)
    /\ (isamp <= Z.of_nat (List.length ib) ->
        Z.of_nat (List.length (f_obuf r)) = f_osamp r)
    /\ subseq (f_obuf r) (firstn (Z.to_nat (f_isamp r)) ib).
Proof.
  intros Hi Ho. destruct (flow_total effp ib isamp osamp effp_ok Hi Ho)
    as [r H].
  exists r. split; [exact H|]. unfold flow in H. fold ch in H.
  destruct effp_ok as [[Hsr _] Hch]. fold ch in Hch.
  pose proof (flow_len_nonneg ch isamp osamp Hch Hi Ho) as Hlen.
  assert (0 <= ch) as Hch0 by lia.
  set (len := Z.min isamp osamp / ch) in *.
  assert (len * ch <= Z.min isamp osamp) as Hle
    by (unfold len; pose proof (Z.mul_div_le (Z.min isamp osamp) ch Hch);
        lia).
  destruct (flow_loop_facts _ _ _ _ _ _ Hch0 Hlen H)
    as (_ & _ & F3 & F4 & F5 & F6).
  destruct (flow_loop_frames _ _ _ _ _ _ Hlen Hsr H)
    as ((k & j & K1 & K2 & K3 & K4 & _) & _).
  repeat split; try assumption; try lia.
  - exists k. exact K3.
  - exists j. exact K4.
  - intros Hib. apply (flow_loop_obuf_length _ _ _ _ _ _ Hch0 Hlen)
      with (2 := H). lia.
  - apply (flow_loop_subseq _ _ _ _ _ _ Hch0 Hlen H).
Qed.

(** X8. What a call of [flow] does to the state: the markers and
    [uses_end] are left alone, so that [sox_trim_get_start] answers the
    same before and after; [samples_read] advances by the frames consumed
    (a 64-bit sum); the cursor never moves back and, once within the
    markers, stays within them. *)
Theorem flow_accounts_for_frames (ib : list sox_sample_t) (isamp osamp : Z) :
  0 <= isamp -> 0 <= osamp ->
  exists r,
    flow effp ib isamp osamp = Some r
    /\ let p := priv effp in
       let p' := f_priv r in
       pos p' = pos p
       /\ uses_end p' = uses_end p
       /\ sox_trim_get_start (with_priv effp p') = sox_trim_get_start effp
       /\ samples_read p' = add64 (samples_read p) (f_isamp r / ch)
       /\ (current_pos p <= current_pos p')%nat
       /\ ((current_pos p <= num_pos p)%nat ->
           (current_pos p' <= num_pos p')%nat).
Proof.
  intros Hi Ho.
  destruct (flow_total effp ib isamp osamp effp_ok Hi Ho) as [r H].
  exists r. split; [exact H|].
  cbv zeta. unfold flow in H. fold ch in H.
  destruct effp_ok as [[Hsr _] Hch]. fold ch in Hch.
  pose proof (flow_len_nonneg ch isamp osamp Hch Hi Ho) as Hlen.
  assert (0 <= ch) as Hch0 by lia.
  destruct (flow_loop_facts _ _ _ _ _ _ Hch0 Hlen H)
    as (F1 & F2 & _).
  destruct (flow_loop_frames _ _ _ _ _ _ Hlen Hsr H)
    as ((k & j & K1 & K2 & K3 & K4 & K5) & C1 & C2).
  assert (num_pos (f_priv r) = num_pos (priv effp)) as Hn
    by (unfold num_pos; rewrite F1; reflexivity).
  repeat split; try assumption.
  - unfold sox_trim_get_start, pos_sample. cbn [priv with_priv in_signal].
    rewrite Hn, F1. reflexivity.
  - rewrite K5, K3, Z.div_mul by lia. reflexivity.
  - rewrite Hn. exact C2.
Qed.

(** X9. Once a call has returned [SOX_EOF], the effect is finished: every
    later call that is offered at least one frame returns [SOX_EOF] again,
    consumes nothing, writes nothing and changes nothing. *)
Theorem end_signal_is_final (ib : list sox_sample_t) (isamp osamp : Z)
    (r : flow_out) :
  flow effp ib isamp osamp = Some r ->
  f_status r = SOX_EOF ->
  forall ib' isamp' osamp',
    ch <= isamp' -> ch <= osamp' ->
    flow (with_priv effp (f_priv r)) ib' isamp' osamp'
    = Some (mk_out SOX_EOF (f_priv r) 0 0 []).
Proof.
  intros H Hst ib' isamp' osamp' Hi Ho. unfold flow in *.
  cbn [priv with_priv in_signal]. fold ch in H |- *.
  destruct effp_ok as [_ Hch]. fold ch in Hch.
  assert (ch <= Z.min isamp' osamp') as Hmin by lia.
  pose proof (flow_frames_positive ch isamp' osamp' Hch Hmin) as Hpos.
  unfold flow_fuel. apply flow_loop_exhausted; [lia|].
  apply (flow_loop_eof _ _ _ _ _ _ H Hst).
Qed.

End FlowCalls.

(** ** An odd number of markers: the last span is open *)

(** With an odd number of markers, and [copying] following the parity of a
    cursor within the markers, a call finds something left to do. *)
Lemma open_end_call (effp : sox_effect_t) (ib : list sox_sample_t)
    (isamp osamp : Z) :
  effect_ok effp -> 0 <= isamp -> 0 <= osamp ->
  Nat.odd (num_pos (priv effp)) = true ->
  copying (priv effp) = Nat.odd (current_pos (priv effp)) ->
  (current_pos (priv effp) <= num_pos (priv effp))%nat ->
  exists r,
    flow effp ib isamp osamp = Some r
    /\ f_status r = SOX_SUCCESS
    /\ num_pos (f_priv r) = num_pos (priv effp)
    /\ copying (f_priv r) = Nat.odd (current_pos (f_priv r))
    /\ (current_pos (f_priv r) <= num_pos (f_priv r))%nat.
Proof.
  intros Hok Hi Ho Hodd Hpar Hcur.
  destruct (flow_total effp ib isamp osamp Hok Hi Ho) as [r H].
  exists r. split; [exact H|]. unfold flow in H.
  destruct Hok as [[Hsr _] Hch].
  pose proof (flow_len_nonneg _ isamp osamp Hch Hi Ho) as Hlen.
  assert (0 <= channels (in_signal effp)) as Hch0 by lia.
  destruct (flow_loop_facts _ _ _ _ _ _ Hch0 Hlen H)
    as (F1 & _ & _ & _ & _ & F6).
  destruct (flow_loop_frames _ _ _ _ _ _ Hlen Hsr H) as (_ & _ & C2).
  pose proof (flow_loop_parity _ _ _ _ _ _ Hpar H) as Hpar'.
  assert (num_pos (f_priv r) = num_pos (priv effp)) as Hn
    by (unfold num_pos; rewrite F1; reflexivity).
  specialize (C2 Hcur). rewrite <- Hn in C2.
  repeat split; try assumption.
  destruct F6 as [F6|F6]; [exact F6|exfalso].
  pose proof (flow_loop_eof _ _ _ _ _ _ H F6) as Ex.
  unfold exhausted in Ex. apply andb_true_iff in Ex.
  destruct Ex as [E1 E2]. apply Nat.leb_le in E1.
  apply negb_true_iff in E2.
  assert (current_pos (f_priv r) = num_pos (f_priv r)) as Heq by lia.
  rewrite Hpar', Heq, Hn, Hodd in E2. discriminate.
Qed.

(** X10. With an odd number of markers the effect never signals the end:
    after a successful [start] on a fresh effect, and after any calls of
    [flow] whatever, a call of [flow] returns [SOX_SUCCESS] and consumes
    every whole frame that it is offered and that fits the output
    buffer. *)
Theorem open_end_never_signals_end
    (lsx_parsesamples : sox_rate_t -> string -> option (Z * string))
    (effp effp1 : sox_effect_t) (m : option message)
    (calls : list (list sox_sample_t * Z * Z)) :
  parser_in_range lsx_parsesamples ->
  signal_ok (in_signal effp) -> fresh effp ->
  start lsx_parsesamples effp = (SOX_SUCCESS, effp1, m) ->
  Nat.odd (num_pos (priv effp1)) = true ->
  calls_ok calls ->
  exists effp2,
    flow_calls effp1 calls = Some effp2
    /\ forall ib isamp osamp,
         0 <= isamp -> 0 <= osamp ->
         exists r,
           flow effp2 ib isamp osamp = Some r
           /\ f_status r = SOX_SUCCESS
           /\ f_isamp r
              = Z.min isamp osamp / channels (in_signal effp)
                * channels (in_signal effp).
Proof.
  intros parser_ok Hsig Hfresh Hstart Hodd Hcalls.
  destruct (start_configured lsx_parsesamples parser_ok _ _ _ Hsig Hfresh
              Hstart) as (Hin & Hok & Hcur & _ & Hcp & _).
  assert (copying (priv effp1) = Nat.odd (current_pos (priv effp1))) as Hpar
    by (rewrite Hcp, Hcur; reflexivity).
  assert (current_pos (priv effp1) <= num_pos (priv effp1))%nat as Hle
    by (rewrite Hcur; lia).
  rewrite <- Hin. clear Hstart Hcur Hcp Hsig Hfresh Hin effp m.
  revert effp1 Hok Hodd Hpar Hle.
  induction calls as [|[[ib0 i0] o0] calls IH]; intros e Hok Hodd Hpar Hle.
  - exists e. split; [reflexivity|]. intros ib isamp osamp Hi Ho.
    destruct (open_end_call e ib isamp osamp Hok Hi Ho Hodd Hpar Hle)
      as (r & Hr & Hst & _).
    exists r. split; [exact Hr|]. split; [exact Hst|].
    unfold flow in Hr. destruct Hok as [_ Hch].
    pose proof (flow_len_nonneg _ isamp osamp Hch Hi Ho) as Hlen.
    assert (0 <= channels (in_signal e)) as Hch0 by lia.
    destruct (flow_loop_facts _ _ _ _ _ _ Hch0 Hlen Hr)
      as (_ & _ & _ & _ & F5 & _).
    exact (F5 Hst).
  - inversion Hcalls as [|c l [Hi Ho] Hc']; subst. cbn [fst snd] in *.
    destruct (open_end_call e ib0 i0 o0 Hok Hi Ho Hodd Hpar Hle)
      as (r & Hr & _ & Hn & Hpar' & Hle').
    cbn [flow_calls]. rewrite Hr.
    destruct (IH Hc' (with_priv e (f_priv r))) as (e2 & He2 & Hnext).
    + eapply flow_ok; eassumption.
    + cbn [priv with_priv]. rewrite Hn. exact Hodd.
    + exact Hpar'.
    + exact Hle'.
    + exists e2. split; [exact He2|]. exact Hnext.
Qed.

(** ** A whole stream *)

Lemma kept_spans_nil (ch : Z) (ms : list Z) :
  forall cp a, kept_spans ch ms cp a [] = [].
Proof.
  induction ms as [|m rest IH]; intros cp a; cbn [kept_spans].
  - destruct cp; reflexivity.
  - rewrite firstn_nil, skipn_nil, IH. destruct cp; reflexivity.
Qed.

Lemma ascending_weaken (ms : list Z) :
  forall a b b', ascending a ms b -> b <= b' -> ascending a ms b'.
Proof.
  induction ms as [|m rest IH]; intros a b b' H Hb; cbn [ascending] in *.
  - lia.
  - destruct H as [H1 H2]. split; [exact H1|]. apply (IH _ _ _ H2 Hb).
Qed.

Lemma ascending_le_last (ms : list Z) (a b : Z) :
  ascending a ms b -> a <= last ms a.
Proof.
  intros H. apply (ascending_le ms), (ascending_last ms a b), H.
Qed.

(** No marker ahead lies before the frame that has been reached. *)
Lemma filter_before_nil (ms : list Z) :
  forall a b, ascending a ms b -> filter (fun m => m <? a) ms = [].
Proof.
  intros a b H. pose proof (ascending_all _ _ _ H) as Hall. clear H.
  induction Hall as [|m rest Hm _ IH]; [reflexivity|].
  cbn [filter]. destruct (Z.ltb_spec m a); [lia|exact IH].
Qed.

Lemma filter_before_after (total : Z) (ms : list Z) :
  (List.length (filter (fun m => (m <? total)%Z) ms)
   + List.length (filter (fun m => (total <=? m)%Z) ms))%nat = List.length ms.
Proof.
  induction ms as [|m rest IH]; [reflexivity|]. cbn [filter].
  destruct (Z.ltb_spec m total), (Z.leb_spec total m); try lia;
    cbn [List.length]; lia.
Qed.

(** The first [if] of the loop body changes neither what is kept of the
    input ahead nor the last marker ahead, and the cursor counts the
    marker that it steps over. *)
Lemma step_position_stream (ch : Z) (p : priv_t) (total : Z)
    (ib : list sox_sample_t) :
  let q := step_position p in
  kept_spans ch (ahead q) (copying q) (samples_read q) ib
  = kept_spans ch (ahead p) (copying p) (samples_read p) ib
  /\ (samples_read p < total ->
      (current_pos q
       + List.length (filter (fun m => (m <? total)%Z) (ahead q))
       = current_pos p
         + List.length (filter (fun m => (m <? total)%Z) (ahead p)))%nat)
  /\ last (ahead q) (samples_read q) = last (ahead p) (samples_read p)
  /\ ((current_pos p <= num_pos p)%nat -> (current_pos q <= num_pos q)%nat).
Proof.
  intros q. subst q. unfold step_position.
  destruct (at_position p) eqn:Hat; [|auto].
  unfold at_position in Hat. apply andb_true_iff in Hat.
  destruct Hat as [Hlt Heq]. apply Z.eqb_eq in Heq.
  rewrite (ahead_cons p Hlt). rewrite <- Heq.
  cbn [kept_spans filter samples_read copying current_pos toggle].
  rewrite Z.sub_diag, Z.mul_0_l. cbn [Z.to_nat firstn skipn].
  repeat split.
  - destruct (copying p); reflexivity.
  - intros Hsr. apply Z.ltb_lt in Hsr. rewrite Hsr. cbn [List.length]. lia.
  - rewrite last_cons. reflexivity.
  - intros _. apply Nat.ltb_lt in Hlt. exact Hlt.
Qed.

(** One call over all the frames that are left of a stream of [total]
    frames: what it writes, where the cursor and [samples_read] end up,
    when it signals the end and how much it consumes. *)
Lemma flow_loop_stream (f : nat) (ch : Z) (p : priv_t) (len : Z)
    (ib : list sox_sample_t) (r : flow_out) (bound total : Z) :
  0 <= ch -> bound < 2 ^ 64 -> total <= bound ->
  0 <= samples_read p -> 0 <= len ->
  ascending (samples_read p) (ahead p) bound ->
  samples_read p + len = total ->
  copying p = Nat.odd (current_pos p) ->
  (current_pos p <= num_pos p)%nat ->
  flow_loop f ch p len ib = Some r ->
  (len * ch = Z.of_nat (List.length ib) ->
   f_obuf r = kept_spans ch (ahead p) (copying p) (samples_read p) ib)
  /\ current_pos (f_priv r)
     = (current_pos p
        + List.length (filter (fun m => (m <? total)%Z) (ahead p)))%nat
  /\ samples_read (f_priv r)
     = (if Nat.even (num_pos p)
        then Z.min total (last (ahead p) (samples_read p)) else total)
  /\ (f_status r = SOX_EOF
      <-> Nat.even (num_pos p) = true
          /\ last (ahead p) (samples_read p) < total)
  /\ f_isamp r = (samples_read (f_priv r) - samples_read p) * ch.
Proof.
  intros Hch Hb Htot Hsr Hlen Hasc Hsum Hpar Hcur H.
  revert Hsr Hlen Hasc Hsum Hpar Hcur. pattern p, len, ib, r.
  apply (flow_loop_result_ind ch) with (4 := H); clear - Hch Hb Htot;
    cbv beta iota delta [f_status f_priv f_isamp f_osamp f_obuf].
  - (* no frame is left *)
    intros p ib Hsr _ Hasc Hsum _ _. rewrite Z.add_0_r in Hsum.
    pose proof (ascending_le_last _ _ _ Hasc) as Hlast.
    rewrite <- Hsum. rewrite (filter_before_nil _ _ _ Hasc).
    split; [|split; [|split; [|split]]].
    + intros Hib. destruct ib; [|cbn in Hib; lia].
      rewrite kept_spans_nil. reflexivity.
    + cbn [List.length]. lia.
    + destruct (Nat.even (num_pos p)); lia.
    + split; [discriminate|]. intros [_ Hlt]. lia.
    + lia.
  - (* nothing is left to do *)
    intros p len ib Hne Ex Hsr Hlen Hasc Hsum Hpar Hcur.
    destruct (step_position_kept p bound Hasc) as (S1 & _ & _).
    destruct (step_position_stream ch p total ib) as (T1 & T2 & T3 & T4).
    cbv zeta in S1. apply step_position_parity in Hpar.
    specialize (T4 Hcur). specialize (T2 ltac:(lia)).
    assert (num_pos (step_position p) = num_pos p) as Hn
      by (unfold num_pos; rewrite step_position_pos; reflexivity).
    set (q := step_position p) in *. clearbody q.
    unfold exhausted in Ex. apply andb_true_iff in Ex.
    destruct Ex as [E1 E2]. apply Nat.leb_le in E1.
    apply negb_true_iff in E2.
    assert (ahead q = []) as Hnil by (apply ahead_nil, Nat.ltb_ge, E1).
    assert (current_pos q = num_pos q) as Heq by lia.
    assert (Nat.even (num_pos p) = true) as Hev.
    { rewrite <- Hn, <- Heq, <- Nat.negb_odd, <- Hpar, E2. reflexivity. }
    rewrite <- T1, <- T2, <- T3, Hnil, E2, Hev, S1.
    cbn [kept_spans filter List.length last].
    repeat split; try reflexivity; lia.
  - (* a chunk is consumed *)
    intros p len ib r Hne q chunk Ex IH Hsr Hlen Hasc Hsum Hpar Hcur.
    destruct (step_position_kept p bound Hasc) as (S1 & S2 & _).
    destruct (step_position_stream ch p total ib) as (T1 & T2 & T3 & T4).
    apply step_position_parity in Hpar.
    specialize (T4 Hcur). specialize (T2 ltac:(lia)).
    assert (num_pos (step_position p) = num_pos p) as Hn
      by (unfold num_pos; rewrite step_position_pos; reflexivity).
    fold q in S1, S2, T1, T2, T3, T4, Hpar, Hn.
    rewrite <- T1, <- T2, <- T3, <- Hn. rewrite <- S1 in Hsr, Hsum |- *.
    clear S1 T1 T2 T3 Hn Hasc Hcur.
    change (ahead (with_samples_read q _)) with (ahead q) in IH.
    change (num_pos (with_samples_read q _)) with (num_pos q) in IH.
    cbn [samples_read copying current_pos with_samples_read] in IH.
    unfold chunk_of in chunk.
    destruct (current_pos q <? num_pos q)%nat eqn:Hlt.
    + rewrite (ahead_cons q Hlt) in *.
      set (m := pos_sample q (current_pos q)) in *.
      set (rest := ahead (toggle q)) in *. clearbody rest.
      cbn [ascending] in S2. destruct S2 as [A1 A2].
      pose proof (ascending_le _ _ _ A2) as Hm.
      assert (chunk = Z.min len (m - samples_read q)) as Hc
        by (unfold chunk; rewrite sub64_exact by (unfold is_uint64; lia);
            reflexivity).
      clearbody chunk. subst chunk.
      set (c := Z.min len (m - samples_read q)) in *.
      assert (add64 (samples_read q) c = samples_read q + c) as Eadd
        by (apply wrap64_small; unfold is_uint64; lia).
      rewrite Eadd in IH.
      destruct IH as (I1 & I2 & I3 & I4 & I5);
        [lia|lia|cbn [ascending]; split; [lia|exact A2]|lia|exact Hpar
        |exact T4|].
      rewrite !last_cons in *.
      split; [|split; [|split; [|split]]].
      * intros Hib. rewrite I1.
        -- cbn [kept_spans].
           assert (Z.to_nat ((m - samples_read q) * ch)
                   = (Z.to_nat (c * ch)
                      + Z.to_nat ((m - (samples_read q + c)) * ch))%nat)
             as En by nia.
           rewrite En, firstn_add, skipn_add.
           destruct (copying q); [rewrite app_assoc|]; reflexivity.
        -- rewrite length_skipn. nia.
      * exact I2.
      * exact I3.
      * exact I4.
      * rewrite I5. ring.
    + rewrite (ahead_nil q Hlt) in *. unfold exhausted in Ex.
      apply Nat.ltb_ge in Hlt.
      assert (current_pos q = num_pos q) as Heq by lia.
      rewrite Heq, Nat.leb_refl in Ex. cbn [andb] in Ex.
      apply negb_false_iff in Ex.
      assert (Nat.even (num_pos q) = false) as Hev.
      { rewrite <- Nat.negb_odd, <- Heq, <- Hpar, Ex. reflexivity. }
      rewrite Ex, Hev in *. subst chunk.
      assert (add64 (samples_read q) len = total) as Eadd
        by (rewrite <- Hsum; apply wrap64_small; unfold is_uint64; lia).
      rewrite Eadd in IH.
      destruct IH as (I1 & I2 & I3 & I4 & I5);
        [lia|lia|cbn [ascending]; lia|lia|exact Hpar|exact T4|].
      cbn [kept_spans filter List.length] in *.
      split; [|split; [|split; [|split]]].
      * intros Hib. rewrite I1.
        -- apply firstn_skipn.
        -- rewrite length_skipn. nia.
      * exact I2.
      * exact I3.
      * split; [intros X; apply I4 in X|intros X]; destruct X; discriminate.
      * rewrite I5, I3. lia.
Qed.

Section WholeStream.

Variable lsx_parsesamples : sox_rate_t -> string -> option (Z * string).
Hypothesis parser_ok : parser_in_range lsx_parsesamples.

Variables (effp effp1 : sox_effect_t) (m : option message).
Hypothesis signal : signal_ok (in_signal effp).
Hypothesis zeroed : fresh effp.
Hypothesis started : start lsx_parsesamples effp = (SOX_SUCCESS, effp1, m).

Variables (sched : list (Z * Z)) (ib : list sox_sample_t).
Hypothesis sizes : sched_ok sched.
Hypothesis addressable : Z.of_nat (List.length ib) < 2 ^ 64.

Let ch := channels (in_signal effp).
Let frames := Z.of_nat (List.length ib) / ch.
Let offs := offsets (priv effp1).

(** A run of [flow] over a whole stream, whatever the buffer sizes of the
    calls, after a successful [start]. *)
Lemma run_stream_stream (t : run_out) :
  run_stream effp1 sched ib = Some t -> stream_done t ->
  r_obuf t = kept_spans ch offs false 0 (whole_frames ch ib)
  /\ num_pos (priv (r_effp t)) = List.length offs
  /\ current_pos (priv (r_effp t))
     = List.length (filter (fun x => (x <? frames)%Z) offs)
  /\ samples_read (priv (r_effp t))
     = (if Nat.even (List.length offs)
        then Z.min frames (last offs 0) else frames)
  /\ (r_status t = SOX_EOF
      <-> Nat.even (List.length offs) = true /\ last offs 0 < frames)
  /\ r_rest t
     = skipn (Z.to_nat (samples_read (priv (r_effp t)) * ch)) ib.
Proof.
  intros run done.
  destruct (start_configured lsx_parsesamples parser_ok _ _ _ signal zeroed
              started) as (Hin & Hok & Hcur & Hsr & Hcp & Hasc & _).
  cbv zeta in Hasc. fold offs in Hasc.
  destruct (run_stream_as_loop sched effp1 ib t Hok sizes run done)
    as (f & r & Hr & Hst & Heff & Hob & Hrest).
  rewrite Hin in Hr. fold ch frames in Hr.
  destruct signal as [_ Hch]. fold ch in Hch.
  assert (0 <= ch) as Hch0 by lia.
  assert (0 <= frames) as Hfr
    by (unfold frames; apply Z.div_pos; lia).
  assert (frames * ch <= Z.of_nat (List.length ib)) as Hwhole
    by (unfold frames; pose proof (Z.mul_div_le (Z.of_nat (List.length ib))
          ch Hch); lia).
  assert (frames <= Z.of_nat (List.length ib)) as Hle by nia.
  pose proof (in_length_range _ signal) as Htot.
  set (bound := Z.max frames (in_length_of (in_signal effp))).
  assert (flow_loop f ch (priv effp1) frames (whole_frames ch ib) = Some r)
    as Hr'.
  { unfold whole_frames. fold frames. rewrite flow_loop_firstn;
      [exact Hr|exact Hch0|exact Hfr|lia]. }
  assert (frames * ch = Z.of_nat (List.length (whole_frames ch ib))) as Hlen.
  { unfold whole_frames. fold frames. rewrite length_firstn. lia. }
  assert (ahead (priv effp1) = offs) as Hahead
    by (unfold ahead; rewrite Hcur; reflexivity).
  assert (num_pos (priv effp1) = List.length offs) as Hn
    by (unfold offs, offsets, num_pos; rewrite length_map; reflexivity).
  assert (bound < 2 ^ 64) as Hb by (unfold is_uint64 in Htot; lia).
  assert (frames <= bound) as Hfb by lia.
  assert (0 <= samples_read (priv effp1)) as Hsr0 by lia.
  assert (ascending (samples_read (priv effp1)) (ahead (priv effp1)) bound)
    as Hasc'.
  { rewrite Hsr, Hahead. apply (ascending_weaken _ _ _ _ Hasc). lia. }
  assert (samples_read (priv effp1) + frames = frames) as Hsum by lia.
  assert (copying (priv effp1) = Nat.odd (current_pos (priv effp1))) as Hpar
    by (rewrite Hcp, Hcur; reflexivity).
  assert (current_pos (priv effp1) <= num_pos (priv effp1))%nat as Hcn
    by lia.
  destruct (flow_loop_stream f ch (priv effp1) frames (whole_frames ch ib) r
              bound frames Hch0 Hb Hfb Hsr0 Hfr Hasc' Hsum Hpar Hcn Hr')
    as (S1 & S2 & S3 & S4 & S5).
  - rewrite Hahead, Hcp, Hsr, Hcur, Hn in *. rewrite <- Heff, <- Hob, <- Hst.
    cbn [priv with_priv Nat.add]. rewrite <- Hrest, S5, Z.sub_0_r.
    assert (num_pos (f_priv r) = List.length offs) as Hn'.
    { destruct (flow_loop_facts _ _ _ _ _ _ Hch0 Hfr Hr) as (F1 & _).
      unfold num_pos in *. rewrite F1. exact Hn. }
    repeat split; try assumption; try apply S4; auto.
Qed.

Lemma run_stream_returns :
  exists t, run_stream effp1 sched ib = Some t.
Proof.
  destruct (start_configured lsx_parsesamples parser_ok _ _ _ signal zeroed
              started) as (_ & Hok & _).
  apply (run_stream_total sched effp1 ib Hok sizes).
Qed.

(** X11. What a run over a whole stream writes, whatever the buffer
    sizes of the calls: of the whole frames of the input, the span up to
    the first marker is dropped, the span up to the second is kept, and so
    on in turn; what lies behind the last marker is kept when the number
    of markers is odd and dropped when it is even. *)
Theorem output_is_the_kept_spans :
  exists t,
    run_stream effp1 sched ib = Some t
    /\ (stream_done t ->
        r_obuf t = kept_spans ch offs false 0 (whole_frames ch ib)).
Proof.
  destruct run_stream_returns as [t Ht]. exists t. split; [exact Ht|].
  intros Hdone. apply (run_stream_stream t Ht Hdone).
Qed.

(** X12. Where a run over a whole stream stops.  The effect signals the
    end exactly when the number of markers is even and the stream goes on
    behind the last one (with no marker: when the stream has a frame).
    With an even number of markers it consumes the frames up to the last
    marker, or all whole frames if the stream ends before; with an odd
    number it consumes all whole frames.  What it leaves of the input is
    what follows the frames consumed. *)
Theorem stream_end_and_consumption :
  exists t,
    run_stream effp1 sched ib = Some t
    /\ (stream_done t ->
        (r_status t = SOX_EOF
         <-> Nat.even (List.length offs) = true /\ last offs 0 < frames)
        /\ (r_status t = SOX_EOF \/ r_status t = SOX_SUCCESS)
        /\ samples_read (priv (r_effp t))
           = (if Nat.even (List.length offs)
              then Z.min frames (last offs 0) else frames)
        /\ r_rest t
           = skipn (Z.to_nat (samples_read (priv (r_effp t)) * ch)) ib).
Proof.
  destruct run_stream_returns as [t Ht]. exists t. split; [exact Ht|].
  intros Hdone.
  destruct (run_stream_stream t Ht Hdone) as (_ & _ & _ & S3 & S4 & S5).
  repeat split; try assumption; try apply S4; auto.
  destruct (start_configured lsx_parsesamples parser_ok _ _ _ signal zeroed
              started) as (Hin & Hok & _).
  destruct (run_stream_as_loop sched effp1 ib t Hok sizes Ht Hdone)
    as (f & r & Hr & Hst & _).
  destruct Hok as [_ Hch].
  assert (0 <= channels (in_signal effp1)) as Hch0 by lia.
  assert (0 <= Z.of_nat (List.length ib) / channels (in_signal effp1)) as Hfr
    by (apply Z.div_pos; lia).
  destruct (flow_loop_facts _ _ _ _ _ _ Hch0 Hfr Hr)
    as (_ & _ & _ & _ & _ & [F|F]); rewrite <- Hst; auto.
Qed.

(** X13. What [drain] reports after a run over a whole stream: the cursor
    has stepped over the markers that lie before the end of the stream,
    and the warning counts the markers at or behind the end; there is no
    warning when there is none. *)
Theorem drain_counts_unreached_markers :
  exists t,
    run_stream effp1 sched ib = Some t
    /\ (stream_done t ->
        current_pos (priv (r_effp t))
        = List.length (filter (fun x => (x <? frames)%Z) offs)
        /\ drain (r_effp t)
           = (SOX_EOF, 0,
              match List.length (filter (fun x => (frames <=? x)%Z) offs)
              with
              | O => None
              | S k => Some (msg_not_reached (S k))
              end)).
Proof.
  destruct run_stream_returns as [t Ht]. exists t. split; [exact Ht|].
  intros Hdone.
  destruct (run_stream_stream t Ht Hdone) as (_ & S1 & S2 & _).
  split; [exact S2|]. unfold drain. rewrite S1, S2.
  pose proof (filter_before_after frames offs) as Hsplit.
  destruct (List.length (filter (fun x => (frames <=? x)%Z) offs))
    as [|k] eqn:Hk.
  - rewrite Nat.add_0_r in Hsplit. rewrite Hsplit, Nat.ltb_irrefl.
    reflexivity.
  - rewrite <- Hsplit.
    replace (_ <? _)%nat with true by (symmetry; apply Nat.ltb_lt; lia).
    f_equal. f_equal. f_equal. lia.
Qed.

End WholeStream.

(** ** Skipping the start *)

Lemma clear_start_priv (effp : sox_effect_t) :
  sox_trim_clear_start effp
  = with_priv effp
      (with_samples_read (priv effp) (hd 0 (offsets (priv effp)))).
Proof.
  unfold sox_trim_clear_start. rewrite first_offset.
  unfold num_pos, pos_sample.
  destruct (pos (priv effp)); reflexivity.
Qed.

(** X14. The speed optimization is sound.  After a successful [start], a
    client that skips the samples before the first marker, as many as
    [sox_trim_get_start] says, calls [sox_trim_clear_start] and runs
    [flow] over the rest of the stream gets what a run over the whole
    stream gives: the same output, the same return code, the same state
    and the same input left over, whatever the buffer sizes of the two
    runs. *)
Theorem skipping_the_start_is_sound
    (lsx_parsesamples : sox_rate_t -> string -> option (Z * string))
    (effp effp1 : sox_effect_t) (m : option message)
    (sched sched' : list (Z * Z)) (ib : list sox_sample_t) :
  parser_in_range lsx_parsesamples ->
  signal_ok (in_signal effp) -> fresh effp ->
  start lsx_parsesamples effp = (SOX_SUCCESS, effp1, m) ->
  sox_trim_get_start effp1 <= Z.of_nat (List.length ib) ->
  hd 0 (offsets (priv effp1)) * channels (in_signal effp) < 2 ^ 64 ->
  sched_ok sched -> sched_ok sched' ->
  exists t t',
    run_stream effp1 sched ib = Some t
    /\ run_stream (sox_trim_clear_start effp1) sched'
         (skipn (Z.to_nat (sox_trim_get_start effp1)) ib) = Some t'
    /\ (stream_done t -> stream_done t' -> t' = t).
Proof.
  intros parser_ok Hsig Hfresh Hstart Hskip Hfit Hs Hs'.
  assert (effect_ok effp1 /\ effect_ok (sox_trim_clear_start effp1))
    as [Hok1 Hok2].
  { destruct (start_configured lsx_parsesamples parser_ok _ _ _ Hsig Hfresh
                Hstart) as (_ & Hok & _).
    split; [exact Hok|]. rewrite clear_start_priv.
    destruct Hok as [[Hr Hp] Hch]. split; [split|exact Hch].
    - cbn [priv with_priv samples_read with_samples_read].
      rewrite first_offset. apply pos_sample_range. split; assumption.
    - exact Hp. }
  destruct (run_stream_total sched effp1 ib Hok1 Hs) as [t Hrun].
  destruct (run_stream_total sched' _
              (skipn (Z.to_nat (sox_trim_get_start effp1)) ib) Hok2 Hs')
    as [t' Hrun'].
  exists t, t'. split; [exact Hrun|]. split; [exact Hrun'|].
  intros Hdone Hdone'. clear Hok1 Hok2.
  destruct (start_configured lsx_parsesamples parser_ok _ _ _ Hsig Hfresh
              Hstart) as (Hin & Hok & Hcur & Hsr & Hcp & Hasc & _).
  cbv zeta in Hasc. rewrite <- Hin in Hfit.
  set (ch := channels (in_signal effp1)) in *.
  set (first := hd 0 (offsets (priv effp1))) in *.
  assert (0 < ch) as Hch by (destruct Hok as [_ Hch]; exact Hch).
  assert (0 <= ch) as Hch0 by lia.
  assert (0 <= first) as Hfirst.
  { unfold first. destruct (offsets (priv effp1)); [cbn; lia|].
    cbn [ascending hd] in *. lia. }
  assert (sox_trim_get_start effp1 = first * ch) as Hget.
  { unfold sox_trim_get_start. fold ch. rewrite <- first_offset. fold first.
    unfold mul64. rewrite wrap64_small by (unfold is_uint64; nia).
    destruct (num_pos (priv effp1)) eqn:Hn; [|reflexivity].
    cbn [Nat.eqb negb]. unfold first, offsets. unfold num_pos in Hn.
    destruct (pos (priv effp1)); [reflexivity|discriminate]. }
  rewrite Hget in *. rewrite clear_start_priv in Hrun'. fold first in Hrun'.
  set (p1 := with_samples_read (priv effp1) first) in *.
  set (ib' := skipn (Z.to_nat (first * ch)) ib) in *.
  assert (effect_ok (with_priv effp1 p1)) as Hok'.
  { destruct Hok as [[Hr Hp] _]. split; [split|exact Hch].
    - unfold p1, first. cbn [samples_read with_samples_read].
      rewrite first_offset. apply pos_sample_range. split; assumption.
    - exact Hp. }
  destruct (run_stream_as_loop sched effp1 ib t Hok Hs Hrun Hdone)
    as (f1 & r1 & Hr1 & Hst1 & Heff1 & Hob1 & Hrest1).
  destruct (run_stream_as_loop sched' _ ib' t' Hok' Hs' Hrun' Hdone')
    as (f2 & r2 & Hr2 & Hst2 & Heff2 & Hob2 & Hrest2).
  cbn [priv with_priv in_signal] in Hr2. fold ch in Hr1, Hr2.
  assert (Z.of_nat (List.length ib') / ch
          = Z.of_nat (List.length ib) / ch - first) as Hdiv.
  { unfold ib'. rewrite length_skipn, Nat2Z.inj_sub, Z2Nat.id by lia.
    apply div_sub_mul, Hch. }
  rewrite Hdiv in Hr2.
  pose proof (flow_leading_frames effp1 ib Hok Hcur Hsr Hcp) as Hlead.
  cbv zeta in Hlead. fold first ch p1 in Hlead. unfold flow in Hlead.
  fold ch in Hlead. rewrite Z.min_id, Z.div_mul in Hlead by lia.
  assert (first <= Z.of_nat (List.length ib) / ch) as Hle
    by (apply Z.div_le_lower_bound; lia).
  pose proof (flow_loop_split _ _ _ _ _ _ Hch0 Hfirst Hlead
                (Z.of_nat (List.length ib) / ch - first) ltac:(lia)) as Hsp.
  cbn [f_status f_priv f_isamp f_osamp f_obuf] in Hsp.
  destruct (Hsp f2 r2 Hr2) as [f Hf].
  replace (first + (Z.of_nat (List.length ib) / ch - first))
    with (Z.of_nat (List.length ib) / ch) in Hf by lia.
  pose proof (flow_loop_det _ _ _ _ _ _ _ _ Hr1 Hf) as Er. subst r1.
  cbn [f_status f_priv f_isamp f_osamp f_obuf app Z.add] in *.
  assert (0 <= f_isamp r2) as Hi2.
  { assert (0 <= Z.of_nat (List.length ib) / ch - first) as Hb by lia.
    destruct (flow_loop_facts _ _ _ _ _ _ Hch0 Hb Hr2)
      as (_ & _ & F3 & _). lia. }
  destruct t as [st e rest ob], t' as [st' e' rest' ob'].
  cbn [r_status r_effp r_rest r_obuf] in *. subst.
  f_equal. unfold ib'.
  rewrite Z2Nat.inj_add, skipn_add by lia. reflexivity.
Qed.

(** ** The input buffer *)

(** X15. A call of [flow] looks at no sample beyond the smaller of the
    two buffer sizes: two input buffers that agree on that many samples
    give the same result. *)
Theorem flow_reads_only_offered (effp : sox_effect_t)
    (ib ib' : list sox_sample_t) (isamp osamp : Z) :
  0 < channels (in_signal effp) -> 0 <= isamp -> 0 <= osamp ->
  firstn (Z.to_nat (Z.min isamp osamp)) ib
  = firstn (Z.to_nat (Z.min isamp osamp)) ib' ->
  flow effp ib isamp osamp = flow effp ib' isamp osamp.
Proof.
  intros Hch Hi Ho Heq. unfold flow.
  pose proof (flow_len_nonneg _ isamp osamp Hch Hi Ho) as Hlen.
  pose proof (Z.mul_div_le (Z.min isamp osamp) _ Hch) as Hle.
  set (len := Z.min isamp osamp / channels (in_signal effp)) in *.
  assert (0 <= channels (in_signal effp)) as Hch0 by lia.
  assert (len * channels (in_signal effp)
          <= Z.of_nat (Z.to_nat (Z.min isamp osamp))) as Hk by lia.
  rewrite <- (flow_loop_firstn _ _ _ _ ib _ Hch0 Hlen Hk).
  rewrite <- (flow_loop_firstn _ _ _ _ ib' _ Hch0 Hlen Hk).
  rewrite Heq. reflexivity.
Qed.

(** * Instances of the further properties *)

Local Open Scope string_scope.

Lemma parse_keeps_arguments_witness :
  let e := demo_parsed 2 200 ["=10"; "-20"; "5"] in
  map argument_of (pos (priv e)) = ["=10"; "-20"; "5"]
  /\ offsets (priv e) = [0; 0; 0]
  /\ uses_end (priv e) = true.
Proof.
  exact (parse_keeps_arguments demo_parsesamples (demo_effect 2 200)
           (demo_parsed 2 200 ["=10"; "-20"; "5"])
           ["trim"; "=10"; "-20"; "5"] eq_refl).
Defined.

Lemma start_is_repeatable_witness :
  start demo_parsesamples (demo_started 2 200 ["=10"; "20"])
  = (SOX_SUCCESS, demo_started 2 200 ["=10"; "20"], None).
Proof.
  apply (start_is_repeatable demo_parsesamples
           (demo_parsed 2 200 ["=10"; "20"])).
  vm_compute. reflexivity.
Defined.

Lemma end_relative_needs_length_witness :
  let e1 := demo_parsed 2 SOX_UNKNOWN_LEN ["10"; "-5"] in
  let e2 := demo_started 2 SOX_UNKNOWN_LEN ["10"; "-5"] in
  start demo_parsesamples e1 = (SOX_EOF, e2, Some msg_length_unknown)
  /\ length (in_signal e1) = SOX_UNKNOWN_LEN
  /\ offsets (priv e2) = offsets (priv e1).
Proof.
  intros e1 e2.
  assert (start demo_parsesamples e1 = (SOX_EOF, e2, Some msg_length_unknown))
    as Hstart by (vm_compute; reflexivity).
  assert (is_uint64 SOX_UNKNOWN_LEN) as Hlen
    by (unfold is_uint64, SOX_UNKNOWN_LEN; rewrite two64; lia).
  destruct (end_relative_needs_length demo_parsesamples demo_parser_in_range
              (demo_effect 2 SOX_UNKNOWN_LEN) e1 e2
              ["trim"; "10"; "-5"] SOX_EOF (Some msg_length_unknown)
              eq_refl (demo_signal_ok 2 SOX_UNKNOWN_LEN _ Hlen eq_refl)
              Hstart) as [[H1 _] H2].
  split; [exact Hstart|]. split.
  - exact (proj1 (H1 eq_refl)).
  - exact (proj2 (H2 eq_refl)).
Defined.

Lemma start_keeps_markers_in_audio_witness :
  let e := demo_parsed 2 200 ["=10"; "150"] in
  let e' := demo_started 2 200 ["=10"; "150"] in
  start demo_parsesamples e = (SOX_EOF, e', Some msg_end_after_end)
  /\ hd 0 (offsets (priv e')) <= in_length_of (in_signal e)
     < last (offsets (priv e')) 0.
Proof.
  intros e e'.
  assert (start demo_parsesamples e = (SOX_EOF, e', Some msg_end_after_end))
    as Hstart by (vm_compute; reflexivity).
  split; [exact Hstart|].
  destruct (start_keeps_markers_in_audio demo_parsesamples
              demo_parser_in_range e e' SOX_EOF (Some msg_end_after_end)
              (demo_signal_ok 2 200 _ uint64_200 eq_refl) Hstart)
    as (_ & _ & H3 & _).
  exact (proj2 (H3 eq_refl)).
Defined.

Lemma declared_length_by_cases_witness :
  out_signal_length (demo_started 2 SOX_UNKNOWN_LEN ["10"; "20"; "5"])
  = SOX_UNKNOWN_LEN
  /\ out_signal_length (demo_started 2 SOX_UNKNOWN_LEN ["10"; "20"])
     = mul64 20 2.
Proof.
  assert (is_uint64 SOX_UNKNOWN_LEN) as Hlen
    by (unfold is_uint64, SOX_UNKNOWN_LEN; rewrite two64; lia).
  split.
  - assert (start demo_parsesamples
              (demo_parsed 2 SOX_UNKNOWN_LEN ["10"; "20"; "5"])
            = (SOX_SUCCESS,
               demo_started 2 SOX_UNKNOWN_LEN ["10"; "20"; "5"], None))
      as Hstart by (vm_compute; reflexivity).
    destruct (declared_length_by_cases demo_parsesamples _ _ _
                demo_parser_in_range
                (demo_signal_ok 2 SOX_UNKNOWN_LEN _ Hlen eq_refl) Hstart)
      as (_ & H2 & _).
    exact (H2 eq_refl eq_refl).
  - assert (start demo_parsesamples
              (demo_parsed 2 SOX_UNKNOWN_LEN ["10"; "20"])
            = (SOX_SUCCESS,
               demo_started 2 SOX_UNKNOWN_LEN ["10"; "20"], None))
      as Hstart by (vm_compute; reflexivity).
    destruct (declared_length_by_cases demo_parsesamples _ _ _
                demo_parser_in_range
                (demo_signal_ok 2 SOX_UNKNOWN_LEN _ Hlen eq_refl) Hstart)
      as (_ & _ & H3).
    exact (H3 eq_refl eq_refl).
Defined.

Lemma flow_respects_buffers_witness :
  let e := demo_started 2 200 ["=10"; "20"] in
  exists r,
    flow e (demo_stream 200) 64 48 = Some r
    /\ 0 <= f_osamp r <= f_isamp r
    /\ f_isamp r <= 48
    /\ (2 | f_isamp r) /\ (2 | f_osamp r)
    /\ Z.of_nat (List.length (f_obuf r)) = f_osamp r.
Proof.
  intros e.
  assert (0 <= 64) as H64 by lia. assert (0 <= 48) as H48 by lia.
  destruct (flow_respects_buffers e demo_started_ok (demo_stream 200) 64 48
              H64 H48) as (r & Hr & B1 & B2 & B3 & B4 & _ & _ & B7 & _).
  exists r. split; [exact Hr|]. split; [exact B1|]. split; [exact B2|].
  split; [exact B3|]. split; [exact B4|].
  apply B7. vm_compute. discriminate.
Defined.

Lemma flow_accounts_for_frames_witness :
  let e := demo_started 2 200 ["=10"; "20"] in
  exists r,
    flow e (demo_stream 200) 64 64 = Some r
    /\ pos (f_priv r) = pos (priv e)
    /\ sox_trim_get_start (with_priv e (f_priv r)) = sox_trim_get_start e
    /\ samples_read (f_priv r)
       = add64 (samples_read (priv e)) (f_isamp r / channels (in_signal e))
    /\ (current_pos (f_priv r) <= num_pos (f_priv r))%nat.
Proof.
  intros e.
  assert (0 <= 64) as H64 by lia.
  destruct (flow_accounts_for_frames e demo_started_ok (demo_stream 200)
              64 64 H64 H64) as (r & Hr & A1 & _ & A3 & A4 & _ & A6).
  exists r. split; [exact Hr|]. split; [exact A1|]. split; [exact A3|].
  split; [exact A4|]. apply A6. vm_compute. lia.
Defined.

Lemma end_signal_is_final_witness :
  let e := demo_started 2 200 ["=10"; "20"] in
  exists r,
    flow e (demo_stream 200) 200 200 = Some r
    /\ f_status r = SOX_EOF
    /\ flow (with_priv e (f_priv r)) (demo_stream 8) 8 8
       = Some (mk_out SOX_EOF (f_priv r) 0 0 []).
Proof.
  intros e.
  assert (0 <= 200) as H200 by lia.
  destruct (flow_total e (demo_stream 200) 200 200 demo_started_ok H200 H200)
    as [r Hr].
  assert (f_status r = SOX_EOF) as Hst.
  { pose proof Hr as Hc. vm_compute in Hc. injection Hc as Hc.
    rewrite <- Hc. reflexivity. }
  exists r. split; [exact Hr|]. split; [exact Hst|].
  apply (end_signal_is_final e demo_started_ok _ _ _ r Hr Hst).
  - vm_compute. discriminate.
  - vm_compute. discriminate.
Defined.

Lemma open_end_never_signals_end_witness :
  let e1 := demo_started 2 200 ["=10"] in
  exists e2,
    flow_calls e1 [(demo_stream 64, 64, 64)] = Some e2
    /\ exists r,
         flow e2 (demo_stream 8) 8 8 = Some r
         /\ f_status r = SOX_SUCCESS
         /\ f_isamp r = 8.
Proof.
  intros e1.
  assert (start demo_parsesamples (demo_parsed 2 200 ["=10"])
          = (SOX_SUCCESS, e1, None)) as Hstart by (vm_compute; reflexivity).
  assert (calls_ok [(demo_stream 64, 64, 64)]) as Hcalls
    by (repeat constructor; cbn; lia).
  destruct (open_end_never_signals_end demo_parsesamples
              (demo_parsed 2 200 ["=10"]) e1 None
              [(demo_stream 64, 64, 64)] demo_parser_in_range
              (demo_signal_ok 2 200 _ uint64_200 eq_refl)
              (demo_fresh 2 200 _) Hstart eq_refl Hcalls)
    as (e2 & H1 & H2).
  exists e2. split; [exact H1|].
  assert (0 <= 8) as H8 by lia.
  destruct (H2 (demo_stream 8) 8 8 H8 H8) as (r & R1 & R2 & R3).
  exists r. split; [exact R1|]. split; [exact R2|exact R3].
Defined.

Lemma output_is_the_kept_spans_witness :
  let e1 := demo_started 2 200 ["10"; "20"; "-30"] in
  exists t,
    run_stream e1 [(64, 64); (64, 64); (64, 64); (64, 64)] (demo_stream 200)
    = Some t
    /\ stream_done t
    /\ r_obuf t
       = kept_spans 2 [10; 30; 70] false 0
           (whole_frames 2 (demo_stream 200)).
Proof.
  intros e1.
  assert (start demo_parsesamples (demo_parsed 2 200 ["10"; "20"; "-30"])
          = (SOX_SUCCESS, e1, None)) as Hstart by (vm_compute; reflexivity).
  assert (Z.of_nat (List.length (demo_stream 200)) < 2 ^ 64) as Haddr
    by (vm_compute; reflexivity).
  destruct (output_is_the_kept_spans demo_parsesamples demo_parser_in_range
              (demo_parsed 2 200 ["10"; "20"; "-30"]) e1 None
              (demo_signal_ok 2 200 _ uint64_200 eq_refl)
              (demo_fresh 2 200 _) Hstart
              [(64, 64); (64, 64); (64, 64); (64, 64)] (demo_stream 200)
              sched_64 Haddr) as (t & Ht & Hout).
  exists t. split; [exact Ht|].
  assert (stream_done t) as Hdone.
  { pose proof Ht as Hc. vm_compute in Hc. injection Hc as Hc.
    rewrite <- Hc. right. cbn. lia. }
  split; [exact Hdone|exact (Hout Hdone)].
Defined.

Lemma stream_end_and_consumption_witness :
  let e1 := demo_started 2 200 ["=10"; "20"] in
  exists t,
    run_stream e1 [(64, 64); (64, 64); (64, 64); (64, 64)] (demo_stream 200)
    = Some t
    /\ r_status t = SOX_EOF
    /\ samples_read (priv (r_effp t)) = 30
    /\ r_rest t = skipn 60 (demo_stream 200).
Proof.
  intros e1.
  assert (start demo_parsesamples (demo_parsed 2 200 ["=10"; "20"])
          = (SOX_SUCCESS, e1, None)) as Hstart by (vm_compute; reflexivity).
  assert (Z.of_nat (List.length (demo_stream 200)) < 2 ^ 64) as Haddr
    by (vm_compute; reflexivity).
  destruct (stream_end_and_consumption demo_parsesamples
              demo_parser_in_range
              (demo_parsed 2 200 ["=10"; "20"]) e1 None
              (demo_signal_ok 2 200 _ uint64_200 eq_refl)
              (demo_fresh 2 200 _) Hstart
              [(64, 64); (64, 64); (64, 64); (64, 64)] (demo_stream 200)
              sched_64 Haddr) as (t & Ht & Hall).
  exists t. split; [exact Ht|].
  assert (stream_done t) as Hdone.
  { pose proof Ht as Hc. vm_compute in Hc. injection Hc as Hc.
    rewrite <- Hc. left. reflexivity. }
  destruct (Hall Hdone) as (S1 & _ & S3 & S4).
  split; [|split].
  - apply S1. split; vm_compute; reflexivity.
  - exact S3.
  - rewrite S3 in S4. exact S4.
Defined.

Lemma drain_counts_unreached_markers_witness :
  let e1 := demo_started 2 200 ["10"; "20"; "-30"] in
  exists t,
    run_stream e1 [(64, 64); (64, 64); (64, 64); (64, 64)] (demo_stream 100)
    = Some t
    /\ current_pos (priv (r_effp t)) = 2%nat
    /\ drain (r_effp t) = (SOX_EOF, 0, Some (msg_not_reached 1)).
Proof.
  intros e1.
  assert (start demo_parsesamples (demo_parsed 2 200 ["10"; "20"; "-30"])
          = (SOX_SUCCESS, e1, None)) as Hstart by (vm_compute; reflexivity).
  assert (Z.of_nat (List.length (demo_stream 100)) < 2 ^ 64) as Haddr
    by (vm_compute; reflexivity).
  destruct (drain_counts_unreached_markers demo_parsesamples
              demo_parser_in_range
              (demo_parsed 2 200 ["10"; "20"; "-30"]) e1 None
              (demo_signal_ok 2 200 _ uint64_200 eq_refl)
              (demo_fresh 2 200 _) Hstart
              [(64, 64); (64, 64); (64, 64); (64, 64)] (demo_stream 100)
              sched_64 Haddr) as (t & Ht & Hall).
  exists t. split; [exact Ht|].
  assert (stream_done t) as Hdone.
  { pose proof Ht as Hc. vm_compute in Hc. injection Hc as Hc.
    rewrite <- Hc. right. cbn. lia. }
  exact (Hall Hdone).
Defined.

Lemma skipping_the_start_is_sound_witness :
  let e1 := demo_started 2 200 ["=10"; "20"] in
  exists t,
    run_stream e1 [(64, 64); (64, 64); (64, 64); (64, 64)] (demo_stream 200)
    = Some t
    /\ run_stream (sox_trim_clear_start e1) [(200, 200)]
         (skipn 20 (demo_stream 200)) = Some t.
Proof.
  intros e1.
  assert (start demo_parsesamples (demo_parsed 2 200 ["=10"; "20"])
          = (SOX_SUCCESS, e1, None)) as Hstart by (vm_compute; reflexivity).
  assert (sox_trim_get_start e1 <= Z.of_nat (List.length (demo_stream 200)))
    as Hskip by (vm_compute; discriminate).
  assert (hd 0 (offsets (priv e1))
          * channels (in_signal (demo_parsed 2 200 ["=10"; "20"])) < 2 ^ 64)
    as Hfit by (vm_compute; reflexivity).
  assert (sched_ok [(200, 200)]) as Hs' by (repeat constructor; cbn; lia).
  destruct (skipping_the_start_is_sound demo_parsesamples
              (demo_parsed 2 200 ["=10"; "20"]) e1 None
              [(64, 64); (64, 64); (64, 64); (64, 64)] [(200, 200)]
              (demo_stream 200) demo_parser_in_range
              (demo_signal_ok 2 200 _ uint64_200 eq_refl)
              (demo_fresh 2 200 _) Hstart Hskip Hfit sched_64 Hs')
    as (t & t' & H1 & H2 & H3).
  exists t. split; [exact H1|].
  assert (stream_done t) as Hdone.
  { pose proof H1 as Hc. vm_compute in Hc. injection Hc as Hc.
    rewrite <- Hc. left. reflexivity. }
  assert (stream_done t') as Hdone'.
  { pose proof H2 as Hc. vm_compute in Hc. injection Hc as Hc.
    rewrite <- Hc. left. reflexivity. }
  rewrite <- (H3 Hdone Hdone'). exact H2.
Defined.

Lemma flow_reads_only_offered_witness :
  let e := demo_started 2 200 ["=10"; "20"] in
  flow e (demo_stream 8) 8 8 = flow e (demo_stream 12) 8 8.
Proof.
  intros e. apply flow_reads_only_offered.
  - vm_compute. reflexivity.
  - lia.
  - lia.
  - reflexivity.
Defined.
